(** * TAML AST: node model, traversal engine and visitor dispatch

    A shallow embedding of the TypeScript sources [types.ts], [nodes.ts],
    [traversal.ts] and [visitor.ts].

    JavaScript objects have identity and are mutated in place, and every
    node carries a [parent] back-reference, so nodes live in a store
    ([gmap] from references to node records); a node value in the source
    is a reference [ref] here.  Code that may throw, loop or call
    caller-supplied callbacks runs in a small state-and-exception monad
    [M].  Recursion that follows pointers of the store ([walk], [visit],
    [cloneNode], the [parent] loops) takes a [fuel] bound, since a
    corrupted store may contain cycles. *)

From Stdlib Require Import ZArith String List Lia.
From stdpp Require Import base option list gmap sets strings.

Open Scope string_scope.
Open Scope list_scope.

Set Warnings "-register-all,-clear-no-such-hyp".

(** ** types.ts *)

Module Types.

(** [NodeType = "document" | "element" | "text"] *)
Inductive NodeType := document | element | text.

(** [TamlTag]: the 37 tag names. *)
Inductive TamlTag :=
| black | red | green | yellow | blue | magenta | cyan | white
| brightBlack | brightRed | brightGreen | brightYellow
| brightBlue | brightMagenta | brightCyan | brightWhite
| bgBlack | bgRed | bgGreen | bgYellow | bgBlue | bgMagenta | bgCyan | bgWhite
| bgBrightBlack | bgBrightRed | bgBrightGreen | bgBrightYellow
| bgBrightBlue | bgBrightMagenta | bgBrightCyan | bgBrightWhite
| bold | dim | italic | underline | strikethrough.

#[global] Instance NodeType_eq_dec : EqDecision NodeType.
Proof. solve_decision. Defined.

#[global] Instance TamlTag_eq_dec : EqDecision TamlTag.
Proof. solve_decision. Defined.

(** The string a [NodeType] stands for (used in error messages). *)
Definition type_name (t : NodeType) : string :=
  match t with
  | document => "document"
  | element => "element"
  | text => "text"
  end.

End Types.

Export Types.

(** ** The store and the monad *)

Module Store.

(** A reference to a node object. *)
Abbreviation ref := positive.

(** The three node shapes [DocumentNode], [ElementNode], [TextNode]. *)
Inductive NodeData :=
| Document (children : list ref)
| Element (tagName : TamlTag) (children : list ref)
| Text (content : string).

(** [TamlNode]: the fields shared by all nodes, and the shape. *)
Record TamlNode := mkNode {
  data : NodeData;
  start : Z;
  end_ : Z;
  parent : option ref
}.

Abbreviation Heap := (gmap positive TamlNode).

(** [node.type] *)
Definition type (n : TamlNode) : NodeType :=
  match data n with
  | Document _ => document
  | Element _ _ => element
  | Text _ => text
  end.

(** [node.children] of a container; a text node has no such field. *)
Definition children (n : TamlNode) : option (list ref) :=
  match data n with
  | Document cs => Some cs
  | Element _ cs => Some cs
  | Text _ => None
  end.

(** The children a traversal descends into: none for a text node. *)
Definition children_list (n : TamlNode) : list ref :=
  default [] (children n).

(** [node.parent = p] *)
Definition set_parent (p : option ref) (n : TamlNode) : TamlNode :=
  {| data := data n; start := start n; end_ := end_ n; parent := p |}.

(** In-place update of the [children] array of a container. *)
Definition map_children (f : list ref -> list ref) (n : TamlNode) : TamlNode :=
  match data n with
  | Document cs =>
      {| data := Document (f cs); start := start n; end_ := end_ n;
         parent := parent n |}
  | Element t cs =>
      {| data := Element t (f cs); start := start n; end_ := end_ n;
         parent := parent n |}
  | Text _ => n
  end.

(** Exceptions.  [Error msg] is a [new Error(msg)] made by the library
    itself; [Raised msg] is an exception object made by a
    caller-supplied callback, which is a different object even when
    the message is the same. *)
Inductive Exn :=
| Error (message : string)
| Raised (message : string).

(** The outcome of running code on a state [Σ]: a value, an exception
    (both with the state reached), the fuel bound hit, or a use of a
    reference that names no object or of a field the object does not
    have (excluded by the types of the source; kept so that the
    functions are total). *)
Inductive Result (Σ A : Type) :=
| Ok (a : A) (s : Σ)
| Throw (e : Exn) (s : Σ)
| OutOfFuel
| Stuck.
Arguments Ok {Σ A} a s.
Arguments Throw {Σ A} e s.
Arguments OutOfFuel {Σ A}.
Arguments Stuck {Σ A}.

Definition M (Σ A : Type) : Type := Σ -> Result Σ A.

Definition ret {Σ A} (a : A) : M Σ A := fun s => Ok a s.

Definition bind {Σ A B} (m : M Σ A) (k : A -> M Σ B) : M Σ B :=
  fun s =>
    match m s with
    | Ok a s' => k a s'
    | Throw e s' => Throw e s'
    | OutOfFuel => OutOfFuel
    | Stuck => Stuck
    end.

Definition throw {Σ A} (e : Exn) : M Σ A := fun s => Throw e s.

Definition out_of_fuel {Σ A} : M Σ A := fun _ => OutOfFuel.

(** [try { m } catch { }]: any exception is swallowed. *)
Definition try_catch {Σ} (m : M Σ unit) : M Σ unit :=
  fun s =>
    match m s with
    | Throw _ s' => Ok tt s'
    | r => r
    end.

(** States that contain a node store. *)
Class HasHeap (Σ : Type) := heap_of : Σ -> Heap.

#[global] Instance Heap_HasHeap : HasHeap Heap := fun h => h.

(** A state extended with the local variables of a closure. *)
#[global] Instance local_HasHeap {Σ L} `{HasHeap Σ} : HasHeap (Σ * L) :=
  fun s => heap_of (fst s).

(** Reading the object behind a reference. *)
Definition read {Σ} `{HasHeap Σ} (r : ref) : M Σ TamlNode :=
  fun s =>
    match heap_of s !! r with
    | Some n => Ok n s
    | None => Stuck
    end.

(** Mutating the object behind a reference. *)
Definition modify (r : ref) (f : TamlNode -> TamlNode) : M Heap unit :=
  fun h =>
    match h !! r with
    | Some n => Ok tt (<[r := f n]> h)
    | None => Stuck
    end.

(** Mutating the [children] array of the object behind a reference; a
    text node has no such array. *)
Definition update_children (r : ref) (f : list ref -> list ref)
  : M Heap unit :=
  fun h =>
    match h !! r with
    | Some n =>
        match children n with
        | Some _ => Ok tt (<[r := map_children f n]> h)
        | None => Stuck
        end
    | None => Stuck
    end.

(** Creating a new object: it gets a reference not in use. *)
Definition alloc (n : TamlNode) : M Heap ref :=
  fun h => let r := fresh (dom h) in Ok r (<[r := n]> h).

(** Code of the enclosing scope run from inside a closure: it does not
    see the closure variable. *)
Definition lift {Σ L A} (m : M Σ A) : M (Σ * L) A :=
  fun s =>
    match m (fst s) with
    | Ok a s' => Ok a (s', snd s)
    | Throw e s' => Throw e (s', snd s)
    | OutOfFuel => OutOfFuel
    | Stuck => Stuck
    end.

(** Reading and updating the closure variable. *)
Definition get_local {Σ L} : M (Σ * L) L := fun s => Ok (snd s) s.

Definition set_local {Σ L} (f : L -> L) : M (Σ * L) unit :=
  fun s => Ok tt (fst s, f (snd s)).

(** Running [m] with the closure variable initialised to [init]; the
    variable goes out of scope at the end, also on an exception. *)
Definition with_local {Σ L A} (init : L) (m : M (Σ * L) A) : M Σ A :=
  fun s =>
    match m (s, init) with
    | Ok a s' => Ok a (fst s')
    | Throw e s' => Throw e (fst s')
    | OutOfFuel => OutOfFuel
    | Stuck => Stuck
    end.

End Store.

Export Store.

Notation "x <- m ;; k" := (bind m (fun x => k))
  (at level 100, m at next level, right associativity).
Notation "m ;;; k" := (bind m (fun _ => k))
  (at level 100, right associativity).

(** ** nodes.ts *)

Module Nodes.

Definition isDocumentNode (n : TamlNode) : bool :=
  bool_decide (type n = document).

Definition isElementNode (n : TamlNode) : bool :=
  bool_decide (type n = element).

Definition isTextNode (n : TamlNode) : bool :=
  bool_decide (type n = text).

(** The loop of [createDocument] and [createElement]:
    [for (const child of children) { child.parent = owner;
    owner.children.push(child) }]. *)
Fixpoint adopt (owner : ref) (cs : list ref) : M Heap unit :=
  match cs with
  | [] => ret tt
  | child :: rest =>
      modify child (set_parent (Some owner)) ;;;
      update_children owner (fun l => l ++ [child]) ;;;
      adopt owner rest
  end.

(** [createDocument(children = [], start = 0, end = 0)]; an omitted
    argument is [None]. *)
Definition createDocument (cs : option (list ref)) (s e : option Z)
  : M Heap ref :=
  doc <- alloc {| data := Document []; start := default 0%Z s;
                  end_ := default 0%Z e; parent := None |} ;;
  adopt doc (default [] cs) ;;;
  ret doc.

(** [createElement(tagName, children = [], start = 0, end = 0)] *)
Definition createElement (tag : TamlTag) (cs : option (list ref))
    (s e : option Z) : M Heap ref :=
  el <- alloc {| data := Element tag []; start := default 0%Z s;
                 end_ := default 0%Z e; parent := None |} ;;
  adopt el (default [] cs) ;;;
  ret el.

(** [createText(content, start = 0, end = content.length)]; the
    length of a string counts its code units, which for ASCII content
    is [String.length]. *)
Definition createText (c : string) (s e : option Z) : M Heap ref :=
  alloc {| data := Text c; start := default 0%Z s;
           end_ := default (Z.of_nat (String.length c)) e;
           parent := None |}.

(** [appendChild(parent, child)] *)
Definition appendChild (p child : ref) : M Heap unit :=
  modify child (set_parent (Some p)) ;;;
  update_children p (fun l => l ++ [child]).

(** [array.indexOf(x)]: the first index holding [x], [None] for -1. *)
Fixpoint indexOf (l : list ref) (x : ref) : option nat :=
  match l with
  | [] => None
  | y :: l' => if decide (y = x) then Some 0 else S <$> indexOf l' x
  end.

(** [removeChild(child)] *)
Definition removeChild (child : ref) : M Heap unit :=
  c <- read child ;;
  match parent c with
  | None => ret tt
  | Some p =>
      pn <- read p ;;
      if isDocumentNode pn || isElementNode pn then
        match indexOf (children_list pn) child with
        | Some index =>
            (* child.parent.children.splice(index, 1) *)
            update_children p (delete index) ;;;
            modify child (set_parent None)
        | None => ret tt
        end
      else ret tt
  end.

(** [replaceChild(parent, oldChild, newChild)] *)
Definition replaceChild (p oldChild newChild : ref) : M Heap unit :=
  pn <- read p ;;
  match children pn with
  | Some cs =>
      match indexOf cs oldChild with
      | Some index =>
          modify oldChild (set_parent None) ;;;
          modify newChild (set_parent (Some p)) ;;;
          update_children p (fun l => <[index := newChild]> l)
      | None => ret tt
      end
  | None => fun _ => Stuck
  end.

(** [array.map(f)] for an [f] that leaves the array alone. *)
Fixpoint mapM {Σ A B} (f : A -> M Σ B) (l : list A) : M Σ (list B) :=
  match l with
  | [] => ret []
  | x :: l' => y <- f x ;; ys <- mapM f l' ;; ret (y :: ys)
  end.

(** [cloneNode(node)]; the final [throw] of the source is for a
    [type] outside [NodeType] and has no counterpart. *)
Fixpoint cloneNode (fuel : nat) (node : ref) : M Heap ref :=
  match fuel with
  | 0 => out_of_fuel
  | S fuel' =>
      n <- read node ;;
      match data n with
      | Text c => createText c (Some (start n)) (Some (end_ n))
      | Element tag cs =>
          clonedChildren <- mapM (cloneNode fuel') cs ;;
          createElement tag (Some clonedChildren)
            (Some (start n)) (Some (end_ n))
      | Document cs =>
          clonedChildren <- mapM (cloneNode fuel') cs ;;
          createDocument (Some clonedChildren)
            (Some (start n)) (Some (end_ n))
      end
  end.

(** The loop of [getRoot]: [while (current.parent) current =
    current.parent]. *)
Fixpoint climb (fuel : nat) (current : ref) : M Heap ref :=
  match fuel with
  | 0 => out_of_fuel
  | S fuel' =>
      c <- read current ;;
      match parent c with
      | Some p => climb fuel' p
      | None => ret current
      end
  end.

Definition StructuralError : Exn := Error "Root node is not a document node".

(** [getRoot(node)] *)
Definition getRoot (fuel : nat) (node : ref) : M Heap ref :=
  current <- climb fuel node ;;
  c <- read current ;;
  if negb (isDocumentNode c) then throw StructuralError
  else ret current.

End Nodes.

Export Nodes.

(** ** traversal.ts *)

Module Traversal.

Section Walk.
Context {Σ : Type} `{HasHeap Σ}.

(** [for (const child of owner.children) body(child)].  The array
    iterator reads the array again at every step, so a body that
    changes the children of [owner] changes the iteration. *)
Fixpoint for_of (steps : nat) (owner : ref) (i : nat)
    (body : ref -> M Σ unit) : M Σ unit :=
  match steps with
  | 0 => out_of_fuel
  | S steps' =>
      n <- read owner ;;
      match children_list n !! i with
      | Some child => body child ;;; for_of steps' owner (S i) body
      | None => ret tt
      end
  end.

(** [walk(node, callback)] *)
Fixpoint walk (fuel : nat) (node : ref) (callback : ref -> M Σ unit)
  : M Σ unit :=
  match fuel with
  | 0 => out_of_fuel
  | S fuel' =>
      callback node ;;;
      n <- read node ;;
      if isDocumentNode n || isElementNode n then
        for_of fuel' node 0 (fun child => walk fuel' child callback)
      else ret tt
  end.

End Walk.

(** The result of [countNodes]. *)
Record NodeCounts := mkCounts {
  document_count : nat;
  element_count : nat;
  text_count : nat
}.

Section Queries.
Context {Σ : Type} `{HasHeap Σ}.

(** The callback [findAll] hands to [walk]; [results] is the
    closure variable. *)
Definition findAll_visit (predicate : ref -> M Σ bool) (node : ref)
  : M (Σ * list ref) unit :=
  b <- lift (predicate node) ;;
  if b then set_local (fun results => results ++ [node]) else ret tt.

(** [findAll(root, predicate)] *)
Definition findAll (fuel : nat) (root : ref)
    (predicate : ref -> M Σ bool) : M Σ (list ref) :=
  with_local ([] : list ref)
    (walk fuel root (findAll_visit predicate) ;;; get_local).

Definition Found : Exn := Error "Found".

(** The callback [findFirst] hands to [walk]; [result] is the
    closure variable. *)
Definition findFirst_visit (predicate : ref -> M Σ bool) (node : ref)
  : M (Σ * option ref) unit :=
  b <- lift (predicate node) ;;
  if b then
    set_local (fun _ => Some node) ;;;
    throw Found (* Break out of walk *)
  else ret tt.

(** [findFirst(root, predicate)] *)
Definition findFirst (fuel : nat) (root : ref)
    (predicate : ref -> M Σ bool) : M Σ (option ref) :=
  with_local (None : option ref)
    (try_catch (walk fuel root (findFirst_visit predicate)) ;;;
     get_local).

(** The callback [getAllText] hands to [walk]; [textParts] is the
    closure variable. *)
Definition getAllText_visit (node : ref) : M (Σ * list string) unit :=
  n <- read node ;;
  match data n with
  | Text c => set_local (fun textParts => textParts ++ [c])
  | _ => ret tt
  end.

(** [getAllText(root)] *)
Definition getAllText (fuel : nat) (root : ref) : M Σ string :=
  with_local ([] : list string)
    (walk fuel root getAllText_visit ;;;
     textParts <- get_local ;;
     ret (String.concat "" textParts)).

(** [getElementsWithTag(root, tagName)] *)
Definition getElementsWithTag (fuel : nat) (root : ref) (tag : TamlTag)
  : M Σ (list ref) :=
  findAll fuel root (fun node =>
    n <- read node ;;
    ret (match data n with
         | Element t _ => bool_decide (t = tag)
         | _ => false
         end)).

(** The first loop of [getCommonAncestor]: the set of [node1] and
    its ancestors. *)
Fixpoint ancestor_set (fuel : nat) (current : option ref)
    (ancestors1 : gset ref) : M Σ (gset ref) :=
  match fuel with
  | 0 => out_of_fuel
  | S fuel' =>
      match current with
      | Some c =>
          n <- read c ;;
          ancestor_set fuel' (parent n) ({[c]} ∪ ancestors1)
      | None => ret ancestors1
      end
  end.

(** The second loop: the first of [node2] and its ancestors that is
    in the set. *)
Fixpoint first_common (fuel : nat) (current : option ref)
    (ancestors1 : gset ref) : M Σ (option ref) :=
  match fuel with
  | 0 => out_of_fuel
  | S fuel' =>
      match current with
      | Some c =>
          if decide (c ∈ ancestors1) then ret (Some c)
          else n <- read c ;; first_common fuel' (parent n) ancestors1
      | None => ret None
      end
  end.

(** [getCommonAncestor(node1, node2)] *)
Definition getCommonAncestor (fuel : nat) (node1 node2 : ref)
  : M Σ (option ref) :=
  ancestors1 <- ancestor_set fuel (Some node1) ∅ ;;
  first_common fuel (Some node2) ancestors1.

(** [getSiblings(node)] *)
Definition getSiblings (node : ref) : M Σ (list ref) :=
  n <- read node ;;
  match parent n with
  | None => ret []
  | Some p =>
      pn <- read p ;;
      if negb (isDocumentNode pn) && negb (isElementNode pn) then ret []
      else ret (List.filter (fun child => negb (bool_decide (child = node)))
                  (children_list pn))
  end.

(** The callback [countNodes] hands to [walk]; [counts] is the
    closure variable. *)
Definition countNodes_visit (node : ref) : M (Σ * NodeCounts) unit :=
  n <- read node ;;
  if isDocumentNode n then
    set_local (fun c => mkCounts (S (document_count c))
                          (element_count c) (text_count c))
  else if isElementNode n then
    set_local (fun c => mkCounts (document_count c)
                          (S (element_count c)) (text_count c))
  else if isTextNode n then
    set_local (fun c => mkCounts (document_count c)
                          (element_count c) (S (text_count c)))
  else ret tt.

(** [countNodes(root)] *)
Definition countNodes (fuel : nat) (root : ref) : M Σ NodeCounts :=
  with_local (mkCounts 0 0 0)
    (walk fuel root countNodes_visit ;;; get_local).

(** The inner function [traverse] of [getMaxDepth]; [maxDepth] is
    the closure variable. *)
Fixpoint traverse (fuel : nat) (node : ref) (depth : nat)
  : M (Σ * nat) unit :=
  match fuel with
  | 0 => out_of_fuel
  | S fuel' =>
      set_local (fun maxDepth => Nat.max maxDepth depth) ;;;
      n <- read node ;;
      if isDocumentNode n || isElementNode n then
        for_of fuel' node 0 (fun child => traverse fuel' child (depth + 1))
      else ret tt
  end.

(** [getMaxDepth(root)] *)
Definition getMaxDepth (fuel : nat) (root : ref) : M Σ nat :=
  with_local 0 (traverse fuel root 0 ;;; get_local).

End Queries.

End Traversal.

Export Traversal.

(** ** visitor.ts *)

Module Visitor.

(** The callbacks a caller can register. *)
Inductive Hook :=
| VisitDocument | VisitElement | VisitText | EnterNode | ExitNode
| Predicate.

Section Callbacks.
Context {U : Type}.

(** What a caller-supplied callback does: it may change the nodes
    and the caller's own state [U] in any way, and returns or
    throws. *)
Inductive CbResult (T : Type) :=
| Returns (v : T) (h : Heap) (u : U)
| Throws (message : string) (h : Heap) (u : U).
Arguments Returns {T} v h u.
Arguments Throws {T} message h u.

Definition Callback (T : Type) : Type := ref -> Heap -> U -> CbResult T.

(** The state of a run: the nodes, the caller's state, and the
    record of every callback invocation made so far. *)
Record World := mkWorld {
  nodes : Heap;
  user : U;
  calls : list (Hook * ref)
}.

#[global] Instance World_HasHeap : HasHeap World := nodes.

(** Calling a registered callback on a node. *)
Definition invoke {T} (k : Hook) (cb : Callback T) (node : ref)
  : M World T :=
  fun w =>
    let log := calls w ++ [(k, node)] in
    match cb node (nodes w) (user w) with
    | Returns v h u => Ok v (mkWorld h u log)
    | Throws msg h u => Throw (Raised msg) (mkWorld h u log)
    end.

(** [cb?.(node)]: nothing happens when [cb] is not registered. *)
Definition invoke_opt (k : Hook) (cb : option (Callback unit))
    (node : ref) : M World unit :=
  match cb with
  | Some f => invoke k f node
  | None => ret tt
  end.

(** [interface Visitor] *)
Record Visitor := mkVisitor {
  visitDocument : option (Callback unit);
  visitElement : option (Callback unit);
  visitText : option (Callback unit);
  enterNode : option (Callback unit);
  exitNode : option (Callback unit)
}.

(** [interface Transformer<T>]; its fields are [visitDocument],
    [visitElement] and [visitText] in the source, names the record
    [Visitor] already has here. *)
Record Transformer (T : Type) := mkTransformer {
  transformDocument : option (Callback T);
  transformElement : option (Callback T);
  transformText : option (Callback T)
}.
Arguments transformDocument {T} _.
Arguments transformElement {T} _.
Arguments transformText {T} _.

(** [visit(node, visitor)] *)
Fixpoint visit (fuel : nat) (node : ref) (visitor : Visitor)
  : M World unit :=
  match fuel with
  | 0 => out_of_fuel
  | S fuel' =>
      invoke_opt EnterNode (enterNode visitor) node ;;;
      n <- read node ;;
      (if isDocumentNode n then
         invoke_opt VisitDocument (visitDocument visitor) node ;;;
         for_of fuel' node 0 (fun child => visit fuel' child visitor)
       else if isElementNode n then
         invoke_opt VisitElement (visitElement visitor) node ;;;
         for_of fuel' node 0 (fun child => visit fuel' child visitor)
       else if isTextNode n then
         invoke_opt VisitText (visitText visitor) node
       else ret tt) ;;;
      invoke_opt ExitNode (exitNode visitor) node
  end.

Definition DispatchError (t : NodeType) : Exn :=
  Error ("No transformer method found for node type: " +:+ type_name t).

(** [transform(node, transformer)] *)
Definition transform {T} (node : ref) (transformer : Transformer T)
  : M World T :=
  n <- read node ;;
  let missing := throw (DispatchError (type n)) in
  if isDocumentNode n then
    match transformDocument transformer with
    | Some f => invoke VisitDocument f node
    | None => missing
    end
  else if isElementNode n then
    match transformElement transformer with
    | Some f => invoke VisitElement f node
    | None => missing
    end
  else if isTextNode n then
    match transformText transformer with
    | Some f => invoke VisitText f node
    | None => missing
    end
  else missing.

End Callbacks.

Arguments World U : clear implicits.
Arguments Visitor U : clear implicits.
Arguments Transformer U T : clear implicits.
Arguments Callback U T : clear implicits.
Arguments CbResult U T : clear implicits.
Arguments Returns {U T} v h u.
Arguments Throws {U T} message h u.
Arguments transformDocument {U T} _.
Arguments transformElement {U T} _.
Arguments transformText {U T} _.
Arguments mkTransformer {U T} _ _ _.

End Visitor.

Export Visitor.

(** ** Specification vocabulary *)

Module Spec.

(** The tree a store holds below a node, by the [children] arrays: a
    node reference and the trees of its children, in order. *)
Inductive Tree := T (r : ref) (ks : list Tree).

Definition root (t : Tree) : ref := match t with T r _ => r end.

Definition kids (t : Tree) : list Tree := match t with T _ ks => ks end.

(** Depth-first pre-order: a node, then its children's trees in
    order. *)
Fixpoint preorder (t : Tree) : list ref :=
  match t with
  | T r ks => r :: flat_map preorder ks
  end.

(** Longest distance from the root to a leaf. *)
Fixpoint height (t : Tree) : nat :=
  match t with
  | T _ ks => list_max (map (fun k => S (height k)) ks)
  end.

(** A fuel bound that is enough for every traversal of the tree. *)
Fixpoint weight (t : Tree) : nat :=
  match t with
  | T _ ks => S (S (list_sum (map (fun k => S (weight k)) ks)))
  end.

(** [repr h t]: in the store [h], the tree below [root t] is [t]. *)
Inductive repr (h : Heap) : Tree -> Prop :=
| repr_node r n ks :
    h !! r = Some n ->
    children_list n = map root ks ->
    Forall (repr h) ks ->
    repr h (T r ks).

(** Two nodes of the same kind, tag, content and span. *)
Definition same_label (n n' : TamlNode) : Prop :=
  start n = start n' /\ end_ n = end_ n'
  /\ match data n, data n' with
     | Document _, Document _ => True
     | Element tag _, Element tag' _ => tag = tag'
     | Text c, Text c' => c = c'
     | _, _ => False
     end.

(** Structural equality of two trees of a store: the same labels at
    the roots, and structurally equal children, pairwise in order. *)
Inductive struct_eq (h : Heap) : Tree -> Tree -> Prop :=
| struct_eq_node r ks r' ks' n n' :
    h !! r = Some n -> h !! r' = Some n' -> same_label n n' ->
    Forall2 (struct_eq h) ks ks' ->
    struct_eq h (T r ks) (T r' ks').

(** [h'] has every node of [h], with the same fields but for
    [parent]. *)
Definition preserves (h h' : Heap) : Prop :=
  forall y n, h !! y = Some n ->
    exists n', h' !! y = Some n' /\ data n' = data n
               /\ start n' = start n /\ end_ n' = end_ n.

(** The child-parent pairs of a tree. *)
Fixpoint edges (t : Tree) : list (ref * ref) :=
  match t with
  | T r ks => map (fun k => (root k, r)) ks ++ flat_map edges ks
  end.

(** Every node below the root has its parent in the tree as [parent]. *)
Definition parented (h : Heap) (t : Tree) : Prop :=
  Forall (fun e => exists n, h !! fst e = Some n /\ parent n = Some (snd e))
    (edges t).

(** What a clone [t'] of the tree [t] satisfies, made from store [h]
    and leaving store [h']: the nodes of [h] are untouched; the nodes
    of the clone are new, and no two of them are the same; the clone is
    a tree structurally equal to [t]; its root has no parent and every
    other node of it has its parent in the clone as [parent]. *)
Definition cloned (h : Heap) (t : Tree) (h' : Heap) (t' : Tree) : Prop :=
  h ⊆ h'
  /\ Forall (fun y => h !! y = None) (preorder t')
  /\ NoDup (preorder t')
  /\ repr h' t'
  /\ struct_eq h' t t'
  /\ (exists n', h' !! root t' = Some n' /\ parent n' = None)
  /\ parented h' t'.

(** [chain h r l]: [l] is [r] followed by its ancestors, nearest
    first, up to a node without parent. *)
Inductive chain (h : Heap) : ref -> list ref -> Prop :=
| chain_top r n :
    h !! r = Some n -> parent n = None -> chain h r [r]
| chain_up r n p l :
    h !! r = Some n -> parent n = Some p -> chain h p l ->
    chain h r (r :: l).

(** [ancestor_or_self h a x]: [a] is [x] or is reached from [x] by
    [parent] links. *)
Definition ancestor_or_self (h : Heap) (a x : ref) : Prop :=
  rtc (fun c p => exists n, h !! c = Some n /\ parent n = Some p) x a.

Section Sequential.
Context {Σ : Type} `{HasHeap Σ}.

(** Running [f] on the elements of a list, in order. *)
Fixpoint run_seq {X} (f : X -> M Σ unit) (l : list X) : M Σ unit :=
  match l with
  | [] => ret tt
  | x :: l' => f x ;;; run_seq f l'
  end.

(** An outcome that left the nodes of [s] as they were. *)
Definition same_heap {A} (s : Σ) (r : Result Σ A) : Prop :=
  match r with
  | Ok _ s' => heap_of s' = heap_of s
  | Throw _ s' => heap_of s' = heap_of s
  | _ => True
  end.

(** A callback that never changes a node. *)
Definition heap_stable {X A} (f : X -> M Σ A) : Prop :=
  forall x s, same_heap s (f x s).

(** Searching a list for the first element [p] accepts. *)
Fixpoint scan (p : ref -> M Σ bool) (l : list ref) : M Σ (option ref) :=
  match l with
  | [] => ret None
  | x :: l' => b <- p x ;; if b then ret (Some x) else scan p l'
  end.

(** Collecting the elements of a list [p] accepts. *)
Fixpoint collect (p : ref -> M Σ bool) (l : list ref)
  : M Σ (list ref) :=
  match l with
  | [] => ret []
  | x :: l' =>
      b <- p x ;; rest <- collect p l' ;;
      ret (if b then x :: rest else rest)
  end.

(** [rejects p l s s']: applied to the nodes of [l] in order from
    state [s], the predicate answers false each time and leaves
    state [s']. *)
Inductive rejects (p : ref -> M Σ bool) : list ref -> Σ -> Σ -> Prop :=
| rejects_nil s : rejects p [] s s
| rejects_cons x l s s1 s' :
    p x s = Ok false s1 -> rejects p l s1 s' -> rejects p (x :: l) s s'.

End Sequential.

Section Observation.
Context {U : Type}.

(** A predicate without effects, as a callback. *)
Definition pure_predicate (q : ref -> Heap -> U -> bool)
  : Callback U bool :=
  fun r h u => Returns (q r h u) h u.

(** The world after the invocations [l] were recorded. *)
Definition record (w : World U) (l : list (Hook * ref)) : World U :=
  mkWorld (nodes w) (user w) (calls w ++ l).

(** A callback that never changes a node. *)
Definition keeps_nodes {T} (cb : Callback U T) : Prop :=
  forall r h u,
    match cb r h u with
    | Returns _ h' _ => h' = h
    | Throws _ h' _ => h' = h
    end.

(** A callback that never throws. *)
Definition never_throws {T} (cb : Callback U T) : Prop :=
  forall r h u,
    match cb r h u with
    | Returns _ _ _ => True
    | Throws _ _ _ => False
    end.

(** The kind-specific hook of a node type. *)
Definition kind_hook (t : NodeType) : Hook :=
  match t with
  | document => VisitDocument
  | element => VisitElement
  | text => VisitText
  end.

(** The callback a visitor registers for a hook, if any. *)
Definition hook_of (v : Visitor U) (k : Hook) : option (Callback U unit) :=
  match k with
  | VisitDocument => visitDocument v
  | VisitElement => visitElement v
  | VisitText => visitText v
  | EnterNode => enterNode v
  | ExitNode => exitNode v
  | Predicate => None
  end.

Definition registered (v : Visitor U) (c : Hook * ref) : bool :=
  bool_decide (is_Some (hook_of v (fst c))).

(** The callback a transformer registers for a node type, if any. *)
Definition handler {T} (tr : Transformer U T) (t : NodeType)
  : option (Callback U T) :=
  match t with
  | document => transformDocument tr
  | element => transformElement tr
  | text => transformText tr
  end.

(** The hook invocations a visit of a tree is to make: the enter
    hook for the node, the hook of its kind, the invocations for
    each child's tree in order, the exit hook for the node. *)
Fixpoint hook_sequence (h : Heap) (t : Tree) : list (Hook * ref) :=
  match t with
  | T r ks =>
      (EnterNode, r)
      :: match h !! r with
         | Some n => [(kind_hook (type n), r)]
         | None => []
         end
      ++ flat_map (hook_sequence h) ks
      ++ [(ExitNode, r)]
  end.

(** Making one invocation of the sequence on a visitor: a hook that
    is not registered is skipped. *)
Definition fire (v : Visitor U) (c : Hook * ref) : M (World U) unit :=
  invoke_opt (fst c) (hook_of v (fst c)) (snd c).

(** A visitor none of whose callbacks changes a node. *)
Definition visitor_keeps_nodes (v : Visitor U) : Prop :=
  forall k cb, hook_of v k = Some cb -> keeps_nodes cb.

(** A visitor none of whose callbacks throws. *)
Definition visitor_never_throws (v : Visitor U) : Prop :=
  forall k cb, hook_of v k = Some cb -> never_throws cb.

End Observation.

End Spec.

Export Spec.

(** ** A worked example *)

Module Examples.

(** The tree of [<red>Hello <bold>World</bold>!</red>] wrapped in a
    document, built with the factories; the result is the document
    and the bold element. *)
Definition build_example : M Heap (ref * ref) :=
  hello <- createText "Hello " None None ;;
  world <- createText "World" None None ;;
  exclamation <- createText "!" None None ;;
  bold_el <- createElement bold (Some [world]) None None ;;
  red_el <- createElement red (Some [hello; bold_el; exclamation])
              None None ;;
  doc <- createDocument (Some [red_el]) None None ;;
  ret (doc, bold_el).

(** The store the construction leaves. *)
Definition example_heap : Heap :=
  match build_example ∅ with
  | Ok _ h => h
  | _ => ∅
  end.

(** The references the construction hands out, in order of creation:
    the three texts, the bold element, the red element, the
    document. *)
Definition hello_ref : ref := 1%positive.
Definition world_ref : ref := 2%positive.
Definition exclamation_ref : ref := 3%positive.
Definition bold_ref : ref := 4%positive.
Definition red_ref : ref := 5%positive.
Definition doc_ref : ref := 6%positive.

Definition example_tree : Tree :=
  T doc_ref
    [T red_ref
       [T hello_ref []; T bold_ref [T world_ref []]; T exclamation_ref []]].

(** A caller whose state is a counter of the callbacks that ran. *)
Definition example_world : World nat := mkWorld example_heap 0 [].

Definition count_call {T} (v : T) : Callback nat T :=
  fun _ h u => Returns v h (S u).

(** A visitor with an enter hook and a text callback only. *)
Definition example_visitor : Visitor nat :=
  mkVisitor None None (Some (count_call tt)) (Some (count_call tt)) None.

(** A transformer without text callback. *)
Definition example_transformer : Transformer nat string :=
  mkTransformer (Some (count_call "doc")) (Some (count_call "el")) None.

(** A predicate that holds of the text nodes. *)
Definition is_text (r : ref) (h : Heap) (u : nat) : bool :=
  match h !! r with
  | Some n => isTextNode n
  | None => false
  end.

(** A predicate that throws on the bold element and rejects every
    other node. *)
Definition failing_predicate (r : ref) : M Heap bool :=
  if decide (r = bold_ref) then throw (Raised "unsupported") else ret false.

End Examples.

Export Examples.

(** ** The rest of nodes.ts *)

Module Ancestry.

Section Climb.
Context {Σ : Type} `{HasHeap Σ}.

(** The loop of [getAncestors]:
    [while (current) { ancestors.push(current); current = current.parent }]. *)
Fixpoint getAncestors_loop (fuel : nat) (current : option ref)
    (ancestors : list ref) : M Σ (list ref) :=
  match fuel with
  | 0 => out_of_fuel
  | S fuel' =>
      match current with
      | Some c =>
          n <- read c ;;
          getAncestors_loop fuel' (parent n) (ancestors ++ [c])
      | None => ret ancestors
      end
  end.

(** [getAncestors(node)] *)
Definition getAncestors (fuel : nat) (node : ref) : M Σ (list ref) :=
  n <- read node ;;
  getAncestors_loop fuel (parent n) [].

(** The loop of [getDepth]:
    [while (current) { depth++; current = current.parent }]. *)
Fixpoint getDepth_loop (fuel : nat) (current : option ref) (depth : nat)
  : M Σ nat :=
  match fuel with
  | 0 => out_of_fuel
  | S fuel' =>
      match current with
      | Some c =>
          n <- read c ;;
          getDepth_loop fuel' (parent n) (S depth)
      | None => ret depth
      end
  end.

(** [getDepth(node)] *)
Definition getDepth (fuel : nat) (node : ref) : M Σ nat :=
  n <- read node ;;
  getDepth_loop fuel (parent n) 0.

End Climb.

End Ancestry.

Export Ancestry.

(** ** The rest of traversal.ts *)

Module Queries.

Section Search.
Context {Σ : Type} `{HasHeap Σ}.

(** [getTextNodes(root)]: [findAll(root, isTextNode)]. *)
Definition getTextNodes (fuel : nat) (root : ref) : M Σ (list ref) :=
  findAll fuel root (fun node => n <- read node ;; ret (isTextNode n)).

(** [getElementNodes(root)]: [findAll(root, isElementNode)]. *)
Definition getElementNodes (fuel : nat) (root : ref) : M Σ (list ref) :=
  findAll fuel root (fun node => n <- read node ;; ret (isElementNode n)).

(** [for (const child of owner.children) if (body(child)) return true],
    followed by [return false]. *)
Fixpoint for_of_some (steps : nat) (owner : ref) (i : nat)
    (body : ref -> M Σ bool) : M Σ bool :=
  match steps with
  | 0 => out_of_fuel
  | S steps' =>
      n <- read owner ;;
      match children_list n !! i with
      | Some child =>
          b <- body child ;;
          if b then ret true else for_of_some steps' owner (S i) body
      | None => ret false
      end
  end.

(** [contains(ancestor, descendant)] *)
Fixpoint contains (fuel : nat) (ancestor descendant : ref) : M Σ bool :=
  match fuel with
  | 0 => out_of_fuel
  | S fuel' =>
      if decide (ancestor = descendant) then ret true
      else
        n <- read ancestor ;;
        if isDocumentNode n || isElementNode n then
          for_of_some fuel' ancestor 0
            (fun child => contains fuel' child descendant)
        else ret false
  end.

(** [array.indexOf(x)] as the number it is in the source: -1 when [x]
    is not in the array. *)
Definition indexOf_number (l : list ref) (x : ref) : Z :=
  match indexOf l x with
  | Some i => Z.of_nat i
  | None => (-1)%Z
  end.

(** [array[i] ?? null] *)
Definition at_index (l : list ref) (i : Z) : option ref :=
  if (i <? 0)%Z then None else l !! Z.to_nat i.

(** [getPreviousSibling(node)] *)
Definition getPreviousSibling (node : ref) : M Σ (option ref) :=
  n <- read node ;;
  match parent n with
  | None => ret None
  | Some p =>
      pn <- read p ;;
      if negb (isDocumentNode pn) && negb (isElementNode pn) then ret None
      else
        let index := indexOf_number (children_list pn) node in
        ret (if (0 <? index)%Z
             then at_index (children_list pn) (index - 1)
             else None)
  end.

(** [getNextSibling(node)] *)
Definition getNextSibling (node : ref) : M Σ (option ref) :=
  n <- read node ;;
  match parent n with
  | None => ret None
  | Some p =>
      pn <- read p ;;
      if negb (isDocumentNode pn) && negb (isElementNode pn) then ret None
      else
        let index := indexOf_number (children_list pn) node in
        ret (if (index <? Z.of_nat (length (children_list pn)) - 1)%Z
             then at_index (children_list pn) (index + 1)
             else None)
  end.

(** [array.every(f)] for an [f] that leaves the array alone. *)
Fixpoint every (f : ref -> M Σ bool) (l : list ref) : M Σ bool :=
  match l with
  | [] => ret true
  | x :: l' => b <- f x ;; if b then every f l' else ret false
  end.

(** [isEmpty(node)]; [blank c] stands for [c.trim() === ""].  The final
    [return false] of the source is for a [type] outside [NodeType]. *)
Fixpoint isEmpty (blank : string -> bool) (fuel : nat) (node : ref)
  : M Σ bool :=
  match fuel with
  | 0 => out_of_fuel
  | S fuel' =>
      n <- read node ;;
      match data n with
      | Text c => ret (blank c)
      | Document cs | Element _ cs =>
          if bool_decide (length cs = 0) then ret true
          else every (isEmpty blank fuel') cs
      end
  end.

End Search.

Section Collect.
Context {Σ : Type} `{HasHeap Σ}.

(** The callback [flatten] hands to [walk]; [nodes] is the closure
    variable. *)
Definition flatten_visit (node : ref) : M (Σ * list ref) unit :=
  set_local (fun nodes => nodes ++ [node]).

(** [flatten(root)] *)
Definition flatten (fuel : nat) (root : ref) : M Σ (list ref) :=
  with_local ([] : list ref) (walk fuel root flatten_visit ;;; get_local).

(** The inner function [traverse] of [createDepthMap]; [depthMap] is
    the closure variable. *)
Fixpoint depth_traverse (fuel : nat) (node : ref) (depth : nat)
  : M (Σ * gmap positive nat) unit :=
  match fuel with
  | 0 => out_of_fuel
  | S fuel' =>
      set_local (fun depthMap => <[node := depth]> depthMap) ;;;
      n <- read node ;;
      if isDocumentNode n || isElementNode n then
        for_of fuel' node 0
          (fun child => depth_traverse fuel' child (depth + 1))
      else ret tt
  end.

(** [createDepthMap(root)] *)
Definition createDepthMap (fuel : nat) (root : ref)
  : M Σ (gmap positive nat) :=
  with_local (∅ : gmap positive nat)
    (depth_traverse fuel root 0 ;;; get_local).

End Collect.

(** The white space [String.prototype.trim] removes, among the ASCII
    characters: tab, line feed, vertical tab, form feed, carriage
    return, space. *)
Definition ascii_white_space (c : Ascii.ascii) : bool :=
  let n := Ascii.nat_of_ascii c in
  Nat.leb 9 n && Nat.leb n 13 || Nat.eqb n 32.

(** [c.trim() === ""] for ASCII content. *)
Fixpoint ascii_blank (c : string) : bool :=
  match c with
  | EmptyString => true
  | String a c' => ascii_white_space a && ascii_blank c'
  end.

End Queries.

Export Queries.

(** ** The helper visitors of visitor.ts *)

Module Helpers.

Section Constructors.
Context {U : Type}.


(** [createCollectorVisitor(nodeTest)]: the array [nodes] it exposes
    is a component of the state, empty at creation; the hook is
    [enterNode(node) { if (nodeTest(node)) nodes.push(node) }]. *)
Definition createCollectorVisitor (nodeTest : Callback U bool)
  : Visitor (U * list ref) :=
  mkVisitor None None None
    (Some (fun node h s =>
             match nodeTest node h (fst s) with
             | Returns b h' u' =>
                 Returns tt h' (u', if b then snd s ++ [node] else snd s)
             | Throws msg h' u' => Throws msg h' (u', snd s)
             end))
    None.

(** [createCounterVisitor()]: the record [counts] it exposes is a
    component of the state, all zero at creation; the three
    kind-specific hooks increment their field. *)
Definition createCounterVisitor : Visitor (U * NodeCounts) :=
  mkVisitor
    (Some (fun _ h s =>
             Returns tt h
               (fst s, mkCounts (S (document_count (snd s)))
                         (element_count (snd s)) (text_count (snd s)))))
    (Some (fun _ h s =>
             Returns tt h
               (fst s, mkCounts (document_count (snd s))
                         (S (element_count (snd s))) (text_count (snd s)))))
    (Some (fun _ h s =>
             Returns tt h
               (fst s, mkCounts (document_count (snd s))
                         (element_count (snd s)) (S (text_count (snd s))))))
    None None.

End Constructors.

End Helpers.

Export Helpers.

(** ** The tag registry of types.ts *)

Module Registry.

(** The string each member of [TamlTag] is. *)
Definition tag_name (t : TamlTag) : string :=
  match t with
  | black => "black" | red => "red" | green => "green"
  | yellow => "yellow" | blue => "blue" | magenta => "magenta"
  | cyan => "cyan" | white => "white"
  | brightBlack => "brightBlack" | brightRed => "brightRed"
  | brightGreen => "brightGreen" | brightYellow => "brightYellow"
  | brightBlue => "brightBlue" | brightMagenta => "brightMagenta"
  | brightCyan => "brightCyan" | brightWhite => "brightWhite"
  | bgBlack => "bgBlack" | bgRed => "bgRed" | bgGreen => "bgGreen"
  | bgYellow => "bgYellow" | bgBlue => "bgBlue"
  | bgMagenta => "bgMagenta" | bgCyan => "bgCyan" | bgWhite => "bgWhite"
  | bgBrightBlack => "bgBrightBlack" | bgBrightRed => "bgBrightRed"
  | bgBrightGreen => "bgBrightGreen" | bgBrightYellow => "bgBrightYellow"
  | bgBrightBlue => "bgBrightBlue" | bgBrightMagenta => "bgBrightMagenta"
  | bgBrightCyan => "bgBrightCyan" | bgBrightWhite => "bgBrightWhite"
  | bold => "bold" | dim => "dim" | italic => "italic"
  | underline => "underline" | strikethrough => "strikethrough"
  end.

Definition STANDARD_COLORS : list string :=
  ["black"; "red"; "green"; "yellow"; "blue"; "magenta"; "cyan"; "white"].

Definition BRIGHT_COLORS : list string :=
  ["brightBlack"; "brightRed"; "brightGreen"; "brightYellow";
   "brightBlue"; "brightMagenta"; "brightCyan"; "brightWhite"].

Definition BACKGROUND_COLORS : list string :=
  ["bgBlack"; "bgRed"; "bgGreen"; "bgYellow"; "bgBlue"; "bgMagenta";
   "bgCyan"; "bgWhite"; "bgBrightBlack"; "bgBrightRed"; "bgBrightGreen";
   "bgBrightYellow"; "bgBrightBlue"; "bgBrightMagenta"; "bgBrightCyan";
   "bgBrightWhite"].

Definition TEXT_STYLES : list string :=
  ["bold"; "dim"; "italic"; "underline"; "strikethrough"].

(** [new Set([...STANDARD_COLORS, ...BRIGHT_COLORS,
    ...BACKGROUND_COLORS, ...TEXT_STYLES])] *)
Definition VALID_TAGS : gset string :=
  list_to_set
    (STANDARD_COLORS ++ BRIGHT_COLORS ++ BACKGROUND_COLORS ++ TEXT_STYLES).

(** [array.includes(x)] for strings. *)
Definition includes (l : list string) (x : string) : bool :=
  bool_decide (x ∈ l).

(** [isValidTag(tag)]: [VALID_TAGS.has(tag)]. *)
Definition isValidTag (tag : string) : bool := bool_decide (tag ∈ VALID_TAGS).

Definition isStandardColor (tag : string) : bool :=
  includes STANDARD_COLORS tag.

Definition isBrightColor (tag : string) : bool :=
  includes BRIGHT_COLORS tag.

Definition isBackgroundColor (tag : string) : bool :=
  includes BACKGROUND_COLORS tag.

Definition isTextStyle (tag : string) : bool :=
  includes TEXT_STYLES tag.

End Registry.

Export Registry.

(** ** More specification vocabulary *)

Module Shapes.

(** Depth-first post-order: the children's trees in order, then the
    node. *)
Fixpoint postorder (t : Tree) : list ref :=
  match t with
  | T r ks => flat_map postorder ks ++ [r]
  end.

(** The nodes of a tree with their depth below a root at depth [d]. *)
Fixpoint depths (t : Tree) (d : nat) : list (ref * nat) :=
  match t with
  | T r ks => (r, d) :: flat_map (fun k => depths k (S d)) ks
  end.

(** Writing a sequence of entries into a map, in order. *)
Definition insert_all (l : list (ref * nat)) (m : gmap positive nat)
  : gmap positive nat :=
  foldl (fun m e => <[fst e := snd e]> m) m l.

(** A reference to a node of the given type. *)
Definition has_type (h : Heap) (ty : NodeType) (r : ref) : bool :=
  match h !! r with
  | Some n => bool_decide (type n = ty)
  | None => false
  end.

(** The number of nodes of each type in a sequence. *)
Definition tally (h : Heap) (l : list ref) : NodeCounts :=
  mkCounts (length (List.filter (has_type h document) l))
    (length (List.filter (has_type h element) l))
    (length (List.filter (has_type h text) l)).

(** The content of a node, if it is a text. *)
Definition text_parts (h : Heap) (r : ref) : list string :=
  match h !! r with
  | Some n => match data n with Text c => [c] | _ => [] end
  | None => []
  end.

(** The text of a tree: the content of a text node, the texts of the
    children's trees put together for a container. *)
Fixpoint all_text (h : Heap) (t : Tree) : string :=
  match t with
  | T r ks =>
      match h !! r with
      | Some n =>
          match data n with
          | Text c => c
          | _ => String.concat "" (map (all_text h) ks)
          end
      | None => ""
      end
  end.

(** The tag of a node, if it is an element. *)
Definition tag_of (h : Heap) (r : ref) : option TamlTag :=
  match h !! r with
  | Some n => match data n with Element tag _ => Some tag | _ => None end
  | None => None
  end.

#[global] Instance Hook_eq_dec : EqDecision Hook.
Proof. solve_decision. Defined.

(** An invocation of the given hook. *)
Definition is_hook (k : Hook) (c : Hook * ref) : bool :=
  bool_decide (fst c = k).

(** An invocation of one of the three kind-specific hooks. *)
Definition is_kind_hook (c : Hook * ref) : bool :=
  match fst c with
  | VisitDocument | VisitElement | VisitText => true
  | _ => false
  end.

(** Adding up two records of counts. *)
Definition add_counts (a b : NodeCounts) : NodeCounts :=
  mkCounts (document_count a + document_count b)
    (element_count a + element_count b) (text_count a + text_count b).



End Shapes.

Export Shapes.

(** ** Proofs *)

Section SequentialFacts.
Context {Σ : Type} `{HasHeap Σ}.

Lemma run_seq_app {X} (f : X -> M Σ unit) l1 l2 s :
  run_seq f (l1 ++ l2) s = (run_seq f l1 ;;; run_seq f l2) s.
Proof.
  revert s. induction l1 as [|x l1 IH]; intros s; simpl.
  - reflexivity.
  - unfold bind. destruct (f x s); try reflexivity.
    rewrite IH. reflexivity.
Qed.

Lemma run_seq_single {X} (f : X -> M Σ unit) x s :
  run_seq f [x] s = f x s.
Proof. simpl. unfold bind. by destruct (f x s) as [[] ?|? ?| |]. Qed.

Lemma run_seq_map {X Y} (g : X -> Y) (f : Y -> M Σ unit) l s :
  run_seq f (map g l) s = run_seq (fun x => f (g x)) l s.
Proof.
  revert s. induction l as [|x l IH]; intros s; simpl; [reflexivity|].
  unfold bind. destruct (f (g x) s); try reflexivity. apply IH.
Qed.

Lemma run_seq_flat_map {X Y} (g : X -> list Y) (f : Y -> M Σ unit) l s :
  run_seq f (flat_map g l) s = run_seq (fun x => run_seq f (g x)) l s.
Proof.
  revert s. induction l as [|x l IH]; intros s; simpl; [reflexivity|].
  rewrite run_seq_app. unfold bind.
  destruct (run_seq f (g x) s); try reflexivity. apply IH.
Qed.

Lemma same_heap_trans {A} s s' (r : Result Σ A) :
  heap_of s' = heap_of s -> same_heap s' r -> same_heap s r.
Proof. intros E. destruct r; simpl; congruence. Qed.

Lemma run_seq_stable {X} (f : X -> M Σ unit) l :
  (forall x s, In x l -> same_heap s (f x s)) ->
  forall s, same_heap s (run_seq f l s).
Proof.
  induction l as [|x l IH]; intros Hf s; simpl.
  - reflexivity.
  - unfold bind. pose proof (Hf x s (or_introl eq_refl)) as Hx.
    destruct (f x s) as [[] s1|e s1| |]; simpl in *; try done.
    eapply same_heap_trans; [exact Hx|].
    apply IH. intros. apply Hf. by right.
Qed.

(** Two bodies that agree on every state with the nodes of [s], the
    second leaving the nodes alone, run alike over a list. *)
Lemma run_seq_ext {X} (f g : X -> M Σ unit) l s :
  (forall x s', In x l -> heap_of s' = heap_of s ->
     f x s' = g x s' /\ same_heap s' (g x s')) ->
  run_seq f l s = run_seq g l s.
Proof.
  revert s. induction l as [|x l IH]; intros s Hfg; simpl; [reflexivity|].
  unfold bind. destruct (Hfg x s (or_introl eq_refl) eq_refl) as [-> Hs].
  destruct (g x s) as [[] s1|e s1| |]; simpl in *; try done.
  apply IH. intros y s' Hy Hs'. apply Hfg; [by right | congruence].
Qed.

(** The array iteration runs its body on the children in order, as
    long as the body leaves the nodes alone. *)
Lemma for_of_run_seq (body : ref -> M Σ unit) owner n cs :
  forall steps seen s,
    heap_of s !! owner = Some n ->
    children_list n = seen ++ cs ->
    length cs < steps ->
    (forall c s', In c cs -> heap_of s' = heap_of s ->
       same_heap s' (body c s')) ->
    for_of steps owner (length seen) body s = run_seq body cs s.
Proof.
  induction cs as [|c cs IH]; intros steps seen s Hn Hcs Hlen Hbody.
  - destruct steps; [simpl in Hlen; lia|]. simpl.
    unfold bind, read. rewrite Hn.
    rewrite Hcs, app_nil_r, lookup_ge_None_2 by lia. reflexivity.
  - destruct steps; [simpl in Hlen; lia|]. simpl.
    unfold bind at 1, read. rewrite Hn.
    assert (children_list n !! length seen = Some c) as ->.
    { rewrite Hcs. by rewrite list_lookup_middle. }
    unfold bind. pose proof (Hbody c s (or_introl eq_refl) eq_refl) as Hc.
    destruct (body c s) as [[] s1|e s1| |]; simpl in *; try done.
    replace (S (length seen)) with (length (seen ++ [c]))
      by (rewrite length_app; simpl; lia).
    apply IH.
    + congruence.
    + by rewrite <- app_assoc.
    + lia.
    + intros c' s' Hc' Hs'. apply Hbody; [by right | congruence].
Qed.

End SequentialFacts.

Lemma weight_kid k ks :
  In k ks -> S (weight k) <= list_sum (map (fun k => S (weight k)) ks).
Proof.
  induction ks as [|k' ks IH]; simpl; [done|].
  intros [->|Hk]; [lia|]. specialize (IH Hk). lia.
Qed.

Lemma weight_length ks :
  length ks <= list_sum (map (fun k => S (weight k)) ks).
Proof. induction ks; simpl; lia. Qed.

Lemma leaf_no_children n :
  isDocumentNode n || isElementNode n = false -> children_list n = [].
Proof.
  unfold isDocumentNode, isElementNode, children_list, children, type.
  destruct (data n); simpl; done.
Qed.

Lemma map_root_nil ks : [] = map root ks -> ks = [].
Proof. by destruct ks. Qed.

Section WalkFacts.
Context {Σ : Type} `{HasHeap Σ}.

(** [walk] calls the callback on the nodes of the tree in pre-order. *)
Lemma walk_run_seq (cb : ref -> M Σ unit) :
  heap_stable cb ->
  forall fuel t s,
    repr (heap_of s) t -> weight t <= fuel ->
    walk fuel (root t) cb s = run_seq cb (preorder t) s.
Proof.
  intros Hcb. induction fuel as [|fuel IH]; intros [r ks] s Hr Hw.
  { simpl in Hw. lia. }
  inversion Hr as [r' n ks' Hn Hcs Hks]; subst. simpl in Hw.
  simpl. unfold bind at 1 3. pose proof (Hcb r s) as Hs.
  destruct (cb r s) as [[] s1|e s1| |]; simpl in Hs; try done.
  unfold bind, read. rewrite Hs, Hn.
  destruct (isDocumentNode n || isElementNode n) eqn:Hc.
  - assert (Hkid : forall k s', In k ks -> heap_of s' = heap_of s1 ->
              walk fuel (root k) cb s' = run_seq cb (preorder k) s'
              /\ same_heap s' (run_seq cb (preorder k) s')).
    { intros k s' Hk Hs'. split.
      - apply IH.
        + rewrite Hs', Hs.
          by eapply Forall_forall in Hks; [|apply list_elem_of_In].
        + pose proof (weight_kid k ks Hk). lia.
      - apply run_seq_stable. intros; apply Hcb. }
    rewrite (for_of_run_seq _ r n (map root ks) fuel [] s1); try done.
    + rewrite run_seq_map, run_seq_flat_map.
      apply run_seq_ext. intros k s' Hk Hs'. by apply Hkid.
    + congruence.
    + rewrite length_map. pose proof (weight_length ks). lia.
    + intros c s' Hc' Hs'. apply in_map_iff in Hc' as (k & <- & Hk).
      destruct (Hkid k s' Hk Hs') as [-> ?]. done.
  - rewrite (leaf_no_children n Hc) in Hcs.
    apply map_root_nil in Hcs as ->. reflexivity.
Qed.

End WalkFacts.

Section FindFacts.
Context {Σ : Type} `{HasHeap Σ}.

Lemma findFirst_visit_stable (p : ref -> M Σ bool) :
  heap_stable p -> heap_stable (findFirst_visit p).
Proof.
  intros Hp r [s l]. unfold findFirst_visit, bind, lift; simpl.
  specialize (Hp r s).
  destruct (p r s) as [[] s1|e s1| |]; simpl in *; done.
Qed.

Lemma findAll_visit_stable (p : ref -> M Σ bool) :
  heap_stable p -> heap_stable (findAll_visit p).
Proof.
  intros Hp r [s l]. unfold findAll_visit, bind, lift; simpl.
  specialize (Hp r s).
  destruct (p r s) as [[] s1|e s1| |]; simpl in *; done.
Qed.

Lemma run_findFirst_visit (p : ref -> M Σ bool) l (s : Σ) :
  run_seq (findFirst_visit p) l (s, None : option ref) =
  match scan p l s with
  | Ok (Some x) s' => Throw Found (s', Some x)
  | Ok None s' => Ok tt (s', None)
  | Throw e s' => Throw e (s', None)
  | OutOfFuel => OutOfFuel
  | Stuck => Stuck
  end.
Proof.
  revert s. induction l as [|x l IH]; intros s; simpl; [reflexivity|].
  unfold findFirst_visit, bind, lift; simpl.
  destruct (p x s) as [[] s1|e s1| |]; try reflexivity.
  apply IH.
Qed.

Lemma run_findAll_visit (p : ref -> M Σ bool) l (s : Σ) acc :
  with_local acc (run_seq (findAll_visit p) l ;;; get_local) s =
  match collect p l s with
  | Ok res s' => Ok (acc ++ res) s'
  | Throw e s' => Throw e s'
  | OutOfFuel => OutOfFuel
  | Stuck => Stuck
  end.
Proof.
  revert s acc. induction l as [|x l IH]; intros s acc; simpl.
  - unfold with_local, bind, ret, get_local; simpl. by rewrite app_nil_r.
  - specialize (IH). unfold with_local, findAll_visit, bind, lift in *; simpl.
    destruct (p x s) as [[] s1|e s1| |]; try reflexivity; simpl.
    + rewrite (IH s1 (acc ++ [x])).
      destruct (collect p l s1); try reflexivity.
      unfold ret. by rewrite <- app_assoc.
    + rewrite (IH s1 acc).
      by destruct (collect p l s1).
Qed.

(** [findFirst] is a search of the pre-order that stops at the first
    match, with every exception swallowed. *)
Lemma findFirst_scan (p : ref -> M Σ bool) fuel t s :
  heap_stable p -> repr (heap_of s) t -> weight t <= fuel ->
  findFirst fuel (root t) p s =
  match scan p (preorder t) s with
  | Throw _ s' => Ok None s'
  | r => r
  end.
Proof.
  intros Hp Hr Hw. unfold findFirst.
  unfold with_local, bind, try_catch.
  rewrite (walk_run_seq (findFirst_visit p) (findFirst_visit_stable p Hp)
             fuel t (s, None) Hr Hw).
  rewrite run_findFirst_visit.
  destruct (scan p (preorder t) s) as [[x|] s1|e s1| |]; reflexivity.
Qed.

(** [findAll] collects the matches of the pre-order. *)
Lemma findAll_collect (p : ref -> M Σ bool) fuel t s :
  heap_stable p -> repr (heap_of s) t -> weight t <= fuel ->
  findAll fuel (root t) p s = collect p (preorder t) s.
Proof.
  intros Hp Hr Hw.
  pose proof (run_findAll_visit p (preorder t) s []) as Hrun.
  unfold findAll.
  unfold with_local, bind in *.
  rewrite (walk_run_seq (findAll_visit p) (findAll_visit_stable p Hp)
             fuel t (s, []) Hr Hw).
  rewrite Hrun. by destruct (collect p (preorder t) s).
Qed.

End FindFacts.

Section PredicateFacts.
Context {U : Type}.
Implicit Types (w : World U) (q : ref -> Heap -> U -> bool).

Lemma record_nil w : record w [] = w.
Proof. destruct w. unfold record; simpl. by rewrite app_nil_r. Qed.

Lemma record_record w l1 l2 : record (record w l1) l2 = record w (l1 ++ l2).
Proof. unfold record; simpl. by rewrite app_assoc. Qed.

Lemma invoke_pure q x w :
  invoke Predicate (pure_predicate q) x w =
  Ok (q x (nodes w) (user w)) (record w [(Predicate, x)]).
Proof. reflexivity. Qed.

Lemma invoke_pure_stable q :
  heap_stable (invoke Predicate (pure_predicate q)).
Proof. intros x w. reflexivity. Qed.

Lemma scan_pure_none q l w :
  Forall (fun r => q r (nodes w) (user w) = false) l ->
  scan (invoke Predicate (pure_predicate q)) l w =
  Ok None (record w (map (pair Predicate) l)).
Proof.
  revert w. induction l as [|x l IH]; intros w Hl; simpl.
  - by rewrite record_nil.
  - inversion Hl as [|? ? Hx Hl']; subst.
    unfold bind. rewrite invoke_pure, Hx.
    rewrite (IH (record w [(Predicate, x)])); [|exact Hl'].
    by rewrite record_record.
Qed.

Lemma scan_pure_some q pre x post w :
  Forall (fun r => q r (nodes w) (user w) = false) pre ->
  q x (nodes w) (user w) = true ->
  scan (invoke Predicate (pure_predicate q)) (pre ++ x :: post) w =
  Ok (Some x) (record w (map (pair Predicate) (pre ++ [x]))).
Proof.
  revert w. induction pre as [|y pre IH]; intros w Hpre Hx; simpl.
  - unfold bind. by rewrite invoke_pure, Hx.
  - inversion Hpre as [|? ? Hy Hpre']; subst.
    unfold bind. rewrite invoke_pure, Hy.
    rewrite (IH (record w [(Predicate, y)])); [|exact Hpre'|exact Hx].
    by rewrite record_record.
Qed.

Lemma collect_pure q l w :
  collect (invoke Predicate (pure_predicate q)) l w =
  Ok (List.filter (fun r => q r (nodes w) (user w)) l)
     (record w (map (pair Predicate) l)).
Proof.
  revert w. induction l as [|x l IH]; intros w; simpl.
  - unfold ret. by rewrite record_nil.
  - unfold bind. rewrite invoke_pure.
    rewrite (IH (record w [(Predicate, x)])). simpl.
    unfold ret. rewrite record_record. simpl.
    by destruct (q x (nodes w) (user w)).
Qed.

Lemma filter_none (f : ref -> bool) l :
  Forall (fun r => f r = false) l -> List.filter f l = [].
Proof.
  induction 1 as [|x l Hx _ IH]; simpl; [done|]. by rewrite Hx.
Qed.

Lemma filter_first (f : ref -> bool) pre x post :
  Forall (fun r => f r = false) pre -> f x = true ->
  List.filter f (pre ++ x :: post) = x :: List.filter f post.
Proof.
  intros Hpre Hx. rewrite List.filter_app, (filter_none f pre Hpre).
  simpl. by rewrite Hx.
Qed.

Lemma first_split (f : ref -> bool) l :
  Forall (fun r => f r = false) l \/
  exists pre x post, l = pre ++ x :: post /\
    Forall (fun r => f r = false) pre /\ f x = true.
Proof.
  induction l as [|y l IH]; [by left|].
  destruct (f y) eqn:Hy.
  - right. exists [], y, l. by repeat split.
  - destruct IH as [IH|(pre & x & post & -> & Hpre & Hx)].
    + left. by constructor.
    + right. exists (y :: pre), x, post. repeat split; [|done].
      by constructor.
Qed.

End PredicateFacts.

(** C3: [findFirst] returns the first node of the depth-first pre-order
    for which the predicate holds, which is the first element of
    [findAll], and the absent result when no node matches; the predicate
    is applied to the nodes up to and including the match and to no node
    after it. *)
Theorem findFirst_first_match {U : Type} (q : ref -> Heap -> U -> bool)
    (w : World U) (t : Tree) (fuel : nat) :
  repr (nodes w) t -> weight t <= fuel ->
  let p := invoke Predicate (pure_predicate q) in
  let holds := fun r => q r (nodes w) (user w) in
  findAll fuel (root t) p w =
    Ok (List.filter holds (preorder t))
       (record w (map (pair Predicate) (preorder t)))
  /\ (exists w', findFirst fuel (root t) p w =
        Ok (head (List.filter holds (preorder t))) w')
  /\ (Forall (fun r => holds r = false) (preorder t) ->
      findFirst fuel (root t) p w =
        Ok None (record w (map (pair Predicate) (preorder t))))
  /\ (forall pre x post,
        preorder t = pre ++ x :: post ->
        Forall (fun r => holds r = false) pre -> holds x = true ->
        findFirst fuel (root t) p w =
          Ok (Some x) (record w (map (pair Predicate) (pre ++ [x])))).
Proof.
  intros Hr Hw p holds.
  assert (Hnone : Forall (fun r => holds r = false) (preorder t) ->
            findFirst fuel (root t) p w =
            Ok None (record w (map (pair Predicate) (preorder t)))).
  { intros Hall. unfold p.
    rewrite findFirst_scan; [|apply invoke_pure_stable|exact Hr|exact Hw].
    by rewrite scan_pure_none. }
  assert (Hsome : forall pre x post,
            preorder t = pre ++ x :: post ->
            Forall (fun r => holds r = false) pre -> holds x = true ->
            findFirst fuel (root t) p w =
            Ok (Some x) (record w (map (pair Predicate) (pre ++ [x])))).
  { intros pre x post Hl Hpre Hx. unfold p.
    rewrite findFirst_scan; [|apply invoke_pure_stable|exact Hr|exact Hw].
    rewrite Hl. by rewrite scan_pure_some. }
  split; [|split; [|split]]; try done.
  - unfold p.
    rewrite findAll_collect; [|apply invoke_pure_stable|exact Hr|exact Hw].
    apply collect_pure.
  - destruct (first_split holds (preorder t))
      as [Hall|(pre & x & post & Hl & Hpre & Hx)].
    + rewrite (filter_none holds _ Hall). eexists. by apply Hnone.
    + assert (List.filter holds (preorder t) = x :: List.filter holds post)
        as -> by (rewrite Hl; by apply filter_first).
      eexists. by eapply Hsome.
Qed.

(** C10: [findFirst] never lets an exception out; when the predicate
    throws on a node reached before any match, the result is the absent
    one, as it is when the predicate rejects every node. *)
Theorem findFirst_swallows_exceptions {Σ : Type} `{HasHeap Σ}
    (p : ref -> M Σ bool) (fuel : nat) (s : Σ) :
  (forall node e s', findFirst fuel node p s <> Throw e s')
  /\ (forall t pre x post s1 e s2,
        heap_stable p -> repr (heap_of s) t -> weight t <= fuel ->
        preorder t = pre ++ x :: post ->
        rejects p pre s s1 -> p x s1 = Throw e s2 ->
        findFirst fuel (root t) p s = Ok None s2)
  /\ (forall t s1,
        heap_stable p -> repr (heap_of s) t -> weight t <= fuel ->
        rejects p (preorder t) s s1 ->
        findFirst fuel (root t) p s = Ok None s1).
Proof.
  split; [|split].
  - intros node e s'. unfold findFirst, with_local, bind, try_catch.
    destruct (walk _ _ _ _); discriminate.
  - intros t pre x post s1 e s2 Hp Hr Hw Hl Hpre Hx.
    rewrite findFirst_scan by done. rewrite Hl. clear Hl Hr.
    induction Hpre as [s0|y l s0 s0' s1 Hy _ IH]; simpl; unfold bind.
    + by rewrite Hx.
    + rewrite Hy. by apply IH.
  - intros t s1 Hp Hr Hw Hall.
    rewrite findFirst_scan by done. clear Hr.
    induction Hall as [s0|y l s0 s0' s1 Hy _ IH]; simpl; unfold bind.
    + reflexivity.
    + rewrite Hy. by apply IH.
Qed.

Lemma node_kind_tests n :
  match data n with
  | Document _ => isDocumentNode n = true
  | Element _ _ => isDocumentNode n = false /\ isElementNode n = true
  | Text _ =>
      isDocumentNode n = false /\ isElementNode n = false
      /\ isTextNode n = true
  end.
Proof.
  unfold isDocumentNode, isElementNode, isTextNode, type.
  destruct (data n); repeat split; reflexivity.
Qed.

Section VisitFacts.
Context {U : Type}.
Implicit Types (w : World U) (v : Visitor U).

Lemma invoke_stable {T} k (cb : Callback U T) :
  keeps_nodes cb -> heap_stable (invoke k cb).
Proof.
  intros Hcb r w. unfold invoke. specialize (Hcb r (nodes w) (user w)).
  destruct (cb r (nodes w) (user w)); simpl; done.
Qed.

Lemma fire_stable v : visitor_keeps_nodes v -> heap_stable (fire v).
Proof.
  intros Hv [k r] w. unfold fire, invoke_opt; simpl.
  destruct (hook_of v k) as [cb|] eqn:Hk; [|reflexivity].
  by apply invoke_stable, (Hv k).
Qed.

Lemma visit_run_seq v :
  visitor_keeps_nodes v ->
  forall fuel t w,
    repr (nodes w) t -> weight t <= fuel ->
    visit fuel (root t) v w = run_seq (fire v) (hook_sequence (nodes w) t) w.
Proof.
  intros Hv. pose proof (fire_stable v Hv) as Hfire.
  induction fuel as [|fuel IH]; intros [r ks] w Hr Hw.
  { simpl in Hw. lia. }
  inversion Hr as [r' n ks' Hn Hcs Hks]; subst. simpl in Hw.
  cbn [visit hook_sequence root run_seq]. rewrite Hn.
  cbn [app run_seq].
  unfold bind. change (invoke_opt EnterNode (enterNode v) r w)
    with (fire v (EnterNode, r) w).
  pose proof (Hfire (EnterNode, r) w) as Hs.
  destruct (fire v (EnterNode, r) w) as [[] w1|e w1| |]; simpl in Hs;
    try done.
  change (heap_of w1) with (nodes w1) in Hs.
  change (heap_of w) with (nodes w) in Hs.
  unfold read. change (heap_of w1) with (nodes w1).
  rewrite Hs, Hn.
  assert (Hkids : forall w2, nodes w2 = nodes w ->
            for_of fuel r 0 (fun child => visit fuel child v) w2 =
            run_seq (fire v) (flat_map (hook_sequence (nodes w)) ks) w2).
  { intros w2 Hw2.
    assert (Hkid : forall k w', In k ks -> heap_of w' = heap_of w2 ->
              visit fuel (root k) v w' =
                run_seq (fire v) (hook_sequence (nodes w) k) w'
              /\ same_heap w'
                   (run_seq (fire v) (hook_sequence (nodes w) k) w')).
    { intros k w' Hk Hw'. change (nodes w' = nodes w2) in Hw'. split.
      - replace (nodes w) with (nodes w') by congruence. apply IH.
        + replace (nodes w') with (nodes w) by congruence.
          by eapply Forall_forall in Hks; [|apply list_elem_of_In].
        + pose proof (weight_kid k ks Hk). lia.
      - apply run_seq_stable. intros; apply Hfire. }
    rewrite (for_of_run_seq _ r n (map root ks) fuel [] w2); try done.
    + rewrite run_seq_map, run_seq_flat_map.
      apply run_seq_ext. intros k w' Hk Hw'. by apply Hkid.
    + change (nodes w2 !! r = Some n). congruence.
    + rewrite length_map. pose proof (weight_length ks). lia.
    + intros c w' Hc' Hw'. apply in_map_iff in Hc' as (k & <- & Hk).
      destruct (Hkid k w' Hk Hw') as [-> ?]. done. }
  pose proof (node_kind_tests n) as Hkind.
  destruct (data n) as [cs|tag cs|c] eqn:Hd.
  - rewrite Hkind. unfold type. rewrite Hd. cbn [kind_hook].
    change (invoke_opt VisitDocument (visitDocument v) r w1)
      with (fire v (VisitDocument, r) w1).
    pose proof (Hfire (VisitDocument, r) w1) as Hs2.
    destruct (fire v (VisitDocument, r) w1) as [[] w2|e w2| |];
      simpl in Hs2; try done.
    change (nodes w2 = nodes w1) in Hs2.
    rewrite Hkids by congruence.
    rewrite run_seq_app. unfold bind.
    destruct (run_seq _ _ w2) as [[] w3|e w3| |]; try done.
    by rewrite run_seq_single.
  - destruct Hkind as [-> ->]. unfold type. rewrite Hd. cbn [kind_hook].
    change (invoke_opt VisitElement (visitElement v) r w1)
      with (fire v (VisitElement, r) w1).
    pose proof (Hfire (VisitElement, r) w1) as Hs2.
    destruct (fire v (VisitElement, r) w1) as [[] w2|e w2| |];
      simpl in Hs2; try done.
    change (nodes w2 = nodes w1) in Hs2.
    rewrite Hkids by congruence.
    rewrite run_seq_app. unfold bind.
    destruct (run_seq _ _ w2) as [[] w3|e w3| |]; try done.
    by rewrite run_seq_single.
  - assert (ks = []) as ->.
    { apply map_root_nil. rewrite <- Hcs.
      unfold children_list, children. by rewrite Hd. }
    destruct Hkind as (-> & -> & ->). unfold type. rewrite Hd.
    cbn [kind_hook flat_map app run_seq]. unfold bind.
    change (invoke_opt VisitText (visitText v) r w1)
      with (fire v (VisitText, r) w1).
    destruct (fire v (VisitText, r) w1) as [[] w2|e w2| |]; try done.
    change (invoke_opt ExitNode (exitNode v) r w2)
      with (fire v (ExitNode, r) w2).
    by destruct (fire v (ExitNode, r) w2) as [[] ?|? ?| |].
Qed.

(** The invocations recorded by a run of the sequence that completes
    are those of the registered hooks, in order. *)
Lemma run_fire_calls v l :
  forall w w', run_seq (fire v) l w = Ok tt w' ->
    calls w' = calls w ++ List.filter (registered v) l.
Proof.
  induction l as [|[k r] l IH]; intros w w' Hrun; simpl in *.
  - inversion Hrun; subst. by rewrite app_nil_r.
  - unfold bind, fire, invoke_opt, registered in *; simpl in *.
    destruct (hook_of v k) as [cb|] eqn:Hk.
    + rewrite bool_decide_eq_true_2 by eauto. unfold invoke in Hrun.
      destruct (cb r (nodes w) (user w)); [|done].
      apply IH in Hrun. simpl in Hrun. rewrite Hrun.
      by rewrite <- app_assoc.
    + rewrite bool_decide_eq_false_2 by (intros [? ?]; done).
      by apply IH.
Qed.

Lemma run_fire_returns v l :
  visitor_never_throws v ->
  forall w, exists w', run_seq (fire v) l w = Ok tt w'.
Proof.
  intros Hv. induction l as [|[k r] l IH]; intros w; simpl.
  - by eexists.
  - unfold bind, fire, invoke_opt; simpl.
    destruct (hook_of v k) as [cb|] eqn:Hk; [|apply IH].
    unfold invoke. pose proof (Hv k cb Hk r (nodes w) (user w)) as Hcb.
    destruct (cb r (nodes w) (user w)) as [[] h u|]; [apply IH|done].
Qed.

End VisitFacts.

(** C2: [visit] makes the hook invocations of the tree in order: the
    enter hook, the hook of the node's kind, the visit of each child in
    children order (a text node has none), the exit hook; a hook the
    visitor does not register is skipped, without error. *)
Theorem visit_hook_sequence {U : Type} (v : Visitor U) (w : World U)
    (t : Tree) (fuel : nat) :
  visitor_keeps_nodes v ->
  repr (nodes w) t -> weight t <= fuel ->
  visit fuel (root t) v w = run_seq (fire v) (hook_sequence (nodes w) t) w
  /\ (forall w', visit fuel (root t) v w = Ok tt w' ->
        calls w' = calls w
                   ++ List.filter (registered v) (hook_sequence (nodes w) t))
  /\ (visitor_never_throws v ->
      exists w', visit fuel (root t) v w = Ok tt w').
Proof.
  intros Hv Hr Hw.
  pose proof (visit_run_seq v Hv fuel t w Hr Hw) as Heq.
  split; [exact Heq|split].
  - intros w' Hrun. rewrite Heq in Hrun. by apply run_fire_calls.
  - intros Hnt. rewrite Heq. by apply run_fire_returns.
Qed.

Section TransformFacts.
Context {U T : Type}.
Implicit Types (w : World U) (tr : Transformer U T).

Lemma transform_registered tr w node n f :
  nodes w !! node = Some n -> handler tr (type n) = Some f ->
  transform node tr w = invoke (kind_hook (type n)) f node w.
Proof.
  intros Hn Hf. unfold transform, bind, read.
  change (heap_of w) with (nodes w). rewrite Hn.
  pose proof (node_kind_tests n) as Hk. unfold type in *.
  destruct (data n); simpl in Hf.
  - rewrite Hk, Hf. reflexivity.
  - destruct Hk as [-> ->]. rewrite Hf. reflexivity.
  - destruct Hk as (-> & -> & ->). rewrite Hf. reflexivity.
Qed.

Lemma transform_missing tr w node n :
  nodes w !! node = Some n -> handler tr (type n) = None ->
  transform node tr w = Throw (DispatchError (type n)) w.
Proof.
  intros Hn Hf. unfold transform, bind, read.
  change (heap_of w) with (nodes w). rewrite Hn.
  pose proof (node_kind_tests n) as Hk. unfold type in *.
  destruct (data n); simpl in Hf.
  - rewrite Hk, Hf. reflexivity.
  - destruct Hk as [-> ->]. rewrite Hf. reflexivity.
  - destruct Hk as (-> & -> & ->). rewrite Hf. reflexivity.
Qed.

Lemma invoke_calls k (f : Callback U T) node w :
  match invoke k f node w with
  | Ok _ w' => calls w' = calls w ++ [(k, node)]
  | Throw e w' =>
      calls w' = calls w ++ [(k, node)] /\ exists msg, e = Raised msg
  | _ => False
  end.
Proof.
  unfold invoke. destruct (f node (nodes w) (user w)); simpl; eauto.
Qed.

End TransformFacts.

(** C1: [transform] calls the one callback registered for the node's
    kind, on the node itself and on nothing else, and returns what the
    callback returns; it raises a DispatchError exactly when no callback
    is registered for the kind, as for a text node and a transformer
    without text callback. *)
Theorem transform_dispatch {U T : Type} (tr : Transformer U T) (w : World U)
    (node : ref) (n : TamlNode) :
  nodes w !! node = Some n ->
  (forall f, handler tr (type n) = Some f ->
     transform node tr w = invoke (kind_hook (type n)) f node w
     /\ match transform node tr w with
        | Ok _ w' => calls w' = calls w ++ [(kind_hook (type n), node)]
        | Throw _ w' => calls w' = calls w ++ [(kind_hook (type n), node)]
        | _ => False
        end)
  /\ ((exists t w', transform node tr w = Throw (DispatchError t) w')
      <-> handler tr (type n) = None)
  /\ (handler tr (type n) = None ->
      transform node tr w = Throw (DispatchError (type n)) w)
  /\ (type n = text -> transformText tr = None ->
      transform node tr w = Throw (DispatchError text) w).
Proof.
  intros Hn. split; [|split; [|split]].
  - intros f Hf. rewrite (transform_registered tr w node n f Hn Hf).
    split; [reflexivity|].
    pose proof (invoke_calls (kind_hook (type n)) f node w) as Hc.
    destruct (invoke _ f node w); try done. by destruct Hc.
  - split.
    + intros (t & w' & Ht).
      destruct (handler tr (type n)) as [f|] eqn:Hf; [|reflexivity].
      rewrite (transform_registered tr w node n f Hn Hf) in Ht.
      pose proof (invoke_calls (kind_hook (type n)) f node w) as Hc.
      rewrite Ht in Hc. destruct Hc as [_ [msg Hmsg]]. discriminate.
    + intros Hf. exists (type n), w. by apply transform_missing.
  - by apply transform_missing.
  - intros Ht Hf. rewrite <- Ht. apply transform_missing; [done|].
    by rewrite Ht.
Qed.

Section ChainFacts.
Implicit Types (h : Heap) (l : list ref).

Lemma chain_nonempty h r l : chain h r l -> exists l', l = r :: l'.
Proof. destruct 1; eauto. Qed.

Lemma chain_functional h r l1 l2 : chain h r l1 -> chain h r l2 -> l1 = l2.
Proof.
  intros H1. revert l2.
  induction H1 as [r n Hn Hp|r n p l Hn Hp _ IH]; intros l2 H2;
    inversion H2; subst; try congruence.
  f_equal. apply IH. congruence.
Qed.

Lemma climb_chain h r l :
  chain h r l ->
  forall fuel, length l <= fuel ->
    exists top, last l = Some top /\ climb fuel r h = Ok top h.
Proof.
  induction 1 as [r n Hn Hp|r n p l Hn Hp Hl IH]; intros fuel Hfuel;
    (destruct fuel as [|fuel]; [simpl in Hfuel; lia|]);
    simpl; unfold bind, read; change (heap_of h) with h; rewrite Hn, Hp.
  - by exists r.
  - destruct (IH fuel) as (top & Hlast & Hclimb); [simpl in Hfuel; lia|].
    exists top. split; [|done].
    destruct (chain_nonempty _ _ _ Hl) as [l' ->]. done.
Qed.

Lemma chain_last h r l top :
  chain h r l -> last l = Some top ->
  exists n, h !! top = Some n /\ parent n = None.
Proof.
  induction 1 as [r n Hn Hp|r n p l Hn Hp Hl IH]; intros Hlast.
  - inversion Hlast; subst. eauto.
  - apply IH. destruct (chain_nonempty _ _ _ Hl) as [l' ->]. done.
Qed.

End ChainFacts.

(** C4: [getRoot] climbs the [parent] links to the node that has no
    parent and returns it when it is a document; it raises the
    StructuralError exactly when that node is not a document; the nodes
    are left as they were either way. *)
Theorem getRoot_top (h : Heap) (node top : ref) (l : list ref)
    (n : TamlNode) (fuel : nat) :
  chain h node l -> last l = Some top -> h !! top = Some n ->
  length l <= fuel ->
  parent n = None
  /\ (type n = document -> getRoot fuel node h = Ok top h)
  /\ (type n <> document -> getRoot fuel node h = Throw StructuralError h)
  /\ ((exists e h', getRoot fuel node h = Throw e h') <-> type n <> document)
  /\ (forall x h', getRoot fuel node h = Ok x h' -> x = top /\ h' = h).
Proof.
  intros Hc Hlast Hn Hfuel.
  destruct (chain_last h node l top Hc Hlast) as (n' & Hn' & Hp).
  assert (n' = n) as -> by congruence.
  destruct (climb_chain h node l Hc fuel Hfuel) as (top' & Hlast' & Hclimb).
  assert (top' = top) as -> by congruence.
  assert (Hdoc : type n = document -> getRoot fuel node h = Ok top h).
  { intros Ht. unfold getRoot, bind, read. rewrite Hclimb.
    change (heap_of h) with h. rewrite Hn.
    unfold isDocumentNode. by rewrite bool_decide_eq_true_2. }
  assert (Herr : type n <> document ->
                 getRoot fuel node h = Throw StructuralError h).
  { intros Ht. unfold getRoot, bind, read. rewrite Hclimb.
    change (heap_of h) with h. rewrite Hn.
    unfold isDocumentNode. by rewrite bool_decide_eq_false_2. }
  split; [exact Hp|]. split; [exact Hdoc|]. split; [exact Herr|]. split.
  - split.
    + intros (e & h' & Hthrow) Ht. rewrite (Hdoc Ht) in Hthrow. discriminate.
    + intros Ht. eexists _, _. by apply Herr.
  - intros x h'.
    destruct (decide (type n = document)) as [Ht|Ht];
      [rewrite (Hdoc Ht)|rewrite (Herr Ht)]; intros Hx; by inversion Hx.
Qed.

Section ArrayFacts.

Lemma indexOf_absent (l : list ref) x : x ∉ l -> indexOf l x = None.
Proof.
  induction l as [|y l IH]; intros Hx; simpl; [done|].
  apply not_elem_of_cons in Hx as [Hne Hx].
  rewrite decide_False by done. by rewrite IH.
Qed.

Lemma indexOf_first (l1 l2 : list ref) x :
  x ∉ l1 -> indexOf (l1 ++ x :: l2) x = Some (length l1).
Proof.
  induction l1 as [|y l1 IH]; intros Hx; simpl.
  - by rewrite decide_True.
  - apply not_elem_of_cons in Hx as [Hne Hx].
    rewrite decide_False by done. by rewrite IH.
Qed.

Lemma delete_middle (l1 l2 : list ref) x :
  delete (length l1) (l1 ++ x :: l2) = l1 ++ l2.
Proof. induction l1 as [|y l1 IH]; simpl; [done|]. by rewrite IH. Qed.

Lemma container_children n cs :
  children n = Some cs ->
  isDocumentNode n || isElementNode n = true /\ children_list n = cs.
Proof.
  unfold children_list, children. pose proof (node_kind_tests n) as Hk.
  destruct (data n); intros [= <-].
  - by rewrite Hk.
  - by destruct Hk as [-> ->].
Qed.

Lemma text_children n :
  children n = None -> isDocumentNode n || isElementNode n = false.
Proof.
  unfold children. pose proof (node_kind_tests n) as Hk.
  destruct (data n); intros [=]. by destruct Hk as (-> & -> & _).
Qed.

Lemma children_map_children f n cs :
  children n = Some cs -> children (map_children f n) = Some (f cs).
Proof.
  unfold children, map_children. destruct (data n); simpl; congruence.
Qed.

End ArrayFacts.

(** C5: [removeChild] never raises.  It changes nothing when the child
    has no parent, when the parent is not a document or element, and
    when the parent's children do not hold the child; otherwise it takes
    the first occurrence of the child out of the parent's children and
    clears the child's [parent], and nothing else changes. *)
Theorem removeChild_detaches (h : Heap) (child : ref) (c : TamlNode) :
  h !! child = Some c ->
  (parent c = None -> removeChild child h = Ok tt h)
  /\ (forall p pn, parent c = Some p -> h !! p = Some pn ->
        (children pn = None -> removeChild child h = Ok tt h)
        /\ (forall cs, children pn = Some cs -> child ∉ cs ->
              removeChild child h = Ok tt h)
        /\ (forall l1 l2,
              children pn = Some (l1 ++ child :: l2) -> child ∉ l1 ->
              let h' := alter (set_parent None) child
                          (<[p := map_children (fun _ => l1 ++ l2) pn]> h) in
              removeChild child h = Ok tt h'
              /\ (forall r, r <> child -> r <> p -> h' !! r = h !! r)
              /\ (exists pn', h' !! p = Some pn'
                    /\ children pn' = Some (l1 ++ l2)
                    /\ type pn' = type pn
                    /\ start pn' = start pn /\ end_ pn' = end_ pn
                    /\ (p <> child -> parent pn' = parent pn))
              /\ (exists c', h' !! child = Some c'
                    /\ parent c' = None
                    /\ type c' = type c
                    /\ start c' = start c /\ end_ c' = end_ c
                    /\ (child <> p -> data c' = data c))))
  /\ ((forall p, parent c = Some p -> is_Some (h !! p)) ->
      exists h', removeChild child h = Ok tt h').
Proof.
  intros Hc.
  assert (Hnone : parent c = None -> removeChild child h = Ok tt h).
  { intros Hp. unfold removeChild, bind, read, heap_of, Heap_HasHeap.
    by rewrite Hc, Hp. }
  assert (Htext : forall p pn, parent c = Some p -> h !! p = Some pn ->
            children pn = None -> removeChild child h = Ok tt h).
  { intros p pn Hp Hpn Hcs.
    unfold removeChild, bind, read, heap_of, Heap_HasHeap.
    rewrite Hc, Hp, Hpn.
    by rewrite (text_children pn Hcs). }
  assert (Habsent : forall p pn cs, parent c = Some p -> h !! p = Some pn ->
            children pn = Some cs -> child ∉ cs ->
            removeChild child h = Ok tt h).
  { intros p pn cs Hp Hpn Hcs Hni.
    unfold removeChild, bind, read, heap_of, Heap_HasHeap.
    rewrite Hc, Hp, Hpn.
    destruct (container_children pn cs Hcs) as [-> ->].
    by rewrite indexOf_absent. }
  assert (Hfound : forall p pn l1 l2, parent c = Some p -> h !! p = Some pn ->
            children pn = Some (l1 ++ child :: l2) -> child ∉ l1 ->
            removeChild child h =
            Ok tt (alter (set_parent None) child
                     (<[p := map_children (fun _ => l1 ++ l2) pn]> h))).
  { intros p pn l1 l2 Hp Hpn Hcs Hni.
    unfold removeChild, bind, read, heap_of, Heap_HasHeap.
    rewrite Hc, Hp, Hpn.
    destruct (container_children pn _ Hcs) as [-> ->].
    rewrite indexOf_first by done.
    unfold modify, update_children. rewrite Hpn, Hcs.
    assert (map_children (delete (length l1)) pn
            = map_children (fun _ => l1 ++ l2) pn) as ->.
    { unfold map_children, children in *.
      destruct (data pn); inversion Hcs; subst; try done;
        by rewrite delete_middle. }
    destruct (decide (p = child)) as [->|Hne].
    - rewrite lookup_insert_eq. f_equal.
      apply map_eq. intros r. destruct (decide (r = child)) as [->|Hr].
      + by rewrite lookup_insert_eq, lookup_alter_eq, lookup_insert_eq.
      + by rewrite lookup_insert_ne, lookup_alter_ne by done.
    - rewrite lookup_insert_ne, Hc by done. f_equal.
      apply map_eq. intros r. destruct (decide (r = child)) as [->|Hr].
      + by rewrite lookup_insert_eq, lookup_alter_eq, lookup_insert_ne, Hc.
      + by rewrite lookup_insert_ne, lookup_alter_ne by done. }
  split; [exact Hnone|]. split.
  - intros p pn Hp Hpn. split; [by apply (Htext p pn)|]. split.
    { intros cs. by apply (Habsent p pn). }
    intros l1 l2 Hcs Hni h'. split; [by apply Hfound|]. split; [|split].
    + intros r Hr1 Hr2. unfold h'.
      rewrite lookup_alter_ne, lookup_insert_ne; done.
    + destruct (decide (p = child)) as [->|Hne].
      * exists (set_parent None (map_children (fun _ => l1 ++ l2) pn)).
        unfold h'. rewrite lookup_alter_eq, lookup_insert_eq. simpl.
        split; [done|].
        unfold children, type, map_children, set_parent in *.
        destruct (data pn); inversion Hcs; subst; simpl; done.
      * exists (map_children (fun _ => l1 ++ l2) pn).
        unfold h'. rewrite lookup_alter_ne, lookup_insert_eq by done.
        split; [done|].
        unfold children, type, map_children in *.
        destruct (data pn); inversion Hcs; subst; simpl; done.
    + destruct (decide (p = child)) as [->|Hne].
      * assert (pn = c) as -> by congruence.
        exists (set_parent None (map_children (fun _ => l1 ++ l2) c)).
        unfold h'. rewrite lookup_alter_eq, lookup_insert_eq. simpl.
        split; [done|].
        unfold children, type, map_children, set_parent in *.
        destruct (data c); inversion Hcs; subst; simpl; done.
      * exists (set_parent None c).
        unfold h'. rewrite lookup_alter_eq, lookup_insert_ne, Hc by done.
        simpl. done.
  - intros Hclosed. destruct (parent c) as [p|] eqn:Hp; [|by eexists; eauto].
    destruct (Hclosed p eq_refl) as [pn Hpn].
    destruct (children pn) as [cs|] eqn:Hcs; [|by eexists; eapply Htext].
    destruct (decide (child ∈ cs)) as [Hin|Hni];
      [|by eexists; eapply Habsent].
    apply list_elem_of_split_l in Hin as (l1 & l2 & -> & Hni).
    eexists. by eapply Hfound.
Qed.

Lemma filter_remove (node : ref) (cs : list ref) :
  List.filter (fun child => negb (bool_decide (child = node))) cs
  = List.remove Pos.eq_dec node cs.
Proof.
  induction cs as [|c cs IH]; simpl; [done|].
  destruct (Pos.eq_dec node c) as [->|Hne].
  - by rewrite bool_decide_eq_true_2.
  - rewrite bool_decide_eq_false_2 by congruence. simpl. by rewrite IH.
Qed.

(** C9: [getSiblings] returns the parent's children without any
    occurrence of the node, in their order, so the node itself is never
    among them; for a node without parent, or whose parent is not a
    document or element, it returns the empty sequence. *)
Theorem getSiblings_excludes_self {Σ : Type} `{HasHeap Σ} (s : Σ)
    (node : ref) (n : TamlNode) :
  heap_of s !! node = Some n ->
  (parent n = None -> getSiblings node s = Ok [] s)
  /\ (forall p pn, parent n = Some p -> heap_of s !! p = Some pn ->
        (children pn = None -> getSiblings node s = Ok [] s)
        /\ (forall cs, children pn = Some cs ->
              getSiblings node s = Ok (List.remove Pos.eq_dec node cs) s
              /\ (forall x, x ∈ List.remove Pos.eq_dec node cs
                            <-> x ∈ cs /\ x <> node)))
  /\ (forall l s', getSiblings node s = Ok l s' -> (node ∉ l) /\ (s' = s)).
Proof.
  intros Hn.
  assert (Hremove : forall cs x,
            x ∈ List.remove Pos.eq_dec node cs <-> x ∈ cs /\ x <> node).
  { intros cs x. rewrite !list_elem_of_In. split.
    - apply in_remove.
    - intros [? ?]. by apply in_in_remove. }
  assert (Hnone : parent n = None -> getSiblings node s = Ok [] s).
  { intros Hp. unfold getSiblings, bind, read. by rewrite Hn, Hp. }
  assert (Htext : forall p pn, parent n = Some p -> heap_of s !! p = Some pn ->
            children pn = None -> getSiblings node s = Ok [] s).
  { intros p pn Hp Hpn Hcs. unfold getSiblings, bind, read.
    rewrite Hn, Hp, Hpn. apply text_children in Hcs.
    apply orb_false_iff in Hcs as [-> ->]. done. }
  assert (Hcont : forall p pn cs, parent n = Some p ->
            heap_of s !! p = Some pn -> children pn = Some cs ->
            getSiblings node s = Ok (List.remove Pos.eq_dec node cs) s).
  { intros p pn cs Hp Hpn Hcs. unfold getSiblings, bind, read.
    rewrite Hn, Hp, Hpn. destruct (container_children pn cs Hcs) as [Hk ->].
    rewrite <- filter_remove.
    destruct (isDocumentNode pn), (isElementNode pn); done. }
  split; [exact Hnone|]. split.
  - intros p pn Hp Hpn. split; [by apply (Htext p pn)|].
    intros cs Hcs. split; [by apply (Hcont p pn)|]. apply Hremove.
  - intros l s' Hget.
    assert (Hnil : node ∉ ([] : list ref)) by apply not_elem_of_nil.
    destruct (parent n) as [p|] eqn:Hp;
      [|rewrite Hnone in Hget by done; by inversion Hget; subst].
    destruct (heap_of s !! p) as [pn|] eqn:Hpn.
    + destruct (children pn) as [cs|] eqn:Hcs.
      * rewrite (Hcont p pn cs) in Hget by done. inversion Hget; subst.
        split; [|done]. rewrite Hremove. by intros [_ ?].
      * rewrite (Htext p pn) in Hget by done. by inversion Hget; subst.
    + unfold getSiblings, bind, read in Hget.
      rewrite Hn, Hp, Hpn in Hget. discriminate.
Qed.

Section AncestorFacts.
Context {Σ : Type} `{HasHeap Σ}.
Implicit Types (h : Heap) (l : list ref).

Lemma chain_suffix h r l d :
  chain h r l -> d ∈ l -> exists l1 l2, l = l1 ++ l2 /\ chain h d l2.
Proof.
  induction 1 as [r n Hn Hp|r n p l Hn Hp Hl IH]; intros Hd.
  - apply list_elem_of_singleton in Hd as ->.
    exists [], [r]. split; [done|]. by eapply chain_top.
  - apply elem_of_cons in Hd as [->|Hd].
    + exists [], (r :: l). split; [done|]. by eapply chain_up.
    + destruct (IH Hd) as (l1 & l2 & -> & Hc).
      exists (r :: l1), l2. done.
Qed.

Lemma chain_split h r pre x post :
  chain h r (pre ++ x :: post) -> chain h x (x :: post).
Proof.
  revert r. induction pre as [|y pre IH]; intros r Hc; simpl in Hc.
  - by destruct (chain_nonempty _ _ _ Hc) as [l' [= -> ->]].
  - inversion Hc; subst; [by destruct pre|]. by eapply IH.
Qed.

Lemma chain_ancestors h r l d :
  chain h r l -> (ancestor_or_self h d r <-> d ∈ l).
Proof.
  intros Hc. split.
  - intros Hd. revert l Hc. unfold ancestor_or_self in Hd.
    induction Hd as [x|x y z (n & Hn & Hp) _ IH]; intros l Hc.
    + destruct (chain_nonempty _ _ _ Hc) as [l' ->]. apply elem_of_cons; auto.
    + inversion Hc; subst; [congruence|].
      apply elem_of_cons. right. apply IH.
      assert (p = y) as -> by congruence. done.
  - induction Hc as [r n Hn Hp|r n p l Hn Hp Hl IH]; intros Hd.
    + apply list_elem_of_singleton in Hd as ->. apply rtc_refl.
    + apply elem_of_cons in Hd as [->|Hd]; [apply rtc_refl|].
      eapply rtc_l; [|by apply IH]. eauto.
Qed.

Lemma chain_acyclic h r n p l :
  h !! r = Some n -> parent n = Some p -> chain h p l -> r ∉ l.
Proof.
  intros Hn Hp Hc Hin.
  destruct (chain_suffix h p l r Hc Hin) as (l1 & l2 & -> & Hr).
  assert (Hr' : chain h r (r :: l1 ++ l2)) by by eapply chain_up.
  pose proof (chain_functional h r _ _ Hr Hr') as Heq.
  apply (f_equal length) in Heq. simpl in Heq. rewrite length_app in Heq.
  lia.
Qed.

Lemma ancestor_set_chain h r l :
  chain h r l ->
  forall fuel acc s, heap_of s = h -> length l < fuel ->
    ancestor_set fuel (Some r) acc s = Ok (list_to_set l ∪ acc) s.
Proof.
  induction 1 as [r n Hn Hp|r n p l Hn Hp Hl IH];
    intros fuel acc s Hs Hfuel;
    (destruct fuel as [|fuel]; [simpl in Hfuel; lia|]);
    simpl; unfold bind, read; rewrite Hs, Hn, Hp.
  - destruct fuel; [simpl in Hfuel; lia|]. simpl. unfold ret.
    f_equal. set_solver.
  - rewrite IH; [|done|simpl in Hfuel; lia]. f_equal. set_solver.
Qed.

Lemma first_common_chain h r l :
  chain h r l ->
  forall fuel (A : gset ref) s, heap_of s = h -> length l < fuel ->
    first_common fuel (Some r) A s
    = Ok (List.find (fun c => bool_decide (c ∈ A)) l) s.
Proof.
  induction 1 as [r n Hn Hp|r n p l Hn Hp Hl IH];
    intros fuel A s Hs Hfuel;
    (destruct fuel as [|fuel]; [simpl in Hfuel; lia|]);
    simpl; destruct (decide (r ∈ A)) as [Hin|Hni];
    try (rewrite bool_decide_eq_true_2 by done; reflexivity);
    rewrite bool_decide_eq_false_2 by done;
    unfold bind, read; rewrite Hs, Hn, Hp.
  - destruct fuel; [simpl in Hfuel; lia|]. reflexivity.
  - apply IH; [done|simpl in Hfuel; lia].
Qed.

Lemma find_first_split (f : ref -> bool) l x :
  List.find f l = Some x ->
  exists pre post, l = pre ++ x :: post
    /\ Forall (fun r => f r = false) pre /\ f x = true.
Proof.
  induction l as [|y l IH]; simpl; [done|].
  destruct (f y) eqn:Hy.
  - intros [= ->]. exists [], l. done.
  - intros (pre & post & -> & Hpre & Hx)%IH.
    exists (y :: pre), post. repeat split; [|done]. by constructor.
Qed.

Lemma find_none_all (f : ref -> bool) l :
  List.find f l = None -> Forall (fun r => f r = false) l.
Proof.
  induction l as [|y l IH]; simpl; [done|].
  destruct (f y) eqn:Hy; [done|]. intros Hl. constructor; auto.
Qed.

End AncestorFacts.

(** C7: [getCommonAncestor] returns the nearest node that is an
    ancestor-or-self of both nodes, and the absent result only when the
    two have no common ancestor; for two siblings it returns their
    parent, for a node and itself the node. *)
Theorem getCommonAncestor_nearest {Σ : Type} `{HasHeap Σ} (s : Σ)
    (a b : ref) (la lb : list ref) (fuel : nat) :
  chain (heap_of s) a la -> chain (heap_of s) b lb ->
  length la < fuel -> length lb < fuel ->
  exists res,
    getCommonAncestor fuel a b s = Ok res s
    /\ (forall c, res = Some c ->
          ancestor_or_self (heap_of s) c a
          /\ ancestor_or_self (heap_of s) c b
          /\ (forall d, ancestor_or_self (heap_of s) d a ->
                        ancestor_or_self (heap_of s) d b ->
                        ancestor_or_self (heap_of s) d c))
    /\ (res = None <->
        ~ exists d, ancestor_or_self (heap_of s) d a
                    /\ ancestor_or_self (heap_of s) d b)
    /\ (forall p na nb,
          a <> b ->
          heap_of s !! a = Some na -> parent na = Some p ->
          heap_of s !! b = Some nb -> parent nb = Some p ->
          res = Some p)
    /\ (a = b -> res = Some a).
Proof.
  intros Ha Hb Hfa Hfb.
  set (f := fun c : ref =>
              bool_decide (c ∈ (list_to_set la ∪ ∅ : gset ref))).
  assert (Hf : forall c, f c = true <-> c ∈ la).
  { intros c. unfold f. rewrite bool_decide_eq_true. set_solver. }
  assert (Hf' : forall c, f c = false <-> c ∉ la).
  { intros c. unfold f. rewrite bool_decide_eq_false. set_solver. }
  exists (List.find f lb).
  assert (Hnear : forall c, List.find f lb = Some c ->
            ancestor_or_self (heap_of s) c a
            /\ ancestor_or_self (heap_of s) c b
            /\ (forall d, ancestor_or_self (heap_of s) d a ->
                          ancestor_or_self (heap_of s) d b ->
                          ancestor_or_self (heap_of s) d c)).
  { intros c (pre & post & Hlb & Hpre & Hc)%find_first_split.
    assert (Hcb : c ∈ lb) by (rewrite Hlb; set_solver).
    split; [by apply (chain_ancestors _ a la c Ha), Hf|].
    split; [by apply (chain_ancestors _ b lb c Hb)|].
    intros d Hda Hdb.
    apply (chain_ancestors _ a la d Ha) in Hda.
    apply (chain_ancestors _ b lb d Hb) in Hdb.
    assert (Hcc : chain (heap_of s) c (c :: post)).
    { apply (chain_split _ b pre). by rewrite <- Hlb. }
    apply (chain_ancestors _ c _ d Hcc).
    rewrite Hlb in Hdb. apply elem_of_app in Hdb as [Hdb|Hdb]; [|done].
    eapply Forall_forall in Hpre; [|exact Hdb]. apply Hf' in Hpre. done. }
  split; [|split; [|split; [|split]]].
  - unfold getCommonAncestor, bind.
    rewrite (ancestor_set_chain _ a la Ha) by done.
    by rewrite (first_common_chain _ b lb Hb).
  - exact Hnear.
  - split.
    + intros Hnone (d & Hda & Hdb). apply find_none_all in Hnone.
      apply (chain_ancestors _ a la d Ha) in Hda.
      apply (chain_ancestors _ b lb d Hb) in Hdb.
      eapply Forall_forall in Hnone; [|exact Hdb].
      by apply Hf' in Hnone.
    + intros Hno. destruct (List.find f lb) as [c|] eqn:Hfind; [|done].
      destruct (Hnear c eq_refl) as (? & ? & _). exfalso. eauto.
  - intros p na nb Hab Hna Hpa Hnb Hpb.
    inversion Ha as [? ? Hna' Hpa'|? ? p' la' Hna' Hpa' Hp]; subst;
      [congruence|].
    assert (p' = p) as -> by congruence.
    inversion Hb as [? ? Hnb' Hpb'|? ? p' lb' Hnb' Hpb' Hp']; subst;
      [congruence|].
    assert (p' = p) as -> by congruence.
    pose proof (chain_functional _ p _ _ Hp Hp') as <-.
    simpl. assert (f b = false) as ->.
    { apply Hf'. apply not_elem_of_cons. split; [done|].
      by eapply chain_acyclic. }
    destruct (chain_nonempty _ _ _ Hp) as [l' ->]. simpl.
    assert (f p = true) as ->; [|done].
    apply Hf. set_solver.
  - intros <-. destruct (chain_nonempty _ _ _ Hb) as [l' ->]. simpl.
    assert (f a = true) as ->; [|done].
    apply Hf. pose proof (chain_functional _ a _ _ Ha Hb) as ->. set_solver.
Qed.

Section CloneFacts.
Implicit Types (h : Heap) (t : Tree).

Lemma preserves_subseteq h h' : h ⊆ h' -> preserves h h'.
Proof. intros Hsub y n Hn. exists n. eauto using lookup_weaken. Qed.

Lemma repr_ind' h (P : Tree -> Prop) :
  (forall r n ks, h !! r = Some n -> children_list n = map root ks ->
     Forall (repr h) ks -> Forall P ks -> P (T r ks)) ->
  forall t, repr h t -> P t.
Proof.
  intros IH. fix F 2. intros t Ht.
  destruct Ht as [r n ks Hn Hcs Hks].
  apply (IH r n ks); [exact Hn|exact Hcs|exact Hks|]. clear Hn Hcs.
  induction Hks as [|k ks Hk Hks IHks]; constructor;
    [apply F, Hk|apply IHks].
Qed.

Lemma repr_preserved h h' t : preserves h h' -> repr h t -> repr h' t.
Proof.
  intros Hle. induction 1 as [r n ks Hn Hcs Hks IH] using repr_ind'.
  destruct (Hle r n Hn) as (n' & Hn' & Hd & _).
  apply (repr_node h' r n' ks); [done| |done].
  unfold children_list, children in *. by rewrite Hd.
Qed.

Lemma repr_allocated h t :
  repr h t -> Forall (fun y => is_Some (h !! y)) (preorder t).
Proof.
  induction 1 as [r n ks Hn Hcs Hks IH] using repr_ind'. simpl.
  constructor; [eauto|]. clear Hcs Hks.
  induction IH as [|k ks Hk _ IHks]; simpl; [done|].
  apply Forall_app. done.
Qed.

Lemma struct_eq_ind' h (P : Tree -> Tree -> Prop) :
  (forall r ks r' ks' n n', h !! r = Some n -> h !! r' = Some n' ->
     same_label n n' -> Forall2 (struct_eq h) ks ks' -> Forall2 P ks ks' ->
     P (T r ks) (T r' ks')) ->
  forall t t', struct_eq h t t' -> P t t'.
Proof.
  intros IH. fix F 3. intros t t' Ht.
  destruct Ht as [r ks r' ks' n n' Hn Hn' Hl Hks].
  apply (IH r ks r' ks' n n'); [exact Hn|exact Hn'|exact Hl|exact Hks|].
  clear Hn Hn' Hl.
  induction Hks as [|k k' ks ks' Hk Hks IHks]; constructor;
    [apply F, Hk|apply IHks].
Qed.

Lemma same_label_preserved n1 n2 n1' n2' :
  same_label n1 n2 ->
  data n1' = data n1 -> start n1' = start n1 -> end_ n1' = end_ n1 ->
  data n2' = data n2 -> start n2' = start n2 -> end_ n2' = end_ n2 ->
  same_label n1' n2'.
Proof. unfold same_label. intros (? & ? & ?) -> -> -> -> -> ->. done. Qed.

Lemma struct_eq_preserved h h' t t' :
  preserves h h' -> struct_eq h t t' -> struct_eq h' t t'.
Proof.
  intros Hle.
  induction 1 as [r ks r' ks' n n' Hn Hn' Hl Hks IH] using struct_eq_ind'.
  destruct (Hle r n Hn) as (m & Hm & ? & ? & ?).
  destruct (Hle r' n' Hn') as (m' & Hm' & ? & ? & ?).
  apply (struct_eq_node h' r ks r' ks' m m'); try done.
  by eapply same_label_preserved.
Qed.

Lemma map_children_compose f g n :
  map_children g (map_children f n) = map_children (fun l => g (f l)) n.
Proof. unfold map_children. destruct n as [[]]; reflexivity. Qed.

Lemma map_children_ext f g n :
  (forall l, f l = g l) -> map_children f n = map_children g n.
Proof.
  intros Hfg. unfold map_children. destruct n as [[]]; simpl;
    by rewrite ?Hfg.
Qed.

(** The loop of the factories sets the [parent] of each child and
    appends the children to the owner, and touches nothing else. *)
Lemma adopt_spec e cs :
  e ∉ cs ->
  forall h ne,
    h !! e = Some ne -> is_Some (children ne) ->
    Forall (fun c => is_Some (h !! c)) cs ->
    exists h',
      adopt e cs h = Ok tt h'
      /\ (forall y, y <> e -> y ∉ cs -> h' !! y = h !! y)
      /\ (forall c, c ∈ cs -> h' !! c = set_parent (Some e) <$> h !! c)
      /\ h' !! e = Some (map_children (fun l => l ++ cs) ne).
Proof.
  intros He. induction cs as [|c cs IH]; intros h ne Hne Hcont Hcs; simpl.
  - exists h. split; [done|]. split; [done|].
    split; [by intros ? ?%elem_of_nil|].
    rewrite Hne. f_equal. destruct ne as [[]]; unfold map_children; simpl;
      by rewrite ?app_nil_r.
  - apply not_elem_of_cons in He as [Hec He].
    inversion Hcs as [|? ? [nc Hnc] Hcs']; subst.
    unfold bind, modify, update_children. rewrite Hnc.
    rewrite lookup_insert_ne, Hne by done.
    destruct Hcont as [l0 Hl0]. rewrite Hl0.
    set (h1 := <[e := map_children (fun l => l ++ [c]) ne]>
                 (<[c := set_parent (Some e) nc]> h)).
    destruct (IH He h1 (map_children (fun l => l ++ [c]) ne))
      as (h' & Hrun & Hother & Hkids & Howner).
    { unfold h1. by rewrite lookup_insert_eq. }
    { rewrite (children_map_children _ _ _ Hl0). eauto. }
    { eapply Forall_impl; [exact Hcs'|]. intros y [ny Hy]. unfold h1.
      destruct (decide (y = e)) as [->|?];
        [by rewrite lookup_insert_eq|rewrite lookup_insert_ne by done].
      destruct (decide (y = c)) as [->|?];
        [by rewrite lookup_insert_eq|rewrite lookup_insert_ne by done].
      eauto. }
    exists h'. split; [exact Hrun|]. split; [|split].
    + intros y Hye Hy. apply not_elem_of_cons in Hy as [Hyc Hy].
      rewrite Hother by done. unfold h1.
      by rewrite !lookup_insert_ne by done.
    + intros y Hy. destruct (decide (y ∈ cs)) as [Hin|Hni].
      * rewrite Hkids by done. unfold h1.
        assert (y <> e) by (intros ->; done).
        rewrite lookup_insert_ne by done.
        destruct (decide (y = c)) as [->|?].
        -- rewrite lookup_insert_eq, Hnc. done.
        -- by rewrite lookup_insert_ne by done.
      * apply elem_of_cons in Hy as [->|?]; [|done].
        rewrite Hother by done. unfold h1.
        rewrite lookup_insert_ne, lookup_insert_eq, Hnc by done. done.
    + rewrite Howner. f_equal. rewrite map_children_compose.
      apply map_children_ext. intros l. by rewrite <- app_assoc.
Qed.

(** Allocating a container and adopting the children. *)
Lemma create_spec n0 cs h :
  children n0 = Some [] ->
  Forall (fun c => is_Some (h !! c)) cs ->
  let e := fresh (dom h) in
  exists h',
    (x <- alloc n0 ;; adopt x cs ;;; ret x) h = Ok e h'
    /\ h !! e = None
    /\ (forall y, y <> e -> y ∉ cs -> h' !! y = h !! y)
    /\ (forall c, c ∈ cs -> h' !! c = set_parent (Some e) <$> h !! c)
    /\ h' !! e = Some (map_children (fun _ => cs) n0).
Proof.
  intros Hn0 Hcs e.
  assert (Hfresh : h !! e = None).
  { apply not_elem_of_dom. apply is_fresh. }
  assert (Hni : e ∉ cs).
  { intros Hin. eapply Forall_forall in Hcs; [|exact Hin].
    rewrite Hfresh in Hcs. by destruct Hcs. }
  destruct (adopt_spec e cs Hni (<[e := n0]> h) n0)
    as (h' & Hrun & Hother & Hkids & Howner).
  { by rewrite lookup_insert_eq. }
  { rewrite Hn0. eauto. }
  { eapply Forall_impl; [exact Hcs|]. intros y [ny Hy].
    destruct (decide (y = e)) as [->|?];
      [by rewrite lookup_insert_eq|rewrite lookup_insert_ne by done].
    eauto. }
  exists h'. unfold bind, alloc. fold e. rewrite Hrun.
  split; [done|]. split; [done|]. split; [|split].
  - intros y Hye Hy. rewrite Hother by done. by rewrite lookup_insert_ne.
  - intros c Hc. rewrite Hkids by done.
    rewrite lookup_insert_ne; [done|]. intros ->. done.
  - rewrite Howner. f_equal. unfold map_children, children in *.
    destruct (data n0); inversion Hn0; subst; done.
Qed.

End CloneFacts.

Section CloneProof.
Implicit Types (h : Heap) (t : Tree).

Lemma repr_root h t : repr h t -> is_Some (h !! root t).
Proof. destruct 1; simpl; eauto. Qed.

Lemma Tree_ind' (P : Tree -> Prop) :
  (forall r ks, Forall P ks -> P (T r ks)) -> forall t, P t.
Proof.
  intros IH. fix F 1. intros [r ks]. apply IH.
  induction ks as [|k ks IHks]; constructor; [apply F|apply IHks].
Qed.

Lemma root_in_preorder t : root t ∈ preorder t.
Proof. destruct t. simpl. apply elem_of_cons. by left. Qed.

Lemma preorder_kid k ks y :
  k ∈ ks -> y ∈ preorder k -> y ∈ flat_map preorder ks.
Proof.
  intros Hk Hy. apply list_elem_of_In, in_flat_map.
  exists k. by rewrite <- !list_elem_of_In.
Qed.

(** The child of an edge is a node below the root. *)
Lemma edges_below t :
  forall c p, (c, p) ∈ edges t -> c ∈ flat_map preorder (kids t).
Proof.
  induction t as [r ks IH] using Tree_ind'. intros c p Hcp. simpl in *.
  apply elem_of_app in Hcp as [Hcp|Hcp].
  - apply list_elem_of_fmap in Hcp as (k & [= -> ->] & Hk).
    eapply preorder_kid; [exact Hk|apply root_in_preorder].
  - apply list_elem_of_In, in_flat_map in Hcp as (k & Hk & Hcp).
    apply list_elem_of_In in Hk, Hcp.
    eapply Forall_forall in IH; [|exact Hk].
    eapply preorder_kid; [exact Hk|].
    destruct k as [rk kk]. simpl. apply elem_of_cons. right.
    by apply (IH c p).
Qed.

(** [parented] looks at the nodes below the root only. *)
Lemma parented_preserved h h' t :
  (forall y, y ∈ flat_map preorder (kids t) -> h' !! y = h !! y) ->
  parented h t -> parented h' t.
Proof.
  intros Hsame Hp. unfold parented in *. apply Forall_forall.
  intros [c p] Hcp. eapply Forall_forall in Hp; [|exact Hcp].
  simpl in *. rewrite Hsame; [exact Hp|]. by eapply edges_below.
Qed.

(** In a forest without repeated nodes, a node below the root of one
    tree is not the root of any tree. *)
Lemma below_not_root ts :
  NoDup (flat_map preorder ts) ->
  forall k y, k ∈ ts -> y ∈ flat_map preorder (kids k) ->
    y ∉ map root ts.
Proof.
  induction ts as [|k0 ts IH]; intros Hnd k y Hk Hy; [by inversion Hk|].
  simpl in Hnd. apply NoDup_app in Hnd as (Hnd0 & Hdisj & Hnd1).
  assert (Hroots : forall x, x ∈ map root ts -> x ∈ flat_map preorder ts).
  { intros x (k' & -> & Hk')%list_elem_of_fmap.
    eapply preorder_kid; [exact Hk'|apply root_in_preorder]. }
  destruct k0 as [r0 ks0]. simpl in *.
  apply NoDup_cons in Hnd0 as [Hr0 Hnd0].
  apply not_elem_of_cons.
  apply elem_of_cons in Hk as [->|Hk]; simpl in Hy.
  - split; [by intros ->|].
    intros Hin. apply (Hdisj y); [apply elem_of_cons; by right|].
    by apply Hroots.
  - assert (Hyk : y ∈ flat_map preorder ts).
    { eapply preorder_kid; [exact Hk|]. destruct k as [rk kk]. simpl in *.
      apply elem_of_cons. by right. }
    split; [|by eapply IH].
    intros ->. apply (Hdisj r0); [apply elem_of_cons; by left|done].
Qed.

Lemma assemble h h1 r n ks ts' n0 :
  h ⊆ h1 -> h !! r = Some n ->
  Forall (fun k' => Forall (fun y => h !! y = None) (preorder k')) ts' ->
  NoDup (flat_map preorder ts') ->
  Forall (repr h1) ts' ->
  Forall2 (struct_eq h1) ks ts' ->
  Forall (parented h1) ts' ->
  children n0 = Some [] -> parent n0 = None -> same_label n n0 ->
  exists h3,
    (x <- alloc n0 ;; adopt x (map root ts') ;;; ret x) h1
    = Ok (fresh (dom h1)) h3
    /\ cloned h (T r ks) h3 (T (fresh (dom h1)) ts').
Proof.
  intros Hsub Hn Hfresh Hnodup Hrepr Hseq Hpar Hn0 Hp0 Hlabel.
  set (e := fresh (dom h1)).
  destruct (create_spec n0 (map root ts') h1 Hn0)
    as (h3 & Hrun & He & Hother & Hkids & Howner).
  { apply Forall_map. eapply Forall_impl; [exact Hrepr|].
    intros k'. apply repr_root. }
  fold e in Hrun, He, Hother, Hkids, Howner.
  assert (Hhe : h !! e = None).
  { destruct (h !! e) as [m|] eqn:Hm; [|done].
    by rewrite (lookup_weaken _ _ _ _ Hm Hsub) in He. }
  assert (Hroots : forall y, y ∈ map root ts' -> h !! y = None).
  { intros y (k' & -> & Hk')%list_elem_of_fmap.
    eapply Forall_forall in Hfresh; [|exact Hk'].
    destruct k' as [rk kk]. by inversion Hfresh. }
  assert (Hsub3 : h ⊆ h3).
  { apply map_subseteq_spec. intros y m Hm.
    rewrite Hother; [by eapply lookup_weaken| |].
    - intros ->. congruence.
    - intros Hy. apply Hroots in Hy. congruence. }
  assert (Hpres : preserves h1 h3).
  { intros y m Hm.
    assert (y <> e) by (intros ->; congruence).
    destruct (decide (y ∈ map root ts')) as [Hy|Hy].
    - rewrite (Hkids y Hy), Hm. simpl. eauto.
    - rewrite (Hother y) by done. eauto. }
  assert (Halloc : forall y, y ∈ flat_map preorder ts' -> is_Some (h1 !! y)).
  { intros y Hy. apply list_elem_of_In, in_flat_map in Hy as (k' & Hk' & Hy).
    apply list_elem_of_In in Hk', Hy.
    eapply Forall_forall in Hrepr; [|exact Hk'].
    apply repr_allocated in Hrepr.
    by eapply Forall_forall in Hrepr; [|exact Hy]. }
  assert (Hlevel : forall k', k' ∈ ts' ->
            exists nk, h3 !! root k' = Some nk /\ parent nk = Some e).
  { intros k' Hk'.
    assert (Hin : root k' ∈ map root ts') by by apply list_elem_of_fmap_2.
    eapply Forall_forall in Hrepr; [|exact Hk'].
    destruct (repr_root _ _ Hrepr) as [m Hm].
    exists (set_parent (Some e) m). rewrite (Hkids _ Hin), Hm. done. }
  exists h3. split; [exact Hrun|].
  split; [exact Hsub3|]. split; [|split; [|split; [|split; [|split]]]].
  - simpl. constructor; [exact Hhe|].
    clear -Hfresh. induction Hfresh as [|k' ts' Hk' _ IH]; simpl; [done|].
    by apply Forall_app.
  - simpl. apply NoDup_cons. split; [|exact Hnodup].
    intros Hin. apply Halloc in Hin. rewrite He in Hin. by destruct Hin.
  - apply (repr_node h3 e (map_children (fun _ => map root ts') n0) ts').
    + exact Howner.
    + unfold children_list, children, map_children in *.
      destruct (data n0); inversion Hn0; done.
    + eapply Forall_impl; [exact Hrepr|].
      intros k'. by apply repr_preserved.
  - apply (struct_eq_node h3 r ks e ts' n
             (map_children (fun _ => map root ts') n0)).
    + by eapply lookup_weaken.
    + exact Howner.
    + unfold same_label, map_children, children in *.
      destruct (data n0); inversion Hn0; subst; simpl; done.
    + eapply Forall2_impl; [exact Hseq|].
      intros k k'. by apply struct_eq_preserved.
  - exists (map_children (fun _ => map root ts') n0).
    split; [exact Howner|].
    unfold map_children. destruct (data n0); done.
  - unfold parented. simpl. apply Forall_app. split.
    + apply Forall_forall.
      intros [c p] (k' & [= -> ->] & Hk')%list_elem_of_fmap.
      simpl. by apply Hlevel.
    + apply Forall_forall. intros [c p] Hcp.
      apply list_elem_of_In, in_flat_map in Hcp as (k' & Hk' & Hcp).
      apply list_elem_of_In in Hk', Hcp.
      eapply Forall_forall in Hpar; [|exact Hk'].
      apply (parented_preserved h1 h3 k') in Hpar.
      * by eapply Forall_forall in Hpar; [|exact Hcp].
      * intros y Hy. apply Hother.
        -- intros ->.
           assert (Hin : e ∈ flat_map preorder ts').
           { eapply preorder_kid; [exact Hk'|]. destruct k' as [rk kk].
             simpl in *. apply elem_of_cons. by right. }
           apply Halloc in Hin. rewrite He in Hin. by destruct Hin.
        -- by eapply below_not_root.
Qed.

Lemma height_kid k ks :
  In k ks -> S (height k) <= list_max (map (fun k => S (height k)) ks).
Proof.
  induction ks as [|k' ks IH]; simpl; [done|].
  intros [->|Hk]; [lia|]. specialize (IH Hk). lia.
Qed.

Lemma parented_subseteq h h' t : h ⊆ h' -> parented h t -> parented h' t.
Proof.
  intros Hsub Hp. unfold parented in *.
  eapply Forall_impl; [exact Hp|]. intros [c p] (n & Hn & Hpn).
  exists n. split; [by eapply lookup_weaken|done].
Qed.

(** Cloning the children one after the other. *)
Lemma clone_children fuel :
  (forall t h, repr h t -> height t < fuel ->
     exists h' t', cloneNode fuel (root t) h = Ok (root t') h'
                   /\ cloned h t h' t') ->
  forall ks h,
    Forall (repr h) ks -> Forall (fun k => height k < fuel) ks ->
    exists h1 ts',
      mapM (cloneNode fuel) (map root ks) h = Ok (map root ts') h1
      /\ h ⊆ h1
      /\ Forall (fun k' => Forall (fun y => h !! y = None) (preorder k')) ts'
      /\ NoDup (flat_map preorder ts')
      /\ Forall (repr h1) ts'
      /\ Forall2 (struct_eq h1) ks ts'
      /\ Forall (parented h1) ts'.
Proof.
  intros IH. induction ks as [|k ks IHks]; intros h Hrepr Hheight; simpl.
  - exists h, []. split; [done|]. split; [done|]. split; [done|].
    split; [constructor|]. by repeat split.
  - inversion Hrepr as [|? ? Hk Hks]; subst.
    inversion Hheight as [|? ? Hhk Hhks]; subst.
    destruct (IH k h Hk Hhk)
      as (ha & k' & Hrun & Hsub & Hfresh & Hnd & Hrk & Hsk & _ & Hpk).
    destruct (IHks ha)
      as (h1 & ts' & Hruns & Hsub1 & Hfresh1 & Hnd1 & Hr1 & Hs1 & Hp1).
    { eapply Forall_impl; [exact Hks|]. intros x.
      by apply repr_preserved, preserves_subseteq. }
    { exact Hhks. }
    exists h1, (k' :: ts'). unfold bind. rewrite Hrun, Hruns.
    split; [reflexivity|]. split; [by etrans|].
    split; [|split; [|split; [|split]]].
    + constructor; [exact Hfresh|].
      eapply Forall_impl; [exact Hfresh1|]. intros x Hx.
      eapply Forall_impl; [exact Hx|]. intros y Hy. simpl in Hy.
      destruct (h !! y) as [m|] eqn:Hm; [|done].
      by rewrite (lookup_weaken _ _ _ _ Hm Hsub) in Hy.
    + simpl. apply NoDup_app. split; [exact Hnd|]. split; [|exact Hnd1].
      intros y Hy Hy'.
      apply repr_allocated in Hrk.
      eapply Forall_forall in Hrk; [|exact Hy].
      apply list_elem_of_In, in_flat_map in Hy' as (x & Hx & Hyx).
      apply list_elem_of_In in Hx, Hyx.
      eapply Forall_forall in Hfresh1; [|exact Hx].
      eapply Forall_forall in Hfresh1; [|exact Hyx].
      simpl in Hfresh1. rewrite Hfresh1 in Hrk. by destruct Hrk.
    + constructor; [|exact Hr1].
      by eapply repr_preserved; [apply preserves_subseteq|].
    + constructor; [|exact Hs1].
      by eapply struct_eq_preserved; [apply preserves_subseteq|].
    + constructor; [|exact Hp1]. by eapply parented_subseteq.
Qed.

Lemma cloneNode_cloned fuel :
  forall t h, repr h t -> height t < fuel ->
    exists h' t', cloneNode fuel (root t) h = Ok (root t') h'
                  /\ cloned h t h' t'.
Proof.
  induction fuel as [|fuel IH]; intros [r ks] h Hr Hh; [lia|].
  inversion Hr as [r' n ks' Hn Hcs Hks]; subst.
  assert (Hkh : Forall (fun k => height k < fuel) ks).
  { apply Forall_forall. intros k Hk%list_elem_of_In.
    pose proof (height_kid k ks Hk). simpl in Hh. lia. }
  destruct (clone_children fuel IH ks h Hks Hkh)
    as (h1 & ts' & Hrun & Hsub & Hfresh & Hnd & Hr1 & Hs1 & Hp1).
  cbn [cloneNode root]. unfold bind at 1, read, heap_of, Heap_HasHeap.
  rewrite Hn. unfold children_list, children in Hcs.
  destruct (data n) as [cs|tag cs|c] eqn:Hd; simpl in Hcs.
  - subst cs. unfold bind at 1. rewrite Hrun.
    destruct (assemble h h1 r n ks ts'
                {| data := Document []; start := start n; end_ := end_ n;
                   parent := None |})
      as (h3 & Hrun3 & Hcl); try done.
    { unfold same_label. simpl. by rewrite Hd. }
    exists h3, (T (fresh (dom h1)) ts'). split; [exact Hrun3|exact Hcl].
  - subst cs. unfold bind at 1. rewrite Hrun.
    destruct (assemble h h1 r n ks ts'
                {| data := Element tag []; start := start n;
                   end_ := end_ n; parent := None |})
      as (h3 & Hrun3 & Hcl); try done.
    { unfold same_label. simpl. by rewrite Hd. }
    exists h3, (T (fresh (dom h1)) ts'). split; [exact Hrun3|exact Hcl].
  - apply map_root_nil in Hcs as ->.
    set (n0 := {| data := Text c; start := start n; end_ := end_ n;
                  parent := None |}).
    set (e := fresh (dom h)).
    assert (He : h !! e = None) by apply not_elem_of_dom, is_fresh.
    exists (<[e := n0]> h), (T e []).
    split; [reflexivity|].
    split; [by apply insert_subseteq|].
    split; [by repeat constructor|].
    split; [apply NoDup_singleton|]. split; [|split; [|split]].
    + apply (repr_node _ e n0 []); [by rewrite lookup_insert_eq|done|done].
    + apply (struct_eq_node _ r [] e [] n n0).
      * rewrite lookup_insert_ne; [done|]. intros ->. congruence.
      * by rewrite lookup_insert_eq.
      * unfold same_label. simpl. by rewrite Hd.
      * constructor.
    + exists n0. by rewrite lookup_insert_eq.
    + constructor.
Qed.

End CloneProof.

Section MutationFacts.
Implicit Types (h : Heap).

(** [removeChild] writes to the child and to its parent only. *)
Lemma removeChild_frame h child h' :
  removeChild child h = Ok tt h' ->
  forall y, y <> child ->
    (forall c, h !! child = Some c -> parent c <> Some y) ->
    h' !! y = h !! y.
Proof.
  unfold removeChild, bind, read, modify, update_children, heap_of,
    Heap_HasHeap.
  intros Hrun y Hyc Hyp.
  destruct (h !! child) as [c|] eqn:Hc; [|done].
  specialize (Hyp c eq_refl).
  destruct (parent c) as [p|] eqn:Hp; [|by inversion Hrun].
  destruct (h !! p) as [pn|] eqn:Hpn; [|done].
  destruct (isDocumentNode pn || isElementNode pn); [|by inversion Hrun].
  destruct (indexOf (children_list pn) child); [|by inversion Hrun].
  rewrite Hpn in Hrun. destruct (children pn); [|discriminate].
  destruct (<[p:=_]> h !! child) eqn:Hc'; [|done].
  inversion Hrun; subst.
  rewrite !lookup_insert_ne; [done| |done]. intros ->. done.
Qed.

(** [appendChild] leaves every node in place, with its fields but
    for [parent] and, for the new owner, [children]. *)
Lemma appendChild_frame h p c h' :
  appendChild p c h = Ok tt h' ->
  forall y n, y <> p -> h !! y = Some n ->
    exists n', h' !! y = Some n' /\ data n' = data n
               /\ start n' = start n /\ end_ n' = end_ n.
Proof.
  unfold appendChild, bind, modify, update_children.
  intros Hrun y n Hyp Hn.
  destruct (h !! c) as [nc|] eqn:Hc; [|done].
  destruct (<[c:=_]> h !! p) as [pn|] eqn:Hp; [|done].
  destruct (children pn); [|done].
  inversion Hrun; subst. rewrite lookup_insert_ne by done.
  destruct (decide (y = c)) as [->|Hyc].
  - rewrite lookup_insert_eq. assert (nc = n) as -> by congruence.
    eauto.
  - rewrite lookup_insert_ne by done. eauto.
Qed.

End MutationFacts.

(** C6: [cloneNode] returns a new node: it and all its descendants are
    distinct from every node there was, in particular from the original
    and its subtree, and from one another; the clone is structurally
    equal to the original (kind, tag, content and span, for all
    descendants); it has no parent, its children have it as parent, and
    so on down the clone; the original nodes are untouched, and stay so
    when a child is appended to the clone or removed from it. *)
Theorem cloneNode_independent (h : Heap) (t : Tree) (fuel : nat) :
  repr h t -> height t < fuel ->
  exists h' t',
    cloneNode fuel (root t) h = Ok (root t') h'
    /\ root t' <> root t
    /\ (forall y, y ∈ preorder t' -> h !! y = None /\ y ∉ preorder t)
    /\ NoDup (preorder t')
    /\ (forall y n, h !! y = Some n -> h' !! y = Some n)
    /\ repr h' t'
    /\ struct_eq h' t t'
    /\ (exists n', h' !! root t' = Some n' /\ parent n' = None)
    /\ Forall (fun k => exists nk, h' !! root k = Some nk
                                   /\ parent nk = Some (root t')) (kids t')
    /\ parented h' t'
    /\ (forall c h'', appendChild (root t') c h' = Ok tt h'' ->
          forall y n, y ∈ preorder t -> h !! y = Some n ->
            exists n'', h'' !! y = Some n'' /\ data n'' = data n)
    /\ (forall k h'', k ∈ map root (kids t') ->
          removeChild k h' = Ok tt h'' ->
          forall y, y ∈ preorder t -> h'' !! y = h !! y).
Proof.
  intros Hr Hh.
  destruct (cloneNode_cloned fuel t h Hr Hh)
    as (h' & t' & Hrun & Hsub & Hfresh & Hnd & Hr' & Hseq & Hroot & Hpar).
  pose proof (repr_allocated h t Hr) as Halloc.
  assert (Hnew : forall y, y ∈ preorder t' ->
            h !! y = None /\ y ∉ preorder t).
  { intros y Hy. eapply Forall_forall in Hfresh; [|exact Hy].
    split; [exact Hfresh|]. intros Hin.
    eapply Forall_forall in Halloc; [|exact Hin].
    simpl in Hfresh. rewrite Hfresh in Halloc. by destruct Halloc. }
  pose proof (root_in_preorder t') as Hroot_new.
  pose proof (root_in_preorder t) as Hroot_old.
  assert (Hkids : Forall (fun k => exists nk, h' !! root k = Some nk
                            /\ parent nk = Some (root t')) (kids t')).
  { destruct t' as [r' ks']. unfold parented in Hpar. simpl in *.
    apply Forall_app in Hpar as [Hpar _].
    apply Forall_forall. intros k Hk.
    apply (list_elem_of_fmap_2 (fun k => (root k, r'))) in Hk.
    by eapply Forall_forall in Hpar; [|exact Hk]. }
  exists h', t'. split; [exact Hrun|]. split.
  { intros Heq. destruct (Hnew _ Hroot_new) as [_ Hni]. by rewrite Heq in Hni. }
  split; [exact Hnew|]. split; [exact Hnd|]. split.
  { intros y n Hn. by eapply lookup_weaken. }
  split; [exact Hr'|]. split; [exact Hseq|]. split; [exact Hroot|].
  split; [exact Hkids|]. split; [exact Hpar|]. split.
  - intros c h'' Happ y n Hy Hn.
    destruct (appendChild_frame h' (root t') c h'' Happ y n)
      as (n'' & Hn'' & Hd & _).
    + intros ->. destruct (Hnew _ Hroot_new) as [_ Hni]. done.
    + by eapply lookup_weaken.
    + eauto.
  - intros k h'' Hk Hrem y Hy.
    eapply Forall_forall in Halloc as [n Hn]; [|exact Hy].
    apply list_elem_of_fmap in Hk as (k' & -> & Hk').
    assert (Hk_new : root k' ∈ preorder t').
    { destruct t' as [r' ks']. simpl in *. apply elem_of_cons. right.
      eapply preorder_kid; [exact Hk'|apply root_in_preorder]. }
    eapply Forall_forall in Hkids as (nk & Hnk & Hpk); [|exact Hk'].
    rewrite (removeChild_frame h' (root k') h'' Hrem y).
    + rewrite Hn. by eapply lookup_weaken.
    + intros ->. destruct (Hnew _ Hk_new) as [_ Hni]. done.
    + intros c Hc. rewrite Hnk in Hc. inversion Hc; subst. rewrite Hpk.
      intros [= <-]. destruct (Hnew _ Hroot_new) as [_ Hni]. done.
Qed.

Section MetricFacts.
Context {Σ : Type} `{HasHeap Σ}.

Lemma getAllText_visit_stable :
  heap_stable (getAllText_visit (Σ := Σ)).
Proof.
  intros r [s l]. unfold getAllText_visit, bind, read, set_local, ret.
  destruct (heap_of (s, l) !! r) as [n|]; [|done].
  destruct (data n); done.
Qed.

Lemma countNodes_visit_stable :
  heap_stable (countNodes_visit (Σ := Σ)).
Proof.
  intros r [s l]. unfold countNodes_visit, bind, read, set_local, ret.
  destruct (heap_of (s, l) !! r) as [n|]; [|done].
  destruct (isDocumentNode n), (isElementNode n), (isTextNode n); done.
Qed.

Lemma depth_max d ks :
  Nat.max d (list_max (map (fun k => S (d + height k)) ks))
  = d + list_max (map (fun k => S (height k)) ks).
Proof. induction ks as [|k ks IH]; simpl; lia. Qed.

(** [traverse] raises [maxDepth] to the depth of the deepest node. *)
Lemma traverse_height :
  forall fuel t (s : Σ) d m,
    repr (heap_of s) t -> weight t <= fuel ->
    traverse fuel (root t) d (s, m) = Ok tt (s, Nat.max m (d + height t)).
Proof.
  induction fuel as [|fuel IH]; intros [r ks] s d m Hr Hw.
  { simpl in Hw. lia. }
  inversion Hr as [r' n ks' Hn Hcs Hks]; subst. simpl in Hw.
  cbn [traverse root]. unfold bind, set_local, read.
  cbn [fst snd]. change (heap_of (s, Nat.max m d)) with (heap_of s).
  rewrite Hn.
  assert (Hkids : forall ks' m0,
            (forall k, In k ks' -> In k ks) ->
            run_seq (fun k => traverse fuel (root k) (d + 1)) ks' (s, m0)
            = Ok tt (s, Nat.max m0
                          (list_max (map (fun k => S (d + height k)) ks')))).
  { induction ks' as [|k ks' IHks]; intros m0 Hsub; simpl.
    - unfold ret. by rewrite Nat.max_0_r.
    - unfold bind. rewrite IH.
      + rewrite IHks by (intros; apply Hsub; by right).
        do 2 f_equal. lia.
      + eapply Forall_forall in Hks; [exact Hks|].
        apply list_elem_of_In, Hsub. by left.
      + pose proof (weight_kid k ks (Hsub k (or_introl eq_refl))). lia. }
  destruct (isDocumentNode n || isElementNode n) eqn:Hc.
  - rewrite (for_of_run_seq _ r n (map root ks) fuel [] (s, Nat.max m d));
      try done.
    + rewrite run_seq_map, Hkids by done.
      do 2 f_equal. cbn [height]. rewrite <- depth_max. lia.
    + rewrite length_map. pose proof (weight_length ks). lia.
    + intros c [s' m'] Hc' Hs'. apply in_map_iff in Hc' as (k & <- & Hk).
      rewrite IH.
      * done.
      * change (heap_of s' = heap_of s) in Hs'. rewrite Hs'.
        by eapply Forall_forall in Hks; [|apply list_elem_of_In].
      * pose proof (weight_kid k ks Hk). lia.
  - rewrite (leaf_no_children n Hc) in Hcs.
    apply map_root_nil in Hcs as ->. simpl. unfold ret.
    by rewrite Nat.add_0_r.
Qed.

(** [getMaxDepth] is the height of the tree. *)
Lemma getMaxDepth_height fuel t (s : Σ) :
  repr (heap_of s) t -> weight t <= fuel ->
  getMaxDepth fuel (root t) s = Ok (height t) s.
Proof.
  intros Hr Hw. unfold getMaxDepth, with_local, bind, get_local.
  by rewrite traverse_height.
Qed.

End MetricFacts.

Lemma example_built :
  build_example ∅ = Ok (doc_ref, bold_ref) example_heap.
Proof. vm_compute. reflexivity. Qed.

(** Checking that a concrete store holds a concrete tree. *)
Ltac solve_repr :=
  repeat match goal with
         | |- repr _ _ =>
             eapply repr_node; [vm_compute; reflexivity|reflexivity|]
         | |- Forall _ _ => constructor
         end.

Lemma example_repr : repr example_heap example_tree.
Proof. unfold example_tree. solve_repr. Qed.

(** C8: for the tree of [<red>Hello <bold>World</bold>!</red>] wrapped
    in a document, [getAllText] is "Hello World!", [countNodes] is one
    document, two elements and three texts, [getMaxDepth] is 3 and
    [getElementsWithTag] for [bold] returns the one bold element. *)
Theorem example_queries (fuel : nat) :
  weight example_tree <= fuel ->
  build_example ∅ = Ok (doc_ref, bold_ref) example_heap
  /\ getAllText fuel doc_ref example_heap = Ok "Hello World!" example_heap
  /\ countNodes fuel doc_ref example_heap = Ok (mkCounts 1 2 3) example_heap
  /\ getMaxDepth fuel doc_ref example_heap = Ok 3 example_heap
  /\ getElementsWithTag fuel doc_ref bold example_heap
     = Ok [bold_ref] example_heap
  /\ (exists n, example_heap !! bold_ref = Some n
                /\ data n = Element bold [world_ref]).
Proof.
  intros Hw. pose proof example_repr as Hr.
  change doc_ref with (root example_tree).
  split; [exact example_built|]. split; [|split; [|split; [|split]]].
  - unfold getAllText, with_local, bind.
    rewrite (walk_run_seq _ getAllText_visit_stable fuel example_tree
               (example_heap, []) Hr Hw).
    vm_compute. reflexivity.
  - unfold countNodes, with_local, bind.
    rewrite (walk_run_seq _ countNodes_visit_stable fuel example_tree
               (example_heap, mkCounts 0 0 0) Hr Hw).
    vm_compute. reflexivity.
  - rewrite (getMaxDepth_height fuel example_tree example_heap Hr Hw).
    reflexivity.
  - unfold getElementsWithTag. rewrite findAll_collect; [|  |exact Hr|exact Hw].
    + vm_compute. reflexivity.
    + intros r s. unfold bind, read, ret.
      destruct (heap_of s !! r); done.
  - eexists. split; [vm_compute; reflexivity|reflexivity].
Qed.

(** ** The theorems at work on the example *)

Lemma example_chain_world :
  chain example_heap world_ref [world_ref; bold_ref; red_ref; doc_ref].
Proof.
  eapply chain_up; [vm_compute; reflexivity|reflexivity|].
  eapply chain_up; [vm_compute; reflexivity|reflexivity|].
  eapply chain_up; [vm_compute; reflexivity|reflexivity|].
  eapply chain_top; [vm_compute; reflexivity|reflexivity].
Qed.

Lemma example_chain_hello :
  chain example_heap hello_ref [hello_ref; red_ref; doc_ref].
Proof.
  eapply chain_up; [vm_compute; reflexivity|reflexivity|].
  eapply chain_up; [vm_compute; reflexivity|reflexivity|].
  eapply chain_top; [vm_compute; reflexivity|reflexivity].
Qed.

Lemma example_chain_exclamation :
  chain example_heap exclamation_ref [exclamation_ref; red_ref; doc_ref].
Proof.
  eapply chain_up; [vm_compute; reflexivity|reflexivity|].
  eapply chain_up; [vm_compute; reflexivity|reflexivity|].
  eapply chain_top; [vm_compute; reflexivity|reflexivity].
Qed.

Lemma example_visitor_keeps_nodes : visitor_keeps_nodes example_visitor.
Proof. intros [] cb [= <-] r h u; reflexivity. Qed.

Lemma example_visitor_never_throws : visitor_never_throws example_visitor.
Proof. intros [] cb [= <-] r h u; exact I. Qed.

Lemma failing_predicate_stable : heap_stable failing_predicate.
Proof.
  intros r s. unfold failing_predicate. by destruct (decide (r = bold_ref)).
Qed.

Lemma transform_dispatch_witness :
  nodes example_world !! hello_ref
  = Some (mkNode (Text "Hello ") 0 6 (Some red_ref))
  /\ transform hello_ref example_transformer example_world
     = Throw (DispatchError text) example_world.
Proof.
  assert (Hn : nodes example_world !! hello_ref
               = Some (mkNode (Text "Hello ") 0 6 (Some red_ref)))
    by (vm_compute; reflexivity).
  split; [exact Hn|].
  exact (proj2 (proj2 (proj2
           (transform_dispatch example_transformer example_world hello_ref
              _ Hn))) eq_refl eq_refl).
Defined.

Lemma visit_hook_sequence_witness :
  visitor_keeps_nodes example_visitor
  /\ repr (nodes example_world) example_tree
  /\ weight example_tree <= 40
  /\ exists w',
       visit 40 doc_ref example_visitor example_world = Ok tt w'
       /\ calls w'
          = [(EnterNode, doc_ref); (EnterNode, red_ref);
             (EnterNode, hello_ref); (VisitText, hello_ref);
             (EnterNode, bold_ref);
             (EnterNode, world_ref); (VisitText, world_ref);
             (EnterNode, exclamation_ref); (VisitText, exclamation_ref)].
Proof.
  assert (Hw : weight example_tree <= 40) by (vm_compute; lia).
  split; [exact example_visitor_keeps_nodes|].
  split; [exact example_repr|]. split; [exact Hw|].
  destruct (visit_hook_sequence example_visitor example_world example_tree 40
              example_visitor_keeps_nodes example_repr Hw)
    as (_ & Hcalls & Hreturns).
  destruct (Hreturns example_visitor_never_throws) as [w' Hrun].
  exists w'. split; [exact Hrun|]. rewrite (Hcalls w' Hrun).
  vm_compute. reflexivity.
Defined.

Lemma findFirst_first_match_witness :
  repr (nodes example_world) example_tree
  /\ weight example_tree <= 40
  /\ findFirst 40 doc_ref (invoke Predicate (pure_predicate is_text))
       example_world
     = Ok (Some hello_ref)
          (record example_world
             [(Predicate, doc_ref); (Predicate, red_ref);
              (Predicate, hello_ref)]).
Proof.
  assert (Hw : weight example_tree <= 40) by (vm_compute; lia).
  split; [exact example_repr|]. split; [exact Hw|].
  destruct (findFirst_first_match is_text example_world example_tree 40
              example_repr Hw) as (_ & _ & _ & Hfirst).
  apply (Hfirst [doc_ref; red_ref] hello_ref
           [bold_ref; world_ref; exclamation_ref]).
  - reflexivity.
  - repeat constructor.
  - vm_compute. reflexivity.
Defined.

Lemma getRoot_top_witness :
  chain example_heap world_ref [world_ref; bold_ref; red_ref; doc_ref]
  /\ last [world_ref; bold_ref; red_ref; doc_ref] = Some doc_ref
  /\ example_heap !! doc_ref = Some (mkNode (Document [red_ref]) 0 0 None)
  /\ length [world_ref; bold_ref; red_ref; doc_ref] <= 10
  /\ getRoot 10 world_ref example_heap = Ok doc_ref example_heap.
Proof.
  assert (Hn : example_heap !! doc_ref
               = Some (mkNode (Document [red_ref]) 0 0 None))
    by (vm_compute; reflexivity).
  assert (Hlen : length [world_ref; bold_ref; red_ref; doc_ref] <= 10)
    by (simpl; lia).
  split; [exact example_chain_world|]. split; [reflexivity|].
  split; [exact Hn|]. split; [exact Hlen|].
  exact (proj1 (proj2
           (getRoot_top example_heap world_ref doc_ref _ _ 10
              example_chain_world eq_refl Hn Hlen)) eq_refl).
Defined.

Lemma removeChild_detaches_witness :
  example_heap !! world_ref = Some (mkNode (Text "World") 0 5 (Some bold_ref))
  /\ exists h',
       removeChild world_ref example_heap = Ok tt h'
       /\ h' !! world_ref = Some (mkNode (Text "World") 0 5 None)
       /\ h' !! bold_ref = Some (mkNode (Element bold []) 0 0 (Some red_ref)).
Proof.
  assert (Hc : example_heap !! world_ref
               = Some (mkNode (Text "World") 0 5 (Some bold_ref)))
    by (vm_compute; reflexivity).
  split; [exact Hc|].
  destruct (removeChild_detaches example_heap world_ref _ Hc)
    as (_ & Hparent & _).
  destruct (Hparent bold_ref (mkNode (Element bold [world_ref]) 0 0
                                (Some red_ref)) eq_refl)
    as (_ & _ & Hfound); [vm_compute; reflexivity|].
  destruct (Hfound [] [] eq_refl) as (Hrun & _); [apply not_elem_of_nil|].
  eexists. split; [exact Hrun|].
  split; vm_compute; reflexivity.
Defined.

Lemma cloneNode_independent_witness :
  repr example_heap example_tree
  /\ height example_tree < 10
  /\ exists h' t',
       cloneNode 10 doc_ref example_heap = Ok (root t') h'
       /\ root t' <> doc_ref
       /\ struct_eq h' example_tree t'.
Proof.
  assert (Hh : height example_tree < 10) by (vm_compute; lia).
  split; [exact example_repr|]. split; [exact Hh|].
  destruct (cloneNode_independent example_heap example_tree 10
              example_repr Hh)
    as (h' & t' & Hrun & Hne & _ & _ & _ & _ & Hseq & _).
  exists h', t'. split; [exact Hrun|]. split; [exact Hne|exact Hseq].
Defined.

Lemma getCommonAncestor_nearest_witness :
  chain (heap_of example_heap) hello_ref [hello_ref; red_ref; doc_ref]
  /\ chain (heap_of example_heap) exclamation_ref
       [exclamation_ref; red_ref; doc_ref]
  /\ length [hello_ref; red_ref; doc_ref] < 10
  /\ length [exclamation_ref; red_ref; doc_ref] < 10
  /\ getCommonAncestor 10 hello_ref exclamation_ref example_heap
     = Ok (Some red_ref) example_heap.
Proof.
  assert (Hla : length [hello_ref; red_ref; doc_ref] < 10) by (simpl; lia).
  assert (Hlb : length [exclamation_ref; red_ref; doc_ref] < 10)
    by (simpl; lia).
  split; [exact example_chain_hello|].
  split; [exact example_chain_exclamation|].
  split; [exact Hla|]. split; [exact Hlb|].
  destruct (getCommonAncestor_nearest example_heap hello_ref exclamation_ref
              _ _ 10 example_chain_hello example_chain_exclamation Hla Hlb)
    as (res & Hrun & _ & _ & Hsiblings & _).
  rewrite Hrun. f_equal.
  apply (Hsiblings red_ref (mkNode (Text "Hello ") 0 6 (Some red_ref))
           (mkNode (Text "!") 0 1 (Some red_ref))).
  - discriminate.
  - vm_compute. reflexivity.
  - reflexivity.
  - vm_compute. reflexivity.
  - reflexivity.
Defined.

Lemma example_queries_witness :
  weight example_tree <= 40
  /\ getAllText 40 doc_ref example_heap = Ok "Hello World!" example_heap
  /\ getMaxDepth 40 doc_ref example_heap = Ok 3 example_heap.
Proof.
  assert (Hw : weight example_tree <= 40) by (vm_compute; lia).
  split; [exact Hw|].
  destruct (example_queries 40 Hw) as (_ & Htext & _ & Hdepth & _).
  split; [exact Htext|exact Hdepth].
Defined.

Lemma getSiblings_excludes_self_witness :
  heap_of example_heap !! hello_ref
  = Some (mkNode (Text "Hello ") 0 6 (Some red_ref))
  /\ getSiblings hello_ref example_heap
     = Ok [bold_ref; exclamation_ref] example_heap.
Proof.
  assert (Hn : heap_of example_heap !! hello_ref
               = Some (mkNode (Text "Hello ") 0 6 (Some red_ref)))
    by (vm_compute; reflexivity).
  split; [exact Hn|].
  destruct (getSiblings_excludes_self example_heap hello_ref _ Hn)
    as (_ & Hparent & _).
  destruct (Hparent red_ref
              (mkNode (Element red [hello_ref; bold_ref; exclamation_ref])
                 0 0 (Some doc_ref)) eq_refl)
    as (_ & Hcont); [vm_compute; reflexivity|].
  destruct (Hcont _ eq_refl) as [Hrun _]. exact Hrun.
Defined.

Lemma findFirst_swallows_exceptions_witness :
  heap_stable failing_predicate
  /\ repr (heap_of example_heap) example_tree
  /\ weight example_tree <= 40
  /\ failing_predicate bold_ref example_heap
     = Throw (Raised "unsupported") example_heap
  /\ findFirst 40 doc_ref failing_predicate example_heap
     = Ok None example_heap.
Proof.
  assert (Hw : weight example_tree <= 40) by (vm_compute; lia).
  split; [exact failing_predicate_stable|].
  split; [exact example_repr|]. split; [exact Hw|].
  split; [reflexivity|].
  destruct (findFirst_swallows_exceptions failing_predicate 40 example_heap)
    as (_ & Hthrow & _).
  apply (Hthrow example_tree [doc_ref; red_ref; hello_ref] bold_ref
           [world_ref; exclamation_ref] example_heap
           (Raised "unsupported") example_heap).
  - exact failing_predicate_stable.
  - exact example_repr.
  - exact Hw.
  - reflexivity.
  - repeat (eapply rejects_cons; [reflexivity|]). apply rejects_nil.
  - reflexivity.
Defined.

(** ** Further properties: node model *)

Section NodeFacts.
Implicit Types (h : Heap).

Lemma map_children_id n cs :
  children n = Some cs -> map_children (fun _ => cs) n = n.
Proof.
  unfold children, map_children. destruct n as [[] ? ? ?]; simpl;
    intros [= <-]; reflexivity.
Qed.

Lemma set_parent_id n : set_parent (parent n) n = n.
Proof. by destruct n. Qed.

Lemma set_parent_twice p q n : set_parent p (set_parent q n) = set_parent p n.
Proof. reflexivity. Qed.

Lemma appendChild_result h p c pn cn cs :
  h !! p = Some pn -> children pn = Some cs -> h !! c = Some cn -> p <> c ->
  appendChild p c h
  = Ok tt (<[p := map_children (fun _ => cs ++ [c]) pn]>
             (<[c := set_parent (Some p) cn]> h)).
Proof.
  intros Hp Hcs Hc Hne. unfold appendChild, bind, modify, update_children.
  rewrite Hc, lookup_insert_ne, Hp, Hcs by done. do 2 f_equal.
  unfold map_children, children in *.
  destruct (data pn); inversion Hcs; subst; reflexivity.
Qed.

End NodeFacts.

(** X1: [appendChild] puts the child at the end of the parent's
    children and sets the child's [parent]; no other node changes, so a
    node that held the child before still holds it. *)
Theorem appendChild_attaches (h : Heap) (p c : ref) (pn cn : TamlNode)
    (cs : list ref) :
  h !! p = Some pn -> children pn = Some cs -> h !! c = Some cn -> p <> c ->
  exists h',
    appendChild p c h = Ok tt h'
    /\ h' !! p = Some (map_children (fun _ => cs ++ [c]) pn)
    /\ h' !! c = Some (set_parent (Some p) cn)
    /\ (forall r, r <> p -> r <> c -> h' !! r = h !! r)
    /\ (forall q qn, q <> p -> q <> c -> h !! q = Some qn ->
          c ∈ children_list qn ->
          exists qn', h' !! q = Some qn' /\ c ∈ children_list qn').
Proof.
  intros Hp Hcs Hc Hne. eexists.
  split; [by apply (appendChild_result h p c pn cn cs)|].
  split; [by rewrite lookup_insert_eq|].
  split; [by rewrite lookup_insert_ne, lookup_insert_eq|].
  assert (Hframe : forall r, r <> p -> r <> c ->
            <[p := map_children (fun _ => cs ++ [c]) pn]>
              (<[c := set_parent (Some p) cn]> h) !! r = h !! r).
  { intros r Hrp Hrc. by rewrite !lookup_insert_ne. }
  split; [exact Hframe|].
  intros q qn Hqp Hqc Hq Hin. exists qn. by rewrite Hframe.
Qed.

(** X2: appending a node to a container that does not hold it and
    removing it again leaves the store as it was, but for the node's
    [parent], which is cleared; for a node that had no parent the store
    is the same. *)
Theorem appendChild_removeChild (h : Heap) (p c : ref) (pn cn : TamlNode)
    (cs : list ref) :
  h !! p = Some pn -> children pn = Some cs -> h !! c = Some cn ->
  p <> c -> c ∉ cs ->
  (appendChild p c ;;; removeChild c) h = Ok tt (<[c := set_parent None cn]> h)
  /\ (parent cn = None -> (appendChild p c ;;; removeChild c) h = Ok tt h).
Proof.
  intros Hp Hcs Hc Hne Hni.
  assert (Hrun : (appendChild p c ;;; removeChild c) h
                 = Ok tt (<[c := set_parent None cn]> h)).
  { unfold bind. rewrite (appendChild_result h p c pn cn cs) by done.
    set (pn' := map_children (fun _ => cs ++ [c]) pn).
    assert (Hcs' : children pn' = Some (cs ++ [c])).
    { unfold pn'. by rewrite (children_map_children _ _ _ Hcs). }
    unfold removeChild, bind, read, heap_of, Heap_HasHeap.
    rewrite lookup_insert_ne, lookup_insert_eq by done. simpl.
    rewrite lookup_insert_eq.
    destruct (container_children pn' _ Hcs') as [-> ->].
    rewrite indexOf_first by done.
    unfold update_children, modify.
    rewrite lookup_insert_eq, Hcs', lookup_insert_ne, lookup_insert_ne,
      lookup_insert_eq by done.
    f_equal. apply map_eq. intros r.
    destruct (decide (r = c)) as [->|Hrc].
    - by rewrite !lookup_insert_eq.
    - rewrite (lookup_insert_ne _ c r) by done.
      rewrite (lookup_insert_ne _ c r) by done.
      destruct (decide (r = p)) as [->|Hrp].
      + rewrite lookup_insert_eq, Hp. f_equal. unfold pn'.
        rewrite map_children_compose.
        rewrite (map_children_ext _ (fun _ => cs)).
        * by apply map_children_id.
        * intros l. by rewrite delete_middle, app_nil_r.
      + by rewrite !lookup_insert_ne by done. }
  split; [exact Hrun|].
  intros Hpar. rewrite Hrun. f_equal. apply insert_id.
  rewrite Hc. f_equal. by rewrite <- Hpar, set_parent_id.
Qed.

(** X3: [removeChild] applied a second time changes nothing. *)
Theorem removeChild_twice (h h' : Heap) (child : ref) :
  removeChild child h = Ok tt h' -> removeChild child h' = Ok tt h'.
Proof.
  intros Hrun. pose proof Hrun as Hrun'.
  unfold removeChild, bind, read, modify, update_children, heap_of,
    Heap_HasHeap in Hrun.
  destruct (h !! child) as [c|] eqn:Hc; [|done].
  destruct (parent c) as [p|] eqn:Hp; [|by inversion Hrun; subst].
  destruct (h !! p) as [pn|] eqn:Hpn; [|done].
  destruct (isDocumentNode pn || isElementNode pn);
    [|by inversion Hrun; subst].
  destruct (indexOf (children_list pn) child);
    [|by inversion Hrun; subst].
  rewrite Hpn in Hrun. destruct (children pn); [|discriminate].
  destruct (<[p:=_]> h !! child) as [c'|] eqn:Hc'; [|done].
  inversion Hrun; subst.
  unfold removeChild, bind, read, heap_of, Heap_HasHeap.
  by rewrite lookup_insert_eq.
Qed.

(** X4: [replaceChild] changes nothing when the old child is not
    among the parent's children; otherwise it puts the new child at the
    position of the first occurrence of the old one, all other
    positions and the number of children staying the same, sets the new
    child's [parent] and clears the old child's. *)
Theorem replaceChild_in_place (h : Heap) (p old new : ref) (pn : TamlNode)
    (cs : list ref) :
  h !! p = Some pn -> children pn = Some cs ->
  (old ∉ cs -> replaceChild p old new h = Ok tt h)
  /\ (forall l1 l2 on nn,
        cs = l1 ++ old :: l2 -> old ∉ l1 ->
        h !! old = Some on -> h !! new = Some nn ->
        p <> old -> p <> new ->
        exists h',
          replaceChild p old new h = Ok tt h'
          /\ h' !! p = Some (map_children (fun _ => l1 ++ new :: l2) pn)
          /\ length (l1 ++ new :: l2) = length cs
          /\ h' !! new = Some (set_parent (Some p) nn)
          /\ (old <> new -> h' !! old = Some (set_parent None on))
          /\ (forall r, r <> p -> r <> old -> r <> new -> h' !! r = h !! r)).
Proof.
  intros Hp Hcs. split.
  - intros Hni. unfold replaceChild, bind, read, heap_of, Heap_HasHeap.
    rewrite Hp, Hcs. by rewrite indexOf_absent.
  - intros l1 l2 on nn -> Hni Hold Hnew Hpo Hpn.
    unfold replaceChild, bind, read, modify, update_children, heap_of,
      Heap_HasHeap.
    rewrite Hp, Hcs, indexOf_first, Hold by done.
    set (h1 := <[old := set_parent None on]> h).
    assert (Hnew1 : exists nn1, h1 !! new = Some nn1
                      /\ set_parent (Some p) nn1 = set_parent (Some p) nn).
    { unfold h1. destruct (decide (new = old)) as [->|Hne].
      - rewrite lookup_insert_eq. eexists. split; [done|].
        assert (on = nn) as -> by congruence. reflexivity.
      - rewrite lookup_insert_ne by done. eauto. }
    destruct Hnew1 as (nn1 & -> & Hnn1). rewrite Hnn1.
    assert (Hp2 : <[new := set_parent (Some p) nn]> h1 !! p = Some pn).
    { unfold h1. by rewrite !lookup_insert_ne by done. }
    rewrite Hp2, Hcs.
    assert (map_children (fun l => <[length l1 := new]> l) pn
            = map_children (fun _ => l1 ++ new :: l2) pn) as ->.
    { unfold map_children, children in *.
      destruct (data pn); inversion Hcs; subst; try done;
        by rewrite insert_app_r_alt, Nat.sub_diag by lia. }
    eexists. split; [reflexivity|].
    split; [by rewrite lookup_insert_eq|].
    split; [rewrite !length_app; simpl; lia|].
    split; [by rewrite lookup_insert_ne, lookup_insert_eq|].
    split.
    + intros Hne. unfold h1.
      by rewrite !lookup_insert_ne, lookup_insert_eq by done.
    + intros r Hrp Hro Hrn. unfold h1. by rewrite !lookup_insert_ne by done.
Qed.

Section DepthFacts.
Context {Σ : Type} `{HasHeap Σ}.

Lemma getAncestors_loop_chain h r l :
  chain h r l ->
  forall fuel acc s, heap_of s = h -> length l < fuel ->
    getAncestors_loop fuel (Some r) acc s = Ok (acc ++ l) s.
Proof.
  induction 1 as [r n Hn Hp|r n p l Hn Hp Hl IH];
    intros fuel acc s Hs Hfuel;
    (destruct fuel as [|fuel]; [simpl in Hfuel; lia|]);
    simpl; unfold bind, read; rewrite Hs, Hn, Hp.
  - destruct fuel; [simpl in Hfuel; lia|]. reflexivity.
  - rewrite IH; [|done|simpl in Hfuel; lia]. by rewrite <- app_assoc.
Qed.

Lemma getDepth_loop_chain h r l :
  chain h r l ->
  forall fuel d s, heap_of s = h -> length l < fuel ->
    getDepth_loop fuel (Some r) d s = Ok (d + length l) s.
Proof.
  induction 1 as [r n Hn Hp|r n p l Hn Hp Hl IH];
    intros fuel d s Hs Hfuel;
    (destruct fuel as [|fuel]; [simpl in Hfuel; lia|]);
    simpl; unfold bind, read; rewrite Hs, Hn, Hp.
  - destruct fuel; [simpl in Hfuel; lia|]. unfold ret. f_equal. lia.
  - rewrite IH; [|done|simpl in Hfuel; lia]. f_equal. lia.
Qed.

Lemma chain_NoDup h r l : chain h r l -> NoDup l.
Proof.
  induction 1 as [r n Hn Hp|r n p l Hn Hp Hl IH].
  - apply NoDup_singleton.
  - apply NoDup_cons. split; [by eapply chain_acyclic|done].
Qed.

End DepthFacts.

(** X5: [getAncestors] returns the proper ancestors of a node, nearest
    first, and [getDepth] their number; for a node without parent they
    are the empty sequence and 0. *)
Theorem getDepth_counts_ancestors {Σ : Type} `{HasHeap Σ} (s : Σ)
    (node : ref) (l : list ref) (fuel : nat) :
  chain (heap_of s) node l -> length l <= fuel ->
  getAncestors fuel node s = Ok (tail l) s
  /\ getDepth fuel node s = Ok (length (tail l)) s
  /\ (forall a, a ∈ tail l
                <-> ancestor_or_self (heap_of s) a node /\ a <> node)
  /\ (forall n, heap_of s !! node = Some n -> parent n = None ->
        getAncestors fuel node s = Ok [] s /\ getDepth fuel node s = Ok 0 s).
Proof.
  intros Hc Hfuel.
  assert (Hrun : getAncestors fuel node s = Ok (tail l) s
                 /\ getDepth fuel node s = Ok (length (tail l)) s).
  { unfold getAncestors, getDepth, bind, read.
    inversion Hc as [r n Hn Hp|r n p l' Hn Hp Hl]; subst; rewrite Hn, Hp.
    - destruct fuel; [simpl in Hfuel; lia|]. done.
    - simpl in *.
      rewrite (getAncestors_loop_chain _ p l' Hl),
        (getDepth_loop_chain _ p l' Hl) by (done || lia). done. }
  destruct Hrun as [Hanc Hdepth].
  split; [exact Hanc|]. split; [exact Hdepth|]. split.
  - intros a. rewrite (chain_ancestors _ node l a Hc).
    destruct (chain_nonempty _ _ _ Hc) as [l' ->]. simpl.
    pose proof (chain_NoDup _ _ _ Hc) as Hnd.
    apply NoDup_cons in Hnd as [Hni _]. rewrite elem_of_cons. split.
    + intros Ha. split; [by right|]. by intros ->.
    + by intros [[->|?] ?].
  - intros n Hn Hp. inversion Hc; subst; [|congruence].
    by rewrite Hanc, Hdepth.
Qed.

(** X7: every node of a chain of ancestors has the same root: [getRoot]
    of a node and of any of its ancestors end alike, and [getRoot] of
    the root it returns is that root. *)
Theorem getRoot_shared (h : Heap) (node : ref) (l : list ref) (fuel : nat) :
  chain h node l -> length l <= fuel ->
  (forall a, ancestor_or_self h a node ->
     getRoot fuel a h = getRoot fuel node h)
  /\ (forall r h', getRoot fuel node h = Ok r h' ->
        getRoot fuel r h = Ok r h).
Proof.
  intros Hc Hfuel.
  assert (Hsame : forall a, ancestor_or_self h a node ->
            getRoot fuel a h = getRoot fuel node h).
  { intros a Ha. apply (chain_ancestors h node l a Hc) in Ha.
    destruct (chain_suffix h node l a Hc Ha) as (l1 & l2 & -> & Ha2).
    destruct (climb_chain h node _ Hc fuel Hfuel) as (top & Hlast & Hclimb).
    destruct (climb_chain h a l2 Ha2 fuel) as (top' & Hlast' & Hclimb').
    { rewrite length_app in Hfuel. lia. }
    assert (top' = top) as ->.
    { destruct (chain_nonempty _ _ _ Ha2) as [l2' ->].
      rewrite last_app in Hlast. rewrite Hlast' in Hlast. congruence. }
    unfold getRoot, bind. by rewrite Hclimb, Hclimb'. }
  split; [exact Hsame|].
  intros r h' Hroot. pose proof Hroot as Hroot'.
  destruct (climb_chain h node _ Hc fuel Hfuel) as (top & Hlast & Hclimb).
  unfold getRoot, bind, read in Hroot'. rewrite Hclimb in Hroot'.
  destruct (heap_of h !! top); [|done].
  destruct (negb _); inversion Hroot'; subst.
  rewrite <- Hroot. apply Hsame.
  apply (chain_ancestors _ node l r Hc).
  by apply last_Some_elem_of.
Qed.

(** ** Further properties: factories *)

(** X6: [createElement] and [createDocument] make a new node with the
    given tag and span and no parent, whose children are the given
    nodes in the given order; each child's [parent] becomes the new
    node; no other node changes.  Without children argument the new
    node has no children. *)
Theorem factories_adopt (h : Heap) (tag : TamlTag) (cs : list ref)
    (s e : option Z) :
  Forall (fun c => is_Some (h !! c)) cs ->
  let fresh_ref := fresh (dom h) in
  h !! fresh_ref = None
  /\ (exists h',
        createElement tag (Some cs) s e h = Ok fresh_ref h'
        /\ h' !! fresh_ref
           = Some (mkNode (Element tag cs) (default 0%Z s) (default 0%Z e)
                     None)
        /\ (forall c, c ∈ cs ->
              h' !! c = set_parent (Some fresh_ref) <$> h !! c)
        /\ (forall r, r <> fresh_ref -> r ∉ cs -> h' !! r = h !! r))
  /\ (exists h',
        createDocument (Some cs) s e h = Ok fresh_ref h'
        /\ h' !! fresh_ref
           = Some (mkNode (Document cs) (default 0%Z s) (default 0%Z e) None)
        /\ (forall c, c ∈ cs ->
              h' !! c = set_parent (Some fresh_ref) <$> h !! c)
        /\ (forall r, r <> fresh_ref -> r ∉ cs -> h' !! r = h !! r))
  /\ createElement tag None s e h
     = Ok fresh_ref
         (<[fresh_ref := mkNode (Element tag []) (default 0%Z s)
                           (default 0%Z e) None]> h)
  /\ createDocument None s e h
     = Ok fresh_ref
         (<[fresh_ref := mkNode (Document []) (default 0%Z s)
                           (default 0%Z e) None]> h).
Proof.
  intros Hcs fresh_ref.
  split; [apply not_elem_of_dom, is_fresh|].
  split; [|split; [|split; reflexivity]].
  - destruct (create_spec
                (mkNode (Element tag []) (default 0%Z s) (default 0%Z e) None)
                cs h eq_refl Hcs) as (h' & Hrun & _ & Hother & Hkids & Hown).
    exists h'. split; [exact Hrun|]. split; [exact Hown|].
    split; [exact Hkids|exact Hother].
  - destruct (create_spec
                (mkNode (Document []) (default 0%Z s) (default 0%Z e) None)
                cs h eq_refl Hcs) as (h' & Hrun & _ & Hother & Hkids & Hown).
    exists h'. split; [exact Hrun|]. split; [exact Hown|].
    split; [exact Hkids|exact Hother].
Qed.

(** ** Further properties: traversal *)

Section FlattenFacts.
Context {Σ : Type} `{HasHeap Σ}.

Lemma flatten_visit_stable : heap_stable (flatten_visit (Σ := Σ)).
Proof. intros r [s l]. reflexivity. Qed.

Lemma run_flatten_visit l (s : Σ) acc :
  run_seq flatten_visit l (s, acc) = Ok tt (s, acc ++ l).
Proof.
  revert acc. induction l as [|x l IH]; intros acc; simpl.
  - unfold ret. by rewrite app_nil_r.
  - unfold bind, flatten_visit, set_local. simpl. rewrite IH.
    by rewrite <- app_assoc.
Qed.

Lemma flatten_run fuel t (s : Σ) :
  repr (heap_of s) t -> weight t <= fuel ->
  flatten fuel (root t) s = Ok (preorder t) s.
Proof.
  intros Hr Hw. unfold flatten, with_local, bind, get_local.
  rewrite (walk_run_seq _ flatten_visit_stable fuel t (s, []) Hr Hw).
  by rewrite run_flatten_visit.
Qed.

Lemma collect_sublist (p : ref -> M Σ bool) l :
  forall s res s', collect p l s = Ok res s' -> sublist res l.
Proof.
  induction l as [|x l IH]; intros s res s' Hrun; simpl in Hrun.
  - inversion Hrun; subst. constructor.
  - unfold bind in Hrun. destruct (p x s) as [b s1|? ?| |]; try done.
    destruct (collect p l s1) as [rest s2|? ?| |] eqn:Hrest; try done.
    inversion Hrun; subst. apply IH in Hrest.
    destruct b; by constructor.
Qed.

(** A predicate that only reads the node. *)
Lemma reader_stable (f : TamlNode -> bool) :
  heap_stable (fun node : ref => n <- read (Σ := Σ) node ;; ret (f n)).
Proof.
  intros r s. unfold bind, read, ret. by destruct (heap_of s !! r).
Qed.

Lemma collect_reader (f : TamlNode -> bool) l (s : Σ) :
  Forall (fun r => is_Some (heap_of s !! r)) l ->
  collect (fun node => n <- read node ;; ret (f n)) l s
  = Ok (List.filter (fun r => match heap_of s !! r with
                              | Some n => f n
                              | None => false
                              end) l) s.
Proof.
  induction 1 as [|x l [n Hn] _ IH]; simpl; [reflexivity|].
  unfold bind, read, ret in *. rewrite Hn, IH. by destruct (f n).
Qed.

Lemma findAll_reader (f : TamlNode -> bool) fuel t (s : Σ) :
  repr (heap_of s) t -> weight t <= fuel ->
  findAll fuel (root t) (fun node => n <- read node ;; ret (f n)) s
  = Ok (List.filter (fun r => match heap_of s !! r with
                              | Some n => f n
                              | None => false
                              end) (preorder t)) s.
Proof.
  intros Hr Hw. rewrite findAll_collect; [|apply reader_stable|done|done].
  apply collect_reader. by apply repr_allocated.
Qed.

Lemma run_countNodes_visit l (s : Σ) c :
  Forall (fun r => is_Some (heap_of s !! r)) l ->
  run_seq countNodes_visit l (s, c)
  = Ok tt (s, mkCounts
                (document_count c + document_count (tally (heap_of s) l))
                (element_count c + element_count (tally (heap_of s) l))
                (text_count c + text_count (tally (heap_of s) l))).
Proof.
  intros Hl. revert c.
  induction Hl as [|x l [n Hn] _ IH]; intros c; simpl.
  - unfold ret. destruct c. simpl. by rewrite !Nat.add_0_r.
  - unfold bind at 1, countNodes_visit, bind, read, set_local.
    change (heap_of (s, c)) with (heap_of s). rewrite Hn.
    assert (Hty : forall ty, has_type (heap_of s) ty x
                             = bool_decide (type n = ty)).
    { intros ty. unfold has_type. by rewrite Hn. }
    unfold tally. cbn [List.filter]. rewrite !Hty.
    unfold isDocumentNode, isElementNode, isTextNode.
    destruct (type n); simpl; rewrite IH; simpl; do 2 f_equal;
      f_equal; lia.
Qed.

Lemma countNodes_tally fuel t (s : Σ) :
  repr (heap_of s) t -> weight t <= fuel ->
  countNodes fuel (root t) s = Ok (tally (heap_of s) (preorder t)) s.
Proof.
  intros Hr Hw. unfold countNodes, with_local, bind, get_local.
  rewrite (walk_run_seq _ countNodes_visit_stable fuel t
             (s, mkCounts 0 0 0) Hr Hw).
  rewrite run_countNodes_visit by by apply repr_allocated.
  reflexivity.
Qed.

End FlattenFacts.

(** X8: [flatten] returns the nodes of the tree in depth-first
    pre-order, and [findAll] returns a subsequence of them, whatever
    the predicate answers. *)
Theorem flatten_preorder {Σ : Type} `{HasHeap Σ} (s : Σ) (t : Tree)
    (fuel : nat) :
  repr (heap_of s) t -> weight t <= fuel ->
  flatten fuel (root t) s = Ok (preorder t) s
  /\ (forall (p : ref -> M Σ bool) res s',
        heap_stable p -> findAll fuel (root t) p s = Ok res s' ->
        sublist res (preorder t)).
Proof.
  intros Hr Hw. split; [by apply flatten_run|].
  intros p res s' Hp Hrun. rewrite findAll_collect in Hrun by done.
  by eapply collect_sublist.
Qed.

Section CountFacts.
Context {Σ : Type} `{HasHeap Σ}.

Lemma tally_total h l :
  Forall (fun r => is_Some (h !! r)) l ->
  document_count (tally h l) + element_count (tally h l)
  + text_count (tally h l) = length l.
Proof.
  induction 1 as [|x l [n Hn] _ IH]; [reflexivity|].
  assert (Hty : forall ty, has_type h ty x = bool_decide (type n = ty)).
  { intros ty. unfold has_type. by rewrite Hn. }
  unfold tally in *. cbn [List.filter]. rewrite !Hty. simpl in *.
  destruct (type n); simpl; lia.
Qed.

Lemma filter_type_test h ty (f : TamlNode -> bool) l :
  (forall n, f n = bool_decide (type n = ty)) ->
  List.filter (fun r => match h !! r with
                        | Some n => f n
                        | None => false
                        end) l
  = List.filter (has_type h ty) l.
Proof.
  intros Hf. apply List.filter_ext. intros r. unfold has_type.
  destruct (h !! r); [apply Hf|reflexivity].
Qed.

End CountFacts.

(** X9: [countNodes] agrees with the collecting queries: its text
    count is the number of nodes [getTextNodes] returns, its element
    count the number [getElementNodes] returns, and the three counts
    add up to the number of nodes [flatten] returns; no node is
    returned as both text and element. *)
Theorem countNodes_consistent {Σ : Type} `{HasHeap Σ} (s : Σ) (t : Tree)
    (fuel : nat) :
  repr (heap_of s) t -> weight t <= fuel ->
  exists c texts elements all,
    countNodes fuel (root t) s = Ok c s
    /\ getTextNodes fuel (root t) s = Ok texts s
    /\ getElementNodes fuel (root t) s = Ok elements s
    /\ flatten fuel (root t) s = Ok all s
    /\ text_count c = length texts
    /\ element_count c = length elements
    /\ document_count c + element_count c + text_count c = length all
    /\ (forall r, r ∈ texts -> r ∉ elements).
Proof.
  intros Hr Hw.
  exists (tally (heap_of s) (preorder t)),
    (List.filter (has_type (heap_of s) text) (preorder t)),
    (List.filter (has_type (heap_of s) element) (preorder t)),
    (preorder t).
  split; [by apply countNodes_tally|].
  split.
  { unfold getTextNodes. rewrite findAll_reader by done.
    by rewrite (filter_type_test _ text). }
  split.
  { unfold getElementNodes. rewrite findAll_reader by done.
    by rewrite (filter_type_test _ element). }
  split; [by apply flatten_run|].
  split; [reflexivity|]. split; [reflexivity|].
  split; [by apply tally_total, repr_allocated|].
  intros r Ht He.
  apply list_elem_of_In, List.filter_In in Ht as [_ Ht].
  apply list_elem_of_In, List.filter_In in He as [_ He].
  unfold has_type in *. destruct (heap_of s !! r) as [n|]; [|done].
  apply bool_decide_eq_true in Ht, He. congruence.
Qed.

Section TextFacts.
Context {Σ : Type} `{HasHeap Σ}.

Lemma append_empty_r (a : string) : a +:+ "" = a.
Proof.
  induction a as [|c a IH]; [done|].
  change (String c a +:+ "") with (String c (a +:+ "")). by rewrite IH.
Qed.

Lemma append_assoc (a b c : string) : (a +:+ b) +:+ c = a +:+ (b +:+ c).
Proof.
  induction a as [|x a IH]; [done|].
  change (String x (a +:+ b) +:+ c = String x (a +:+ (b +:+ c))).
  change (String x ((a +:+ b) +:+ c) = String x (a +:+ (b +:+ c))).
  by rewrite IH.
Qed.

Lemma concat_cons (x : string) xs :
  String.concat "" (x :: xs) = x +:+ String.concat "" xs.
Proof. destruct xs; [symmetry; apply append_empty_r|reflexivity]. Qed.

Lemma concat_app (l1 l2 : list string) :
  String.concat "" (l1 ++ l2)
  = String.concat "" l1 +:+ String.concat "" l2.
Proof.
  induction l1 as [|x l1 IH]; [done|].
  change ((x :: l1) ++ l2) with (x :: (l1 ++ l2)).
  by rewrite !concat_cons, IH, append_assoc.
Qed.

Lemma run_getAllText_visit l (s : Σ) acc :
  Forall (fun r => is_Some (heap_of s !! r)) l ->
  run_seq getAllText_visit l (s, acc)
  = Ok tt (s, acc ++ flat_map (text_parts (heap_of s)) l).
Proof.
  intros Hl. revert acc.
  induction Hl as [|x l [n Hn] _ IH]; intros acc; simpl.
  - unfold ret. by rewrite app_nil_r.
  - unfold bind at 1, getAllText_visit, bind, read, set_local.
    change (heap_of (s, acc)) with (heap_of s). rewrite Hn.
    unfold text_parts at 1. rewrite Hn.
    destruct (data n); simpl; rewrite IH; try done.
    by rewrite <- app_assoc.
Qed.

(** The texts met in pre-order, put together, are the text of the
    tree. *)
Lemma text_parts_all_text h t :
  repr h t ->
  String.concat "" (flat_map (text_parts h) (preorder t)) = all_text h t.
Proof.
  induction 1 as [r n ks Hn Hcs Hks IH] using repr_ind'.
  cbn [preorder flat_map all_text]. unfold text_parts at 1. rewrite Hn.
  assert (Hkids : String.concat ""
                    (flat_map (text_parts h) (flat_map preorder ks))
                  = String.concat "" (map (all_text h) ks)).
  { clear Hcs Hks. induction IH as [|k ks Hk _ IHks]; [done|].
    cbn [flat_map map]. rewrite flat_map_app, concat_app, concat_cons.
    by rewrite Hk, IHks. }
  destruct (data n) as [cs|tag cs|c] eqn:Hd; simpl; try exact Hkids.
  unfold children_list, children in Hcs. rewrite Hd in Hcs.
  apply map_root_nil in Hcs as ->. reflexivity.
Qed.

(** [getAllText] joins the contents of the text nodes in pre-order. *)
Lemma getAllText_run fuel t (s : Σ) :
  repr (heap_of s) t -> weight t <= fuel ->
  getAllText fuel (root t) s
  = Ok (String.concat "" (flat_map (text_parts (heap_of s)) (preorder t))) s.
Proof.
  intros Hr Hw. unfold getAllText, with_local, bind, get_local, ret.
  rewrite (walk_run_seq _ getAllText_visit_stable fuel t (s, []) Hr Hw).
  by rewrite run_getAllText_visit by by apply repr_allocated.
Qed.

End TextFacts.

(** X10: [getAllText] is the text of the tree: the content of a text
    node; for a document or element the texts of its children put
    together in order, with nothing in between. *)
Theorem getAllText_text {Σ : Type} `{HasHeap Σ} (s : Σ) (t : Tree)
    (fuel : nat) :
  repr (heap_of s) t -> weight t <= fuel ->
  getAllText fuel (root t) s = Ok (all_text (heap_of s) t) s.
Proof.
  intros Hr Hw. rewrite getAllText_run by done.
  by rewrite text_parts_all_text.
Qed.

Section DepthMapFacts.
Context {Σ : Type} `{HasHeap Σ}.

Lemma insert_all_app l1 l2 m :
  insert_all (l1 ++ l2) m = insert_all l2 (insert_all l1 m).
Proof. unfold insert_all. apply foldl_app. Qed.

(** [depth_traverse] writes the nodes with their depths in
    pre-order. *)
Lemma depth_traverse_depths :
  forall fuel t (s : Σ) d m,
    repr (heap_of s) t -> weight t <= fuel ->
    depth_traverse fuel (root t) d (s, m)
    = Ok tt (s, insert_all (depths t d) m).
Proof.
  induction fuel as [|fuel IH]; intros [r ks] s d m Hr Hw.
  { simpl in Hw. lia. }
  inversion Hr as [r' n ks' Hn Hcs Hks]; subst. simpl in Hw.
  cbn [depth_traverse root depths]. unfold bind, set_local, read.
  cbn [fst snd]. change (heap_of (s, <[r:=d]> m)) with (heap_of s).
  rewrite Hn.
  assert (Hkids : forall ks' m0,
            (forall k, In k ks' -> In k ks) ->
            run_seq (fun k => depth_traverse fuel (root k) (d + 1)) ks'
              (s, m0)
            = Ok tt (s, insert_all
                          (flat_map (fun k => depths k (S d)) ks') m0)).
  { induction ks' as [|k ks' IHks]; intros m0 Hsub; simpl; [done|].
    unfold bind. rewrite IH.
    + rewrite IHks by (intros; apply Hsub; by right).
      rewrite insert_all_app. by rewrite Nat.add_1_r.
    + eapply Forall_forall in Hks; [exact Hks|].
      apply list_elem_of_In, Hsub. by left.
    + pose proof (weight_kid k ks (Hsub k (or_introl eq_refl))). lia. }
  change (insert_all ((r, d) :: ?l) m) with (insert_all l (<[r:=d]> m)).
  destruct (isDocumentNode n || isElementNode n) eqn:Hc.
  - rewrite (for_of_run_seq _ r n (map root ks) fuel [] (s, <[r:=d]> m));
      try done.
    + by rewrite run_seq_map, Hkids.
    + rewrite length_map. pose proof (weight_length ks). lia.
    + intros c [s' m'] Hc' Hs'. apply in_map_iff in Hc' as (k & <- & Hk).
      rewrite IH.
      * done.
      * change (heap_of s' = heap_of s) in Hs'. rewrite Hs'.
        by eapply Forall_forall in Hks; [|apply list_elem_of_In].
      * pose proof (weight_kid k ks Hk). lia.
  - rewrite (leaf_no_children n Hc) in Hcs.
    apply map_root_nil in Hcs as ->. reflexivity.
Qed.

Lemma depths_nodes t d : map fst (depths t d) = preorder t.
Proof.
  revert d. induction t as [r ks IH] using Tree_ind'. intros d. simpl.
  f_equal. induction IH as [|k ks Hk _ IHks]; simpl; [done|].
  by rewrite map_app, Hk, IHks.
Qed.

Lemma depths_bound t d :
  Forall (fun e => d <= snd e /\ snd e <= d + height t) (depths t d).
Proof.
  revert d. induction t as [r ks IH] using Tree_ind'. intros d.
  cbn [depths height]. constructor; [simpl; lia|].
  induction IH as [|k ks Hk _ IHks]; simpl; [done|].
  apply Forall_app. split.
  - eapply Forall_impl; [apply (Hk (S d))|]. simpl. intros e [? ?]. lia.
  - eapply Forall_impl; [exact IHks|]. simpl. intros e [? ?]. lia.
Qed.

Lemma depths_deepest t d : exists r, (r, d + height t) ∈ depths t d.
Proof.
  revert d. induction t as [r ks IH] using Tree_ind'. intros d.
  cbn [depths height].
  destruct ks as [|k0 ks0]; [exists r; simpl; rewrite Nat.add_0_r; by left|].
  assert (Hmax : exists k, k ∈ k0 :: ks0
            /\ list_max (map (fun k => S (height k)) (k0 :: ks0))
               = S (height k)).
  { clear IH. generalize k0. induction ks0 as [|k1 ks1 IHk]; intros k.
    - exists k. split; [by left|]. simpl. lia.
    - destruct (IHk k1) as (k' & Hk' & Hmax). simpl in *.
      destruct (Nat.max_spec (S (height k))
                  (Nat.max (S (height k1))
                     (list_max (map (fun k => S (height k)) ks1))))
        as [[? ->]|[? ->]].
      + exists k'. split; [by right|]. done.
      + exists k. split; [by left|]. done. }
  destruct Hmax as (k & Hk & ->).
  eapply Forall_forall in IH; [|exact Hk].
  destruct (IH (S d)) as [x Hx]. exists x. apply elem_of_cons. right.
  apply list_elem_of_In, in_flat_map. exists k.
  rewrite <- !list_elem_of_In. split; [done|].
  by replace (d + S (height k)) with (S d + height k) by lia.
Qed.

Lemma height_lt_size t : height t < length (preorder t).
Proof.
  induction t as [r ks IH] using Tree_ind'. cbn [height preorder length].
  apply Nat.lt_succ_r.
  induction IH as [|k ks Hk _ IHks]; simpl; [lia|].
  rewrite length_app. lia.
Qed.

Lemma insert_all_lookup l :
  forall m r d, insert_all l m !! r = Some d ->
    (r, d) ∈ l \/ m !! r = Some d.
Proof.
  induction l as [|[x dx] l IH]; intros m r d Hm; [by right|].
  simpl in Hm. apply IH in Hm as [Hm|Hm]; [left; by right|].
  destruct (decide (x = r)) as [->|Hne].
  - rewrite lookup_insert_eq in Hm. inversion Hm; subst. left. by left.
  - rewrite lookup_insert_ne in Hm by done. by right.
Qed.

Lemma insert_all_fresh l :
  forall m r, r ∉ map fst l -> insert_all l m !! r = m !! r.
Proof.
  induction l as [|[x dx] l IH]; intros m r Hr; [done|].
  simpl in *. apply not_elem_of_cons in Hr as [Hne Hr].
  rewrite IH by done. by rewrite lookup_insert_ne.
Qed.

Lemma insert_all_member l :
  NoDup (map fst l) ->
  forall m r d, (r, d) ∈ l -> insert_all l m !! r = Some d.
Proof.
  induction l as [|[x dx] l IH]; intros Hnd m r d Hin; [by inversion Hin|].
  simpl in *. apply NoDup_cons in Hnd as [Hx Hnd].
  apply elem_of_cons in Hin as [[= -> ->]|Hin].
  - rewrite insert_all_fresh by done. by rewrite lookup_insert_eq.
  - by apply IH.
Qed.

End DepthMapFacts.

(** X11: [getMaxDepth] is the length of the longest path from the
    root down to a node: 0 for a node without children, and always
    less than the number of nodes. *)
Theorem getMaxDepth_longest_path {Σ : Type} `{HasHeap Σ} (s : Σ) (t : Tree)
    (fuel : nat) :
  repr (heap_of s) t -> weight t <= fuel ->
  getMaxDepth fuel (root t) s = Ok (height t) s
  /\ (kids t = [] -> getMaxDepth fuel (root t) s = Ok 0 s)
  /\ height t < length (preorder t).
Proof.
  intros Hr Hw.
  pose proof (getMaxDepth_height fuel t s Hr Hw) as Hrun.
  split; [exact Hrun|]. split.
  - intros Hk. rewrite Hrun. destruct t as [r ks]. simpl in Hk. by subst.
  - apply height_lt_size.
Qed.

(** X12: [createDepthMap] maps the nodes of the tree, and nothing
    else, to their depth below the root: the root to 0, no node deeper
    than [getMaxDepth], and some node to exactly that depth. *)
Theorem createDepthMap_depths {Σ : Type} `{HasHeap Σ} (s : Σ) (t : Tree)
    (fuel : nat) :
  repr (heap_of s) t -> weight t <= fuel -> NoDup (preorder t) ->
  exists m,
    createDepthMap fuel (root t) s = Ok m s
    /\ (forall r d, m !! r = Some d <-> (r, d) ∈ depths t 0)
    /\ (forall r, is_Some (m !! r) <-> r ∈ preorder t)
    /\ m !! root t = Some 0
    /\ (forall r d, m !! r = Some d -> d <= height t)
    /\ (exists r, m !! r = Some (height t))
    /\ getMaxDepth fuel (root t) s = Ok (height t) s.
Proof.
  intros Hr Hw Hnd. exists (insert_all (depths t 0) ∅).
  assert (Hnd' : NoDup (map fst (depths t 0))) by by rewrite depths_nodes.
  assert (Hiff : forall r d, insert_all (depths t 0) ∅ !! r = Some d
                             <-> (r, d) ∈ depths t 0).
  { intros r d. split.
    - intros [Hin|Habs]%insert_all_lookup; [done|].
      by rewrite lookup_empty in Habs.
    - by apply insert_all_member. }
  split.
  { unfold createDepthMap, with_local, bind, get_local.
    by rewrite depth_traverse_depths. }
  split; [exact Hiff|]. split; [|split; [|split; [|split]]].
  - intros r. rewrite <- (depths_nodes t 0). split.
    + intros [d Hd]. apply Hiff in Hd.
      by apply (list_elem_of_fmap_2 fst) in Hd.
    + intros ([r' d] & -> & Hin)%list_elem_of_fmap. exists d. by apply Hiff.
  - apply Hiff. destruct t. simpl. by left.
  - intros r d Hd%Hiff. pose proof (depths_bound t 0) as Hb.
    eapply Forall_forall in Hb; [|exact Hd]. simpl in Hb. lia.
  - destruct (depths_deepest t 0) as [r Hin]. exists r. by apply Hiff.
  - by apply getMaxDepth_height.
Qed.

Section ContainsFacts.
Context {Σ : Type} `{HasHeap Σ}.

(** The searching iteration over the children, for a body that
    changes nothing. *)
Lemma for_of_some_existsb (body : ref -> M Σ bool) (g : Tree -> bool)
    owner n (s : Σ) ks :
  forall steps seen,
    heap_of s !! owner = Some n ->
    children_list n = seen ++ map root ks ->
    length ks < steps ->
    (forall k, In k ks -> body (root k) s = Ok (g k) s) ->
    for_of_some steps owner (length seen) body s = Ok (existsb g ks) s.
Proof.
  induction ks as [|k ks IH]; intros steps seen Hn Hcs Hlen Hbody.
  - destruct steps; [simpl in Hlen; lia|]. simpl.
    unfold bind, read. rewrite Hn.
    rewrite Hcs, app_nil_r, lookup_ge_None_2 by lia. reflexivity.
  - destruct steps; [simpl in Hlen; lia|]. simpl.
    unfold bind, read. rewrite Hn.
    assert (children_list n !! length seen = Some (root k)) as ->.
    { rewrite Hcs. simpl. by rewrite list_lookup_middle. }
    rewrite (Hbody k (or_introl eq_refl)).
    destruct (g k); [reflexivity|]. simpl.
    replace (S (length seen)) with (length (seen ++ [root k]))
      by (rewrite length_app; simpl; lia).
    apply IH; [done| |simpl in Hlen; lia|].
    + rewrite Hcs. simpl. by rewrite <- app_assoc.
    + intros k' Hk'. apply Hbody. by right.
Qed.

Lemma existsb_in_kids (d : ref) ks :
  existsb (fun k => bool_decide (d ∈ preorder k)) ks
  = bool_decide (d ∈ flat_map preorder ks).
Proof.
  induction ks as [|k ks IH]; simpl.
  - reflexivity.
  - rewrite IH. destruct (decide (d ∈ preorder k)) as [Hin|Hni].
    + rewrite (bool_decide_eq_true_2 _ Hin). simpl. symmetry.
      apply bool_decide_eq_true_2, elem_of_app. by left.
    + rewrite (bool_decide_eq_false_2 _ Hni). simpl.
      apply bool_decide_ext. rewrite elem_of_app. tauto.
Qed.

Lemma contains_run :
  forall fuel t (s : Σ) d,
    repr (heap_of s) t -> weight t <= fuel ->
    contains fuel (root t) d s = Ok (bool_decide (d ∈ preorder t)) s.
Proof.
  induction fuel as [|fuel IH]; intros [r ks] s d Hr Hw.
  { simpl in Hw. lia. }
  inversion Hr as [r' n ks' Hn Hcs Hks]; subst. simpl in Hw.
  cbn [contains root preorder].
  destruct (decide (r = d)) as [->|Hne].
  { rewrite bool_decide_eq_true_2; [done|]. apply elem_of_cons. by left. }
  unfold bind, read. rewrite Hn.
  destruct (isDocumentNode n || isElementNode n) eqn:Hc.
  - rewrite (for_of_some_existsb _
               (fun k => bool_decide (d ∈ preorder k)) r n s ks fuel []).
    + rewrite existsb_in_kids. f_equal. apply bool_decide_ext.
      rewrite elem_of_cons. split; [tauto|]. intros [->|?]; done.
    + done.
    + done.
    + pose proof (weight_length ks). lia.
    + intros k Hk. apply IH.
      * by eapply Forall_forall in Hks; [|apply list_elem_of_In].
      * pose proof (weight_kid k ks Hk). lia.
  - rewrite (leaf_no_children n Hc) in Hcs.
    apply map_root_nil in Hcs as ->. unfold ret. f_equal. symmetry.
    apply bool_decide_eq_false. simpl. rewrite elem_of_cons.
    intros [->|Hin]; [done|]. by apply elem_of_nil in Hin.
Qed.

End ContainsFacts.

(** X13: [contains] holds exactly of the nodes of the tree below the
    first argument, that node included; a text node contains itself
    only. *)
Theorem contains_subtree {Σ : Type} `{HasHeap Σ} (s : Σ) (t : Tree)
    (d : ref) (fuel : nat) :
  repr (heap_of s) t -> weight t <= fuel ->
  contains fuel (root t) d s = Ok (bool_decide (d ∈ preorder t)) s
  /\ contains fuel (root t) (root t) s = Ok true s
  /\ (forall n, heap_of s !! root t = Some n -> type n = text ->
        contains fuel (root t) d s = Ok (bool_decide (d = root t)) s).
Proof.
  intros Hr Hw. split; [by apply contains_run|]. split.
  - rewrite contains_run by done. rewrite bool_decide_eq_true_2; [done|].
    apply root_in_preorder.
  - intros n Hn Hty. rewrite contains_run by done. f_equal.
    inversion Hr as [r n' ks Hn' Hcs Hks]; subst. simpl in Hn.
    assert (n' = n) as -> by congruence.
    unfold children_list, children, type in *.
    destruct (data n); try done. apply map_root_nil in Hcs as ->.
    apply bool_decide_ext. simpl. rewrite elem_of_cons.
    split; [|by left]. intros [->|Hin]; [done|]. by apply elem_of_nil in Hin.
Qed.

Section SiblingFacts.

Lemma indexOf_number_first (l1 l2 : list ref) x :
  x ∉ l1 -> indexOf_number (l1 ++ x :: l2) x = Z.of_nat (length l1).
Proof. intros Hx. unfold indexOf_number. by rewrite indexOf_first. Qed.

Lemma indexOf_number_absent (l : list ref) x :
  x ∉ l -> indexOf_number l x = (-1)%Z.
Proof. intros Hx. unfold indexOf_number. by rewrite indexOf_absent. Qed.

Lemma at_index_nat (l : list ref) (i : nat) :
  at_index l (Z.of_nat i) = l !! i.
Proof.
  unfold at_index. rewrite Nat2Z.id.
  destruct (Z.ltb_spec (Z.of_nat i) 0); [lia|done].
Qed.

Lemma previous_of_split (l1 l2 : list ref) x :
  (if (0 <? Z.of_nat (length l1))%Z
   then at_index (l1 ++ x :: l2) (Z.of_nat (length l1) - 1)
   else None) = last l1.
Proof.
  destruct l1 as [|y l1 _] using rev_ind; [done|].
  rewrite length_app, last_snoc. simpl.
  destruct (Z.ltb_spec 0 (Z.of_nat (length l1 + 1))); [|lia].
  replace (Z.of_nat (length l1 + 1) - 1)%Z with (Z.of_nat (length l1))
    by lia.
  rewrite at_index_nat, <- app_assoc. simpl. by rewrite list_lookup_middle.
Qed.

Lemma next_of_split (l1 l2 : list ref) x :
  (if (Z.of_nat (length l1) <? Z.of_nat (length (l1 ++ x :: l2)) - 1)%Z
   then at_index (l1 ++ x :: l2) (Z.of_nat (length l1) + 1)
   else None) = head l2.
Proof.
  rewrite length_app. simpl.
  destruct l2 as [|y l2]; simpl.
  - destruct (Z.ltb_spec (Z.of_nat (length l1))
                (Z.of_nat (length l1 + 1) - 1)); [lia|done].
  - destruct (Z.ltb_spec (Z.of_nat (length l1))
                (Z.of_nat (length l1 + S (S (length l2))) - 1)); [|lia].
    replace (Z.of_nat (length l1) + 1)%Z with (Z.of_nat (length (l1 ++ [x])))
      by (rewrite length_app; simpl; lia).
    rewrite at_index_nat.
    replace (l1 ++ x :: y :: l2) with ((l1 ++ [x]) ++ y :: l2)
      by by rewrite <- app_assoc.
    by rewrite list_lookup_middle.
Qed.

End SiblingFacts.

(** X14: for a node at its first position in its parent's children,
    [getPreviousSibling] is the child just before it and
    [getNextSibling] the child just after it, absent at the ends; both
    are absent for a node without parent.  For a node that its parent
    does not hold, the previous sibling is absent and the next sibling
    is the parent's first child. *)
Theorem sibling_navigation {Σ : Type} `{HasHeap Σ} (s : Σ) (node : ref)
    (n : TamlNode) :
  heap_of s !! node = Some n ->
  (parent n = None ->
     getPreviousSibling node s = Ok None s
     /\ getNextSibling node s = Ok None s)
  /\ (forall p pn cs,
        parent n = Some p -> heap_of s !! p = Some pn ->
        children pn = Some cs ->
        (forall l1 l2, cs = l1 ++ node :: l2 -> node ∉ l1 ->
           getPreviousSibling node s = Ok (last l1) s
           /\ getNextSibling node s = Ok (head l2) s)
        /\ (node ∉ cs ->
            getPreviousSibling node s = Ok None s
            /\ getNextSibling node s = Ok (head cs) s)).
Proof.
  intros Hn. split.
  - intros Hp. unfold getPreviousSibling, getNextSibling, bind, read.
    by rewrite Hn, Hp.
  - intros p pn cs Hp Hpn Hcs.
    destruct (container_children pn cs Hcs) as [Hk Hl].
    assert (Htest : negb (isDocumentNode pn) && negb (isElementNode pn)
                    = false).
    { destruct (isDocumentNode pn), (isElementNode pn); done. }
    split.
    + intros l1 l2 -> Hni.
      unfold getPreviousSibling, getNextSibling, bind, read, ret.
      rewrite Hn, Hp, Hpn, Htest, Hl, indexOf_number_first by done.
      by rewrite previous_of_split, next_of_split.
    + intros Hni.
      unfold getPreviousSibling, getNextSibling, bind, read, ret.
      rewrite Hn, Hp, Hpn, Htest, Hl, indexOf_number_absent by done.
      split; [done|]. f_equal. simpl.
      destruct cs as [|c cs]; simpl; [done|].
      destruct (Z.ltb_spec (-1) (Z.of_nat (S (length cs)) - 1)); [done|lia].
Qed.

(** X15: in a container whose children are all different, going from
    a child to its next sibling and from there to the previous sibling
    returns to the child, when both have the container as parent. *)
Theorem sibling_round_trip {Σ : Type} `{HasHeap Σ} (s : Σ) (node x p : ref)
    (n xn pn : TamlNode) (cs : list ref) :
  heap_of s !! node = Some n -> parent n = Some p ->
  heap_of s !! x = Some xn -> parent xn = Some p ->
  heap_of s !! p = Some pn -> children pn = Some cs ->
  NoDup cs -> node ∈ cs ->
  getNextSibling node s = Ok (Some x) s ->
  getPreviousSibling x s = Ok (Some node) s.
Proof.
  intros Hn Hp Hx Hxp Hpn Hcs Hnd Hin Hnext.
  destruct (container_children pn cs Hcs) as [Hk Hl].
  assert (Htest : negb (isDocumentNode pn) && negb (isElementNode pn)
                  = false).
  { destruct (isDocumentNode pn), (isElementNode pn); done. }
  apply list_elem_of_split_l in Hin as (l1 & l2 & -> & Hni).
  unfold getNextSibling, bind, read, ret in Hnext.
  rewrite Hn, Hp, Hpn, Htest, Hl, indexOf_number_first in Hnext by done.
  rewrite next_of_split in Hnext.
  destruct l2 as [|y l2]; [done|]. inversion Hnext; subst y.
  assert (Hni' : x ∉ l1 ++ [node]).
  { replace (l1 ++ node :: x :: l2) with ((l1 ++ [node]) ++ x :: l2) in Hnd
      by by rewrite <- app_assoc.
    apply NoDup_app in Hnd as (_ & Hdisj & _).
    intros Hin. apply (Hdisj x Hin). by left. }
  unfold getPreviousSibling, bind, read, ret.
  rewrite Hx, Hxp, Hpn, Htest, Hl.
  replace (l1 ++ node :: x :: l2) with ((l1 ++ [node]) ++ x :: l2)
    by by rewrite <- app_assoc.
  rewrite indexOf_number_first by done.
  by rewrite previous_of_split, last_snoc.
Qed.

Section EmptyFacts.
Context {Σ : Type} `{HasHeap Σ}.

Lemma every_forallb (f : ref -> M Σ bool) (g : Tree -> bool) (s : Σ) ks :
  (forall k, In k ks -> f (root k) s = Ok (g k) s) ->
  every f (map root ks) s = Ok (forallb g ks) s.
Proof.
  induction ks as [|k ks IH]; intros Hf; simpl; [reflexivity|].
  unfold bind. rewrite (Hf k (or_introl eq_refl)).
  destruct (g k); [|reflexivity]. apply IH. intros k' Hk'. apply Hf.
  by right.
Qed.

Lemma isEmpty_run (blank : string -> bool) :
  forall fuel t (s : Σ),
    repr (heap_of s) t -> height t < fuel ->
    isEmpty blank fuel (root t) s
    = Ok (forallb blank (flat_map (text_parts (heap_of s)) (preorder t))) s.
Proof.
  induction fuel as [|fuel IH]; intros [r ks] s Hr Hh; [lia|].
  inversion Hr as [r' n ks' Hn Hcs Hks]; subst.
  cbn [isEmpty root preorder flat_map]. unfold bind, read. rewrite Hn.
  unfold text_parts at 1. rewrite Hn.
  assert (Hkids : every (isEmpty blank fuel) (map root ks) s
                  = Ok (forallb blank
                          (flat_map (text_parts (heap_of s))
                             (flat_map preorder ks))) s).
  { rewrite (every_forallb _
               (fun k => forallb blank
                           (flat_map (text_parts (heap_of s)) (preorder k)))).
    - f_equal. clear. induction ks as [|k ks IHk]; simpl; [done|].
      by rewrite flat_map_app, forallb_app, IHk.
    - intros k Hk. apply IH.
      + by eapply Forall_forall in Hks; [|apply list_elem_of_In].
      + pose proof (height_kid k ks Hk). simpl in Hh. lia. }
  unfold children_list, children in Hcs.
  destruct (data n) as [cs|tag cs|c] eqn:Hd; simpl in Hcs; subst.
  - destruct ks; simpl; [reflexivity|]. exact Hkids.
  - destruct ks; simpl; [reflexivity|]. exact Hkids.
  - apply map_root_nil in Hcs as ->. simpl. unfold ret.
    by rewrite andb_true_r.
Qed.

End EmptyFacts.

(** X16: [isEmpty] holds exactly when every text node of the tree is
    blank: of a text node when its content is blank, of a document or
    element when it has no children or all its children are empty, at
    any depth. *)
Theorem isEmpty_all_blank {Σ : Type} `{HasHeap Σ} (blank : string -> bool)
    (s : Σ) (t : Tree) (fuel : nat) :
  repr (heap_of s) t -> height t < fuel ->
  isEmpty blank fuel (root t) s
  = Ok (forallb blank (flat_map (text_parts (heap_of s)) (preorder t))) s
  /\ (forall n c, heap_of s !! root t = Some n -> data n = Text c ->
        isEmpty blank fuel (root t) s = Ok (blank c) s)
  /\ (forall n, heap_of s !! root t = Some n -> type n <> text ->
        isEmpty blank fuel (root t) s
        = Ok (forallb (fun k =>
                forallb blank
                  (flat_map (text_parts (heap_of s)) (preorder k)))
                (kids t)) s).
Proof.
  intros Hr Hh. pose proof (isEmpty_run blank fuel t s Hr Hh) as Hrun.
  split; [exact Hrun|].
  inversion Hr as [r n' ks Hn' Hcs Hks]; subst. simpl in *.
  unfold text_parts at 1 in Hrun. rewrite Hn' in Hrun. split.
  - intros n c Hn Hd. assert (n' = n) as -> by congruence.
    rewrite Hrun, Hd. unfold children_list, children in Hcs.
    rewrite Hd in Hcs. apply map_root_nil in Hcs as ->. simpl.
    by rewrite andb_true_r.
  - intros n Hn Hty. assert (n' = n) as -> by congruence.
    rewrite Hrun. f_equal. unfold type in Hty.
    assert (Hnone : match data n with Text c => [c] | _ => [] end
                    = ([] : list string)).
    { destruct (data n); done. }
    rewrite Hnone. simpl. clear.
    induction ks as [|k ks IH]; simpl; [done|].
    by rewrite flat_map_app, forallb_app, IH.
Qed.

Section SymmetryFacts.
Context {Σ : Type} `{HasHeap Σ}.

Lemma find_pointwise (f g : ref -> bool) l :
  (forall x, f x = g x) -> List.find f l = List.find g l.
Proof.
  intros Hfg. induction l as [|x l IH]; simpl; [done|].
  by rewrite Hfg, IH.
Qed.

Lemma find_common_symmetric h a b la lb :
  chain h a la -> chain h b lb ->
  List.find (fun c => bool_decide (c ∈ la)) lb
  = List.find (fun c => bool_decide (c ∈ lb)) la.
Proof.
  intros Ha Hb.
  destruct (List.find (fun c => bool_decide (c ∈ la)) lb) as [c|] eqn:Hfind.
  - apply find_first_split in Hfind as (pre & post & -> & Hpre & Hc).
    apply bool_decide_eq_true in Hc.
    apply list_elem_of_split in Hc as (pre' & post' & ->).
    pose proof (chain_split _ _ _ _ _ Ha) as Hca.
    pose proof (chain_split _ _ _ _ _ Hb) as Hcb.
    pose proof (chain_functional _ _ _ _ Hca Hcb) as [= ->].
    pose proof (chain_NoDup _ _ _ Ha) as Hnd.
    symmetry. clear Hca Hcb Ha Hb.
    induction pre' as [|y pre' IH]; simpl.
    + rewrite bool_decide_eq_true_2; [done|]. apply elem_of_app. right.
      by left.
    + simpl in Hnd. apply NoDup_cons in Hnd as [Hy Hnd].
      rewrite bool_decide_eq_false_2.
      * apply IH; [|done]. eapply Forall_impl; [exact Hpre|].
        simpl. intros x Hx. apply bool_decide_eq_false in Hx.
        apply bool_decide_eq_false. intros Hin. apply Hx. by right.
      * intros Hin. apply elem_of_app in Hin as [Hin|Hin].
        -- eapply Forall_forall in Hpre; [|exact Hin]. simpl in Hpre.
           apply bool_decide_eq_false in Hpre. apply Hpre. by left.
        -- apply Hy. apply elem_of_app. by right.
  - apply find_none_all in Hfind. symmetry.
    assert (Hall : Forall (fun r => bool_decide (r ∈ lb) = false) la).
    { apply Forall_forall. intros x Hx. apply bool_decide_eq_false.
      intros Hin. eapply Forall_forall in Hfind; [|exact Hin].
      simpl in Hfind. by apply bool_decide_eq_false in Hfind. }
    clear -Hall. induction Hall as [|x l Hx _ IH]; simpl; [done|].
    by rewrite Hx.
Qed.

End SymmetryFacts.

(** X17: [getCommonAncestor] does not depend on the order of its two
    arguments. *)
Theorem getCommonAncestor_symmetric {Σ : Type} `{HasHeap Σ} (s : Σ)
    (a b : ref) (la lb : list ref) (fuel : nat) :
  chain (heap_of s) a la -> chain (heap_of s) b lb ->
  length la < fuel -> length lb < fuel ->
  getCommonAncestor fuel a b s = getCommonAncestor fuel b a s.
Proof.
  intros Ha Hb Hfa Hfb. unfold getCommonAncestor, bind.
  rewrite (ancestor_set_chain _ a la Ha), (ancestor_set_chain _ b lb Hb)
    by done.
  rewrite (first_common_chain _ b lb Hb), (first_common_chain _ a la Ha)
    by done.
  f_equal.
  transitivity (List.find (fun c => bool_decide (c ∈ la)) lb).
  { apply find_pointwise. intros x. apply bool_decide_ext. set_solver. }
  rewrite (find_common_symmetric _ a b la lb Ha Hb).
  apply find_pointwise. intros x. apply bool_decide_ext. set_solver.
Qed.

(** ** Further properties: visitors *)

Section HookOrder.
Implicit Types (h : Heap) (t : Tree).

Lemma filter_flat_map {X Y} (f : Y -> bool) (g : X -> list Y) l :
  List.filter f (flat_map g l) = flat_map (fun x => List.filter f (g x)) l.
Proof.
  induction l as [|x l IH]; simpl; [done|]. by rewrite List.filter_app, IH.
Qed.

Lemma flat_map_pointwise {X Y} (f g : X -> list Y) l :
  Forall (fun x => f x = g x) l -> flat_map f l = flat_map g l.
Proof. induction 1 as [|x l Hx _ IH]; simpl; [done|]. by rewrite Hx, IH. Qed.

Lemma map_flat_map {X Y Z} (f : Y -> Z) (g : X -> list Y) l :
  map f (flat_map g l) = flat_map (fun x => map f (g x)) l.
Proof. induction l as [|x l IH]; simpl; [done|]. by rewrite map_app, IH. Qed.

(** The enter hooks of a visit, in order, are those of the nodes in
    pre-order. *)
Lemma enter_hooks_preorder h t :
  List.filter (is_hook EnterNode) (hook_sequence h t)
  = map (pair EnterNode) (preorder t).
Proof.
  induction t as [r ks IH] using Tree_ind'.
  cbn [hook_sequence preorder map List.filter].
  change (is_hook EnterNode (EnterNode, r)) with true. cbv iota. f_equal.
  rewrite !List.filter_app, filter_flat_map, map_flat_map.
  rewrite (flat_map_pointwise _ _ _ IH).
  assert (List.filter (is_hook EnterNode)
            match h !! r with
            | Some n => [(kind_hook (type n), r)]
            | None => []
            end = []) as ->.
  { destruct (h !! r) as [n|]; [|done]. by destruct (type n). }
  simpl. by rewrite app_nil_r.
Qed.

(** The exit hooks of a visit, in order, are those of the nodes in
    post-order. *)
Lemma exit_hooks_postorder h t :
  List.filter (is_hook ExitNode) (hook_sequence h t)
  = map (pair ExitNode) (postorder t).
Proof.
  induction t as [r ks IH] using Tree_ind'.
  cbn [hook_sequence postorder List.filter].
  change (is_hook ExitNode (EnterNode, r)) with false. cbv iota.
  rewrite !List.filter_app, filter_flat_map, map_app, map_flat_map.
  rewrite (flat_map_pointwise _ _ _ IH).
  assert (List.filter (is_hook ExitNode)
            match h !! r with
            | Some n => [(kind_hook (type n), r)]
            | None => []
            end = []) as ->.
  { destruct (h !! r) as [n|]; [|done]. by destruct (type n). }
  reflexivity.
Qed.

(** The kind-specific hooks of a visit, in order, are those of the
    nodes in pre-order. *)
Lemma kind_hooks_preorder h t :
  repr h t ->
  List.filter is_kind_hook (hook_sequence h t)
  = flat_map (fun r => match h !! r with
                       | Some n => [(kind_hook (type n), r)]
                       | None => []
                       end) (preorder t).
Proof.
  induction 1 as [r n ks Hn Hcs Hks IH] using repr_ind'.
  cbn [hook_sequence preorder flat_map List.filter is_kind_hook fst].
  rewrite Hn. rewrite !List.filter_app, filter_flat_map.
  rewrite (flat_map_pointwise _ _ _ IH). simpl.
  assert (is_kind_hook (kind_hook (type n), r) = true) as ->
    by by destruct (type n).
  simpl. rewrite app_nil_r. f_equal. clear.
  induction ks as [|k ks IHk]; simpl; [done|].
  by rewrite flat_map_app, IHk.
Qed.

End HookOrder.

Section FireFacts.
Context {U : Type}.
Implicit Types (w : World U) (v : Visitor U).

(** Hooks that are not registered do nothing. *)
Lemma run_fire_registered v l w :
  run_seq (fire v) l w = run_seq (fire v) (List.filter (registered v) l) w.
Proof.
  revert w. induction l as [|[k r] l IH]; intros w; simpl; [done|].
  unfold registered at 1. simpl.
  destruct (hook_of v k) as [cb|] eqn:Hk.
  - rewrite bool_decide_eq_true_2 by eauto. simpl. unfold bind.
    destruct (fire v (k, r) w); done.
  - rewrite bool_decide_eq_false_2 by (intros [? ?]; done).
    unfold bind, fire, invoke_opt. simpl. rewrite Hk. apply IH.
Qed.

Lemma filter_filter_comm {X} (f g : X -> bool) l :
  List.filter f (List.filter g l) = List.filter g (List.filter f l).
Proof.
  induction l as [|x l IH]; simpl; [done|].
  destruct (f x) eqn:Hf, (g x) eqn:Hg; simpl; rewrite ?Hf, ?Hg, IH; done.
Qed.

Lemma filter_registered_map v k (l : list ref) :
  List.filter (registered v) (map (pair k) l)
  = if bool_decide (is_Some (hook_of v k)) then map (pair k) l else [].
Proof.
  induction l as [|x l IH]; simpl; [by destruct (bool_decide _)|].
  rewrite IH. unfold registered. simpl. by destruct (bool_decide _).
Qed.

End FireFacts.

(** X18: whatever hooks a visitor registers, [visit] calls the enter
    hook on the nodes in depth-first pre-order and the exit hook on the
    nodes in post-order, each once per node. *)
Theorem visit_enter_exit_order {U : Type} (v : Visitor U) (w w' : World U)
    (t : Tree) (fuel : nat) :
  visitor_keeps_nodes v ->
  repr (nodes w) t -> weight t <= fuel ->
  visit fuel (root t) v w = Ok tt w' ->
  exists made,
    calls w' = calls w ++ made
    /\ List.filter (is_hook EnterNode) made
       = (if bool_decide (is_Some (enterNode v))
          then map (pair EnterNode) (preorder t) else [])
    /\ List.filter (is_hook ExitNode) made
       = (if bool_decide (is_Some (exitNode v))
          then map (pair ExitNode) (postorder t) else []).
Proof.
  intros Hv Hr Hw Hrun. rewrite visit_run_seq in Hrun by done.
  apply run_fire_calls in Hrun.
  exists (List.filter (registered v) (hook_sequence (nodes w) t)).
  split; [exact Hrun|]. split.
  - rewrite filter_filter_comm, enter_hooks_preorder.
    exact (filter_registered_map v EnterNode (preorder t)).
  - rewrite filter_filter_comm, exit_hooks_postorder.
    exact (filter_registered_map v ExitNode (postorder t)).
Qed.

Section CounterFacts.
Context {U : Type}.

Lemma counter_registered c :
  registered (createCounterVisitor (U := U)) c = is_kind_hook c.
Proof. by destruct c as [[] r]. Qed.

Lemma counter_keeps_nodes : visitor_keeps_nodes (createCounterVisitor (U := U)).
Proof. intros [] cb [= <-] r h u; reflexivity. Qed.

Lemma tally_cons h r n l :
  h !! r = Some n ->
  tally h (r :: l)
  = add_counts (mkCounts (if bool_decide (type n = document) then 1 else 0)
                  (if bool_decide (type n = element) then 1 else 0)
                  (if bool_decide (type n = text) then 1 else 0))
      (tally h l).
Proof.
  intros Hn. unfold tally, add_counts. cbn [List.filter].
  assert (forall ty, has_type h ty r = bool_decide (type n = ty)) as Hty
    by (intros ty; unfold has_type; by rewrite Hn).
  rewrite !Hty. by destruct (type n).
Qed.

Lemma add_counts_assoc a b c :
  add_counts (add_counts a b) c = add_counts a (add_counts b c).
Proof. unfold add_counts. simpl. f_equal; lia. Qed.

(** Running the counter's hooks over the nodes adds their tally. *)
Lemma run_counter h l :
  Forall (fun r => is_Some (h !! r)) l ->
  forall w : World (U * NodeCounts),
    nodes w = h ->
    exists w',
      run_seq (fire createCounterVisitor)
        (flat_map (fun r => match h !! r with
                            | Some n => [(kind_hook (type n), r)]
                            | None => []
                            end) l) w = Ok tt w'
      /\ nodes w' = h
      /\ fst (user w') = fst (user w)
      /\ snd (user w') = add_counts (snd (user w)) (tally h l).
Proof.
  induction 1 as [|r l [n Hn] _ IH]; intros w Hw.
  - exists w. simpl. split; [done|]. split; [done|]. split; [done|].
    unfold add_counts, tally. simpl. destruct (snd (user w)). simpl.
    f_equal; lia.
  - cbn [flat_map]. rewrite Hn. cbn [app run_seq]. unfold bind.
    set (w1 := mkWorld (nodes w)
                 (fst (user w),
                  add_counts (snd (user w))
                    (mkCounts (if bool_decide (type n = document) then 1 else 0)
                       (if bool_decide (type n = element) then 1 else 0)
                       (if bool_decide (type n = text) then 1 else 0)))
                 (calls w ++ [(kind_hook (type n), r)])).
    assert (Hfire : fire createCounterVisitor (kind_hook (type n), r) w
                    = Ok tt w1).
    { unfold fire, invoke_opt, invoke, w1, add_counts. simpl.
      destruct (type n); simpl; do 3 f_equal; f_equal; lia. }
    rewrite Hfire. destruct (IH w1 Hw) as (w' & Hrun & Hn' & Hu & Hc).
    exists w'. split; [exact Hrun|]. split; [exact Hn'|].
    split; [exact Hu|]. rewrite Hc. unfold w1. simpl.
    by rewrite (tally_cons h r n l Hn), add_counts_assoc.
Qed.

End CounterFacts.

(** X19: visiting a tree with the counter visitor leaves in its
    [counts] what [countNodes] returns for the tree. *)
Theorem counter_visitor_counts {U : Type} (w : World (U * NodeCounts))
    (t : Tree) (fuel : nat) :
  repr (nodes w) t -> weight t <= fuel ->
  snd (user w) = mkCounts 0 0 0 ->
  exists w',
    visit fuel (root t) createCounterVisitor w = Ok tt w'
    /\ countNodes fuel (root t) (nodes w) = Ok (snd (user w')) (nodes w)
    /\ nodes w' = nodes w
    /\ fst (user w') = fst (user w).
Proof.
  intros Hr Hw Hzero.
  rewrite visit_run_seq by (done || apply counter_keeps_nodes).
  rewrite run_fire_registered.
  rewrite (List.filter_ext _ _ counter_registered).
  rewrite kind_hooks_preorder by done.
  destruct (run_counter (nodes w) (preorder t) (repr_allocated _ _ Hr) w
              eq_refl) as (w' & Hrun & Hn & Hu & Hc).
  exists w'. split; [exact Hrun|]. split; [|done].
  rewrite (countNodes_tally fuel t (nodes w)) by done.
  rewrite Hc, Hzero. unfold add_counts. simpl.
  reflexivity.
Qed.

Lemma collect_stable {Σ : Type} `{HasHeap Σ} (p : ref -> M Σ bool) l :
  heap_stable p -> forall s, same_heap s (collect p l s).
Proof.
  intros Hp. induction l as [|x l IH]; intros s; simpl; [done|].
  unfold bind. pose proof (Hp x s) as Hx.
  destruct (p x s) as [b s1|e s1| |]; try done.
  specialize (IH s1).
  destruct (collect p l s1) as [f s2|e s2| |]; try done;
    simpl in *; congruence.
Qed.

Section CollectorFacts.
Context {U : Type}.
Implicit Types (p : Callback U bool).

Lemma collector_keeps_nodes p :
  keeps_nodes p -> visitor_keeps_nodes (createCollectorVisitor p).
Proof.
  intros Hp [] cb [= <-] r h u. specialize (Hp r h u.1).
  by destruct (p r h u.1).
Qed.

Lemma collector_registered p c :
  registered (createCollectorVisitor p) c = is_hook EnterNode c.
Proof. by destruct c as [[] r]. Qed.

(** The collector's hooks run over a list as [collect] does. *)
Lemma run_collector p l :
  forall (w : World (U * list ref)) (w0 : World U),
    nodes w = nodes w0 -> fst (user w) = user w0 ->
    match collect (invoke Predicate p) l w0 with
    | Ok found w1 =>
        exists w',
          run_seq (fire (createCollectorVisitor p)) (map (pair EnterNode) l) w
          = Ok tt w'
          /\ nodes w' = nodes w1
          /\ user w' = (user w1, snd (user w) ++ found)
    | Throw e w1 =>
        exists w',
          run_seq (fire (createCollectorVisitor p)) (map (pair EnterNode) l) w
          = Throw e w'
          /\ nodes w' = nodes w1
          /\ fst (user w') = user w1
    | _ => False
    end.
Proof.
  induction l as [|x l IH]; intros w w0 Hn Hu.
  - simpl. exists w. rewrite app_nil_r. split; [done|]. split; [done|].
    rewrite <- Hu. by destruct (user w).
  - cbn [collect map run_seq]. unfold bind at 1 3 4.
    set (C := collect (invoke Predicate p) l) in *.
    set (R := run_seq (fire (createCollectorVisitor p))
                (map (pair EnterNode) l)) in *.
    unfold fire, invoke_opt, invoke. cbn [fst snd hook_of enterNode
      createCollectorVisitor]. rewrite Hn, Hu.
    destruct (p x (nodes w0) (user w0)) as [b h1 u1|msg h1 u1].
    + set (w1 := mkWorld h1 (u1, if b then (user w).2 ++ [x] else (user w).2)
                   (calls w ++ [(EnterNode, x)])).
      set (w01 := mkWorld h1 u1 (calls w0 ++ [(Predicate, x)])).
      specialize (IH w1 w01 eq_refl eq_refl). unfold bind.
      destruct (C w01) as [found w2|e w2| |]; cbn; try done.
      destruct IH as (w' & Hrun & Hn' & Hu'). exists w'.
      split; [exact Hrun|]. split; [exact Hn'|]. rewrite Hu'.
      unfold w1. simpl. destruct b; [|done].
      by rewrite <- app_assoc.
    + eexists. split; [reflexivity|]. done.
Qed.

End CollectorFacts.

(** X20: visiting a tree with the collector visitor of a test gathers
    in [nodes] what [findAll] returns for the test, in the same order,
    and leaves the test's own state as [findAll] does; when the test
    throws, both stop with its exception. *)
Theorem collector_visitor_findAll {U : Type} (nodeTest : Callback U bool)
    (w : World (U * list ref)) (t : Tree) (fuel : nat) :
  keeps_nodes nodeTest ->
  repr (nodes w) t -> weight t <= fuel ->
  snd (user w) = [] ->
  match findAll fuel (root t) (invoke Predicate nodeTest)
          (mkWorld (nodes w) (fst (user w)) []) with
  | Ok found w1 =>
      exists w',
        visit fuel (root t) (createCollectorVisitor nodeTest) w = Ok tt w'
        /\ nodes w' = nodes w
        /\ user w' = (user w1, found)
  | Throw e w1 =>
      exists w',
        visit fuel (root t) (createCollectorVisitor nodeTest) w = Throw e w'
        /\ nodes w' = nodes w
        /\ fst (user w') = user w1
  | _ => False
  end.
Proof.
  intros Hp Hr Hw Hnil.
  rewrite visit_run_seq by (done || by apply collector_keeps_nodes).
  rewrite run_fire_registered.
  rewrite (List.filter_ext _ _ (collector_registered nodeTest)).
  rewrite enter_hooks_preorder.
  set (w0 := mkWorld (nodes w) (fst (user w)) []).
  pose proof (invoke_stable Predicate nodeTest Hp) as Hst.
  rewrite (findAll_collect _ fuel t w0 Hst Hr Hw).
  pose proof (run_collector nodeTest (preorder t) w w0 eq_refl eq_refl)
    as Hrun.
  pose proof (collect_stable _ (preorder t) Hst w0) as Hsame.
  destruct (collect (invoke Predicate nodeTest) (preorder t) w0)
    as [found w1|e w1| |]; try done.
  - destruct Hrun as (w' & Hrun & Hn & Hu). exists w'.
    split; [exact Hrun|]. split; [by rewrite Hn|]. by rewrite Hu, Hnil.
  - destruct Hrun as (w' & Hrun & Hn & Hu). exists w'.
    split; [exact Hrun|]. split; [by rewrite Hn|]. exact Hu.
Qed.

Section TypedFacts.
Context {U : Type}.
Implicit Types (q : ref -> Heap -> bool) (cb : Callback U unit).




End TypedFacts.


(** ** Further properties: clones answer the queries alike *)

Lemma height_lt_weight t : height t < weight t.
Proof.
  induction t as [r ks IH] using Tree_ind'. cbn [height weight].
  apply Nat.lt_succ_r.
  induction IH as [|k ks Hk _ IHks]; simpl; lia.
Qed.

Lemma struct_eq_shape h t t' :
  struct_eq h t t' -> height t = height t' /\ weight t = weight t'.
Proof.
  induction 1 as [r ks r' ks' n n' Hn Hn' Hl Hks IH] using struct_eq_ind'.
  cbn [height weight].
  assert (list_max (map (fun k => S (height k)) ks)
          = list_max (map (fun k => S (height k)) ks')
          /\ list_sum (map (fun k => S (weight k)) ks)
             = list_sum (map (fun k => S (weight k)) ks')) as [-> ->];
    [|done].
  clear Hks. induction IH as [|k k' ks ks' [Hh Hw] _ [IH1 IH2]]; simpl;
    [done|]. by rewrite Hh, Hw, IH1, IH2.
Qed.

(** What depends on the labels only is the same along the pre-orders
    of structurally equal trees. *)
Lemma struct_eq_map {X} (f : ref -> X) h :
  (forall r r' n n', h !! r = Some n -> h !! r' = Some n' ->
     same_label n n' -> f r = f r') ->
  forall t t', struct_eq h t t' -> map f (preorder t) = map f (preorder t').
Proof.
  intros Hf.
  induction 1 as [r ks r' ks' n n' Hn Hn' Hl Hks IH] using struct_eq_ind'.
  cbn [preorder map]. rewrite (Hf r r' n n' Hn Hn' Hl). f_equal.
  clear Hks. induction IH as [|k k' ks ks' Hk _ IHks]; simpl; [done|].
  by rewrite !map_app, Hk, IHks.
Qed.

Lemma same_label_type n n' : same_label n n' -> type n = type n'.
Proof.
  intros (_ & _ & Hd). unfold type.
  destruct (data n), (data n'); done.
Qed.

Lemma filter_length_map {X} (p : X -> bool) l :
  length (List.filter p l) = length (List.filter id (map p l)).
Proof.
  induction l as [|x l IH]; simpl; [done|].
  unfold id at 1. destruct (p x); simpl; by rewrite IH.
Qed.

Lemma struct_eq_tally h t t' :
  struct_eq h t t' -> tally h (preorder t) = tally h (preorder t').
Proof.
  intros Hs. unfold tally.
  assert (forall ty, length (List.filter (has_type h ty) (preorder t))
                     = length (List.filter (has_type h ty) (preorder t')))
    as Hty; [|by rewrite !Hty].
  intros ty.
  rewrite (filter_length_map (has_type h ty) (preorder t)).
  rewrite (filter_length_map (has_type h ty) (preorder t')).
  rewrite (struct_eq_map (has_type h ty) h) with (t' := t'); [done| |done].
  intros r r' n n' Hn Hn' Hl. unfold has_type. rewrite Hn, Hn'.
  by rewrite (same_label_type n n' Hl).
Qed.

Lemma struct_eq_text h t t' :
  struct_eq h t t' ->
  flat_map (text_parts h) (preorder t) = flat_map (text_parts h) (preorder t').
Proof.
  intros Hs. rewrite !flat_map_concat_map.
  rewrite (struct_eq_map (text_parts h) h) with (t' := t'); [done| |done].
  intros r r' n n' Hn Hn' (_ & _ & Hd). unfold text_parts.
  rewrite Hn, Hn'. destruct (data n), (data n'); try done. by subst.
Qed.

(** A larger store answers alike for the nodes it already had. *)
Lemma tally_weaken h h' l :
  h ⊆ h' -> Forall (fun r => is_Some (h !! r)) l -> tally h l = tally h' l.
Proof.
  intros Hsub Hl. unfold tally.
  assert (forall ty, List.filter (has_type h ty) l
                     = List.filter (has_type h' ty) l) as Hty;
    [|by rewrite !Hty].
  intros ty. induction Hl as [|x l [n Hn] _ IH]; simpl; [done|].
  assert (has_type h ty x = has_type h' ty x) as ->
    by (unfold has_type; by rewrite Hn, (lookup_weaken _ _ _ _ Hn Hsub)).
  by rewrite IH.
Qed.

Lemma text_parts_weaken h h' l :
  h ⊆ h' -> Forall (fun r => is_Some (h !! r)) l ->
  flat_map (text_parts h) l = flat_map (text_parts h') l.
Proof.
  intros Hsub Hl. induction Hl as [|x l [n Hn] _ IH]; simpl; [done|].
  assert (text_parts h x = text_parts h' x) as ->
    by (unfold text_parts; by rewrite Hn, (lookup_weaken _ _ _ _ Hn Hsub)).
  by rewrite IH.
Qed.

(** X22: a clone answers the read-only queries as its original does:
    [getAllText], [countNodes] and [getMaxDepth] return for the clone
    what they return for the original. *)
Theorem cloneNode_same_answers (h : Heap) (t : Tree) (fuel : nat) :
  repr h t -> weight t <= fuel ->
  exists h' c txt cnt d,
    cloneNode fuel (root t) h = Ok c h'
    /\ getAllText fuel (root t) h = Ok txt h
    /\ getAllText fuel c h' = Ok txt h'
    /\ countNodes fuel (root t) h = Ok cnt h
    /\ countNodes fuel c h' = Ok cnt h'
    /\ getMaxDepth fuel (root t) h = Ok d h
    /\ getMaxDepth fuel c h' = Ok d h'.
Proof.
  intros Hr Hw. pose proof (height_lt_weight t) as Hh.
  destruct (cloneNode_cloned fuel t h Hr ltac:(lia))
    as (h' & t' & Hrun & Hsub & _ & _ & Hr' & Hseq & _ & _).
  destruct (struct_eq_shape h' t t' Hseq) as [Hht Hwt].
  pose proof (repr_allocated h t Hr) as Halloc.
  exists h', (root t'), (all_text h t), (tally h (preorder t)), (height t).
  split; [exact Hrun|].
  assert (Hw' : weight t' <= fuel) by lia.
  split; [|split; [|split; [|split; [|split]]]].
  - rewrite (getAllText_run (H := Heap_HasHeap) fuel t h Hr Hw).
    by rewrite text_parts_all_text.
  - rewrite (getAllText_run (H := Heap_HasHeap) fuel t' h' Hr' Hw').
    change (heap_of h') with h'.
    rewrite <- (struct_eq_text h' t t' Hseq).
    rewrite <- (text_parts_weaken h h' _ Hsub Halloc).
    by rewrite text_parts_all_text.
  - exact (countNodes_tally (H := Heap_HasHeap) fuel t h Hr Hw).
  - rewrite (countNodes_tally (H := Heap_HasHeap) fuel t' h' Hr' Hw').
    change (heap_of h') with h'.
    rewrite <- (struct_eq_tally h' t t' Hseq).
    by rewrite <- (tally_weaken h h' _ Hsub Halloc).
  - exact (getMaxDepth_height (H := Heap_HasHeap) fuel t h Hr Hw).
  - rewrite (getMaxDepth_height (H := Heap_HasHeap) fuel t' h' Hr' Hw'). by rewrite Hht.
Qed.

(** ** Further properties: the tag registry *)

Ltac each_member H :=
  repeat (apply elem_of_cons in H as [->|H]; [by vm_compute|]);
  by apply elem_of_nil in H.

Lemma includes_true l x : includes l x = true <-> x ∈ l.
Proof. unfold includes. apply bool_decide_eq_true. Qed.

Lemma isValidTag_members s :
  isValidTag s = true
  <-> s ∈ STANDARD_COLORS ++ BRIGHT_COLORS ++ BACKGROUND_COLORS ++ TEXT_STYLES.
Proof.
  unfold isValidTag, VALID_TAGS. rewrite bool_decide_eq_true.
  apply elem_of_list_to_set.
Qed.

Lemma tag_name_listed t :
  tag_name t ∈ STANDARD_COLORS ++ BRIGHT_COLORS ++ BACKGROUND_COLORS
               ++ TEXT_STYLES.
Proof. apply (bool_decide_unpack _). by destruct t; vm_compute. Qed.

Lemma listed_tag_name s :
  s ∈ STANDARD_COLORS ++ BRIGHT_COLORS ++ BACKGROUND_COLORS ++ TEXT_STYLES ->
  exists t, tag_name t = s.
Proof.
  intros Hs.
  assert (s ∈ map tag_name
            [black; red; green; yellow; blue; magenta; cyan; white;
             brightBlack; brightRed; brightGreen; brightYellow; brightBlue;
             brightMagenta; brightCyan; brightWhite;
             bgBlack; bgRed; bgGreen; bgYellow; bgBlue; bgMagenta; bgCyan;
             bgWhite; bgBrightBlack; bgBrightRed; bgBrightGreen;
             bgBrightYellow; bgBrightBlue; bgBrightMagenta; bgBrightCyan;
             bgBrightWhite; bold; dim; italic; underline; strikethrough])
    as Hm by exact Hs.
  apply list_elem_of_fmap in Hm as (t & -> & _). by exists t.
Qed.

(** X23: the valid tags are exactly the members of the type [TamlTag],
    and the four category tests split them: a string is a valid tag
    just when one of the tests accepts it, and no string is accepted by
    two of them. *)
Theorem tag_registry_partition (s : string) :
  isValidTag s
  = isStandardColor s || isBrightColor s || isBackgroundColor s
    || isTextStyle s
  /\ (isValidTag s = true <-> exists t, tag_name t = s)
  /\ (isStandardColor s = true ->
      isBrightColor s = false /\ isBackgroundColor s = false
      /\ isTextStyle s = false)
  /\ (isBrightColor s = true ->
      isBackgroundColor s = false /\ isTextStyle s = false)
  /\ (isBackgroundColor s = true -> isTextStyle s = false).
Proof.
  split; [|split; [|split; [|split]]].
  - apply eq_true_iff_eq. rewrite isValidTag_members.
    rewrite !orb_true_iff. unfold isStandardColor, isBrightColor,
      isBackgroundColor, isTextStyle. rewrite !includes_true.
    rewrite !elem_of_app. tauto.
  - rewrite isValidTag_members. split; [apply listed_tag_name|].
    intros [t <-]. apply tag_name_listed.
  - unfold isStandardColor. rewrite includes_true. intros Hs.
    unfold STANDARD_COLORS in Hs. each_member Hs.
  - unfold isBrightColor at 1. rewrite includes_true. intros Hs.
    unfold BRIGHT_COLORS in Hs. each_member Hs.
  - unfold isBackgroundColor. rewrite includes_true. intros Hs.
    unfold BACKGROUND_COLORS in Hs. each_member Hs.
Qed.

(** ** Further properties: the two notions of depth *)

Lemma parented_kid h r ks k : In k ks -> parented h (T r ks) -> parented h k.
Proof.
  intros Hk Hp. unfold parented in *. cbn [edges] in Hp.
  apply Forall_app in Hp as [_ Hp]. apply Forall_forall.
  intros e He. apply (proj1 (Forall_forall _ _) Hp e).
  apply list_elem_of_In, in_flat_map. exists k. split; [done|].
  by apply list_elem_of_In.
Qed.

Lemma parented_root_kid h r ks k :
  In k ks -> parented h (T r ks) ->
  exists n, h !! root k = Some n /\ parent n = Some r.
Proof.
  intros Hk Hp. unfold parented in Hp. cbn [edges] in Hp.
  apply Forall_app in Hp as [Hp _].
  apply (proj1 (Forall_forall _ _) Hp (root k, r)).
  apply list_elem_of_In, in_map_iff. by exists k.
Qed.

(** In a tree whose nodes have their parents in it, a node recorded at
    depth [d] has [d] ancestors up to the root, and then those of the
    root. *)
Lemma depths_chain h t :
  parented h t ->
  forall d0 l0, chain h (root t) l0 -> length l0 = S d0 ->
    forall r d, (r, d) ∈ depths t d0 ->
      exists l, chain h r l /\ length l = S d.
Proof.
  induction t as [r0 ks IH] using Tree_ind'.
  intros Hp d0 l0 Hc Hl r d Hin. cbn [depths] in Hin.
  apply elem_of_cons in Hin as [[= -> ->]|Hin]; [by exists l0|].
  apply list_elem_of_In, in_flat_map in Hin as (k & Hk & Hin).
  apply list_elem_of_In in Hin.
  pose proof (proj1 (Forall_forall _ _) IH k
                ltac:(by apply list_elem_of_In)) as IHk.
  destruct (parented_root_kid h r0 ks k Hk Hp) as (n & Hn & Hpn).
  apply (IHk (parented_kid h r0 ks k Hk Hp) (S d0) (root k :: l0)).
  - by apply (chain_up h (root k) n r0 l0).
  - simpl. by rewrite Hl.
  - exact Hin.
Qed.

(** X24: the depth [createDepthMap] records for a node of a tree whose
    root has no parent is the depth [getDepth] computes for the node by
    climbing its [parent] links. *)
Theorem createDepthMap_agrees_getDepth {Σ : Type} `{HasHeap Σ} (s : Σ)
    (t : Tree) (fuel : nat) :
  repr (heap_of s) t -> parented (heap_of s) t ->
  (exists n, heap_of s !! root t = Some n /\ parent n = None) ->
  weight t <= fuel ->
  exists m,
    createDepthMap fuel (root t) s = Ok m s
    /\ forall r d, m !! r = Some d -> getDepth fuel r s = Ok d s.
Proof.
  intros Hr Hp (n0 & Hn0 & Hp0) Hw. exists (insert_all (depths t 0) ∅).
  split.
  { unfold createDepthMap, with_local, bind, get_local.
    by rewrite depth_traverse_depths. }
  intros r d [Hin|Habs]%insert_all_lookup;
    [|by rewrite lookup_empty in Habs].
  destruct (depths_chain (heap_of s) t Hp 0 [root t]
              (chain_top _ _ _ Hn0 Hp0) eq_refl r d Hin) as (l & Hc & Hl).
  pose proof (depths_bound t 0) as Hb.
  eapply Forall_forall in Hb; [|exact Hin]. simpl in Hb.
  pose proof (height_lt_weight t) as Hh.
  unfold getDepth, bind, read.
  inversion Hc as [r' n Hn Hpn|r' n p l' Hn Hpn Hl']; subst;
    rewrite Hn, Hpn.
  - simpl in Hl. injection Hl as <-. destruct fuel; [lia|]. done.
  - simpl in Hl. injection Hl as <-.
    by rewrite (getDepth_loop_chain _ p l' Hl') by (done || lia).
Qed.

(** ** Further properties: elements by tag *)

Lemma filter_filter_implied {X} (f g : X -> bool) l :
  (forall x, f x = true -> g x = true) ->
  List.filter f l = List.filter f (List.filter g l).
Proof.
  intros Hfg. induction l as [|x l IH]; simpl; [done|].
  destruct (f x) eqn:Hf.
  - rewrite (Hfg x Hf). simpl. by rewrite Hf, IH.
  - destruct (g x); simpl; [by rewrite Hf|done].
Qed.

(** X25: [getElementsWithTag] returns, in pre-order, the element nodes
    of the tree that carry the tag: they are the nodes [getElementNodes]
    returns with the others dropped, and no node is returned for two
    different tags. *)
Theorem getElementsWithTag_selects {Σ : Type} `{HasHeap Σ} (s : Σ)
    (t : Tree) (tag : TamlTag) (fuel : nat) :
  repr (heap_of s) t -> weight t <= fuel ->
  exists found elements,
    getElementsWithTag fuel (root t) tag s = Ok found s
    /\ getElementNodes fuel (root t) s = Ok elements s
    /\ found
       = List.filter (fun r => bool_decide (tag_of (heap_of s) r = Some tag))
           elements
    /\ (forall r, r ∈ found
                  <-> r ∈ preorder t /\ tag_of (heap_of s) r = Some tag)
    /\ (forall tag' found', tag' <> tag ->
          getElementsWithTag fuel (root t) tag' s = Ok found' s ->
          forall r, r ∈ found -> r ∉ found').
Proof.
  intros Hr Hw.
  set (by_tag := fun (tg : TamlTag) (n : TamlNode) =>
                   match data n with
                   | Element t0 _ => bool_decide (t0 = tg)
                   | _ => false
                   end).
  assert (Hrun : forall tg,
            getElementsWithTag fuel (root t) tg s
            = Ok (List.filter
                    (fun r => bool_decide (tag_of (heap_of s) r = Some tg))
                    (preorder t)) s).
  { intros tg. unfold getElementsWithTag.
    etrans; [exact (findAll_reader (by_tag tg) fuel t s Hr Hw)|]. f_equal.
    apply List.filter_ext. intros r. unfold tag_of, by_tag.
    destruct (heap_of s !! r) as [n|]; [|done].
    destruct (data n) as [cs|t0 cs|c]; try done.
    destruct (decide (t0 = tg)) as [->|Hne].
    - by rewrite !bool_decide_eq_true_2.
    - rewrite !bool_decide_eq_false_2; [done|congruence|done]. }
  eexists _, _. split; [apply Hrun|].
  split; [unfold getElementNodes; by apply findAll_reader|].
  split; [|split].
  - apply filter_filter_implied. intros r Ht%bool_decide_eq_true.
    unfold tag_of in Ht. destruct (heap_of s !! r) as [n|]; [|done].
    unfold isElementNode, type. by destruct (data n).
  - intros r. rewrite list_elem_of_In, filter_In, <- list_elem_of_In.
    by rewrite bool_decide_eq_true.
  - intros tag' found' Hne Hrun' r Hin Hin'.
    rewrite Hrun in Hrun'. injection Hrun' as <-.
    apply list_elem_of_In, filter_In in Hin as [_ Ht%bool_decide_eq_true].
    apply list_elem_of_In, filter_In in Hin' as [_ Ht'%bool_decide_eq_true].
    congruence.
Qed.

(** ** The further properties on the example *)

Lemma Ok_value {Σ A} (a b : A) (s s' : Σ) : Ok a s = Ok b s' -> a = b.
Proof. congruence. Qed.

Lemma example_weight : weight example_tree <= 40.
Proof. vm_compute. lia. Qed.

Lemma example_NoDup : NoDup (preorder example_tree).
Proof. apply (bool_decide_unpack _). by vm_compute. Qed.

Lemma example_parented : parented example_heap example_tree.
Proof.
  unfold parented. cbn [example_tree edges map flat_map app root fst snd].
  repeat constructor; eexists; (split; [vm_compute; reflexivity|reflexivity]).
Qed.

Lemma appendChild_attaches_witness :
  example_heap !! bold_ref
  = Some (mkNode (Element bold [world_ref]) 0 0 (Some red_ref))
  /\ example_heap !! hello_ref
     = Some (mkNode (Text "Hello ") 0 6 (Some red_ref))
  /\ bold_ref <> hello_ref
  /\ exists h',
       appendChild bold_ref hello_ref example_heap = Ok tt h'
       /\ h' !! hello_ref = Some (mkNode (Text "Hello ") 0 6 (Some bold_ref))
       /\ h' !! bold_ref
          = Some (mkNode (Element bold [world_ref; hello_ref]) 0 0
                    (Some red_ref)).
Proof.
  assert (Hp : example_heap !! bold_ref
               = Some (mkNode (Element bold [world_ref]) 0 0 (Some red_ref)))
    by (vm_compute; reflexivity).
  assert (Hc : example_heap !! hello_ref
               = Some (mkNode (Text "Hello ") 0 6 (Some red_ref)))
    by (vm_compute; reflexivity).
  assert (Hne : bold_ref <> hello_ref) by discriminate.
  split; [exact Hp|]. split; [exact Hc|]. split; [exact Hne|].
  destruct (appendChild_attaches example_heap bold_ref hello_ref _ _
              [world_ref] Hp eq_refl Hc Hne)
    as (h' & Hrun & Hp' & Hc' & _).
  exists h'. split; [exact Hrun|]. split; [exact Hc'|exact Hp'].
Defined.

Lemma appendChild_removeChild_witness :
  (hello_ref ∉ [world_ref])
  /\ (appendChild bold_ref hello_ref ;;; removeChild hello_ref) example_heap
     = Ok tt (<[hello_ref := mkNode (Text "Hello ") 0 6 None]> example_heap).
Proof.
  assert (Hp : example_heap !! bold_ref
               = Some (mkNode (Element bold [world_ref]) 0 0 (Some red_ref)))
    by (vm_compute; reflexivity).
  assert (Hc : example_heap !! hello_ref
               = Some (mkNode (Text "Hello ") 0 6 (Some red_ref)))
    by (vm_compute; reflexivity).
  assert (Hne : bold_ref <> hello_ref) by discriminate.
  assert (Hnin : hello_ref ∉ [world_ref]).
  { intros Hin%list_elem_of_In. destruct Hin as [Heq|[]]. discriminate. }
  split; [exact Hnin|].
  exact (proj1 (appendChild_removeChild example_heap bold_ref hello_ref _ _
                  [world_ref] Hp eq_refl Hc Hne Hnin)).
Defined.

Lemma removeChild_twice_witness :
  exists h',
    removeChild world_ref example_heap = Ok tt h'
    /\ removeChild world_ref h' = Ok tt h'.
Proof.
  destruct (removeChild world_ref example_heap) as [[] h'|e h'| |] eqn:Hrun;
    try (vm_compute in Hrun; discriminate).
  exists h'. split; [reflexivity|].
  exact (removeChild_twice example_heap h' world_ref Hrun).
Defined.

Lemma replaceChild_in_place_witness :
  example_heap !! red_ref
  = Some (mkNode (Element red [hello_ref; bold_ref; exclamation_ref]) 0 0
            (Some doc_ref))
  /\ exists h',
       replaceChild red_ref bold_ref world_ref example_heap = Ok tt h'
       /\ h' !! red_ref
          = Some (mkNode (Element red [hello_ref; world_ref; exclamation_ref])
                    0 0 (Some doc_ref))
       /\ h' !! world_ref = Some (mkNode (Text "World") 0 5 (Some red_ref)).
Proof.
  assert (Hp : example_heap !! red_ref
               = Some (mkNode (Element red
                                 [hello_ref; bold_ref; exclamation_ref]) 0 0
                         (Some doc_ref)))
    by (vm_compute; reflexivity).
  split; [exact Hp|].
  destruct (replaceChild_in_place example_heap red_ref bold_ref world_ref _
              [hello_ref; bold_ref; exclamation_ref] Hp eq_refl)
    as [_ Hfound].
  destruct (Hfound [hello_ref] [exclamation_ref]
              (mkNode (Element bold [world_ref]) 0 0 (Some red_ref))
              (mkNode (Text "World") 0 5 (Some bold_ref)) eq_refl)
    as (h' & Hrun & Hp' & _ & Hnew & _).
  - intros Hin%list_elem_of_In. destruct Hin as [Heq|[]]. discriminate.
  - vm_compute. reflexivity.
  - vm_compute. reflexivity.
  - discriminate.
  - discriminate.
  - exists h'. split; [exact Hrun|]. split; [exact Hp'|exact Hnew].
Defined.

Lemma getDepth_counts_ancestors_witness :
  chain (heap_of example_heap) world_ref
    [world_ref; bold_ref; red_ref; doc_ref]
  /\ getAncestors 10 world_ref example_heap
     = Ok [bold_ref; red_ref; doc_ref] example_heap
  /\ getDepth 10 world_ref example_heap = Ok 3 example_heap.
Proof.
  split; [exact example_chain_world|].
  destruct (getDepth_counts_ancestors example_heap world_ref
              [world_ref; bold_ref; red_ref; doc_ref] 10 example_chain_world
              ltac:(simpl; lia))
    as (Hanc & Hdepth & _).
  split; [exact Hanc|exact Hdepth].
Defined.

Lemma factories_adopt_witness :
  Forall (fun c => is_Some (example_heap !! c)) [hello_ref]
  /\ exists h',
       createElement bold (Some [hello_ref]) None None example_heap
       = Ok (fresh (dom example_heap)) h'
       /\ h' !! hello_ref
          = Some (mkNode (Text "Hello ") 0 6
                    (Some (fresh (dom example_heap)))).
Proof.
  assert (Hcs : Forall (fun c => is_Some (example_heap !! c)) [hello_ref]).
  { repeat constructor. vm_compute. eauto. }
  split; [exact Hcs|].
  pose proof (factories_adopt example_heap bold [hello_ref] None None Hcs)
    as Hf. cbv zeta in Hf.
  destruct Hf as (_ & (h' & Hrun & _ & Hkids & _) & _).
  exists h'. split; [exact Hrun|].
  rewrite (Hkids hello_ref) by (apply elem_of_cons; by left).
  assert (Hc : example_heap !! hello_ref
               = Some (mkNode (Text "Hello ") 0 6 (Some red_ref)))
    by (vm_compute; reflexivity).
  rewrite Hc. reflexivity.
Defined.

Lemma getRoot_shared_witness :
  chain example_heap world_ref [world_ref; bold_ref; red_ref; doc_ref]
  /\ getRoot 10 red_ref example_heap = getRoot 10 world_ref example_heap.
Proof.
  split; [exact example_chain_world|].
  destruct (getRoot_shared example_heap world_ref
              [world_ref; bold_ref; red_ref; doc_ref] 10 example_chain_world
              ltac:(simpl; lia)) as [Hsame _].
  apply Hsame.
  apply (chain_ancestors _ _ _ red_ref example_chain_world).
  apply elem_of_cons. right. apply elem_of_cons. right.
  apply elem_of_cons. by left.
Defined.

Lemma flatten_preorder_witness :
  repr (heap_of example_heap) example_tree
  /\ flatten 40 doc_ref example_heap
     = Ok [doc_ref; red_ref; hello_ref; bold_ref; world_ref; exclamation_ref]
          example_heap.
Proof.
  split; [exact example_repr|].
  exact (proj1 (flatten_preorder example_heap example_tree 40 example_repr
                  example_weight)).
Defined.

Lemma countNodes_consistent_witness :
  exists c texts elements,
    countNodes 40 doc_ref example_heap = Ok c example_heap
    /\ getTextNodes 40 doc_ref example_heap = Ok texts example_heap
    /\ getElementNodes 40 doc_ref example_heap = Ok elements example_heap
    /\ text_count c = length texts
    /\ element_count c = length elements.
Proof.
  destruct (countNodes_consistent example_heap example_tree 40 example_repr
              example_weight)
    as (c & texts & elements & all & Hc & Ht & He & _ & Htc & Hec & _).
  exists c, texts, elements.
  split; [exact Hc|]. split; [exact Ht|]. split; [exact He|].
  split; [exact Htc|exact Hec].
Defined.

Lemma getAllText_text_witness :
  getAllText 40 doc_ref example_heap = Ok "Hello World!" example_heap.
Proof.
  etrans; [exact (getAllText_text example_heap example_tree 40 example_repr
                    example_weight)|].
  vm_compute. reflexivity.
Defined.

Lemma getMaxDepth_longest_path_witness :
  getMaxDepth 40 doc_ref example_heap = Ok 3 example_heap
  /\ getMaxDepth 40 world_ref example_heap = Ok 0 example_heap.
Proof.
  split.
  - exact (proj1 (getMaxDepth_longest_path example_heap example_tree 40
                    example_repr example_weight)).
  - assert (Hr : repr (heap_of example_heap) (T world_ref [])) by solve_repr.
    destruct (getMaxDepth_longest_path example_heap (T world_ref []) 40 Hr
                ltac:(vm_compute; lia)) as (_ & Hleaf & _).
    exact (Hleaf eq_refl).
Defined.

Lemma createDepthMap_depths_witness :
  NoDup (preorder example_tree)
  /\ exists m,
       createDepthMap 40 doc_ref example_heap = Ok m example_heap
       /\ m !! doc_ref = Some 0
       /\ m !! world_ref = Some 3.
Proof.
  split; [exact example_NoDup|].
  destruct (createDepthMap_depths example_heap example_tree 40 example_repr
              example_weight example_NoDup)
    as (m & Hrun & Hiff & _ & Hroot & _).
  exists m. split; [exact Hrun|]. split; [exact Hroot|].
  apply Hiff. apply (bool_decide_unpack _). by vm_compute.
Defined.

Lemma contains_subtree_witness :
  contains 40 doc_ref world_ref example_heap = Ok true example_heap
  /\ contains 40 bold_ref hello_ref example_heap = Ok false example_heap.
Proof.
  split.
  - exact (proj1 (contains_subtree example_heap example_tree world_ref 40
                    example_repr example_weight)).
  - assert (Hr : repr (heap_of example_heap) (T bold_ref [T world_ref []]))
      by solve_repr.
    exact (proj1 (contains_subtree example_heap (T bold_ref [T world_ref []])
                    hello_ref 40 Hr ltac:(vm_compute; lia))).
Defined.

Lemma sibling_navigation_witness :
  getPreviousSibling bold_ref example_heap = Ok (Some hello_ref) example_heap
  /\ getNextSibling bold_ref example_heap
     = Ok (Some exclamation_ref) example_heap
  /\ getPreviousSibling doc_ref example_heap = Ok None example_heap.
Proof.
  assert (Hb : heap_of example_heap !! bold_ref
               = Some (mkNode (Element bold [world_ref]) 0 0 (Some red_ref)))
    by (vm_compute; reflexivity).
  assert (Hd : heap_of example_heap !! doc_ref
               = Some (mkNode (Document [red_ref]) 0 0 None))
    by (vm_compute; reflexivity).
  destruct (sibling_navigation example_heap bold_ref _ Hb) as [_ Hin].
  destruct (Hin red_ref
              (mkNode (Element red [hello_ref; bold_ref; exclamation_ref]) 0 0
                 (Some doc_ref))
              [hello_ref; bold_ref; exclamation_ref] eq_refl
              ltac:(vm_compute; reflexivity) eq_refl) as [Hheld _].
  destruct (Hheld [hello_ref] [exclamation_ref] eq_refl) as [Hprev Hnext].
  { intros Hm%list_elem_of_In. destruct Hm as [Heq|[]]. discriminate. }
  split; [exact Hprev|]. split; [exact Hnext|].
  destruct (sibling_navigation example_heap doc_ref _ Hd) as [Htop _].
  exact (proj1 (Htop eq_refl)).
Defined.

Lemma sibling_round_trip_witness :
  NoDup [hello_ref; bold_ref; exclamation_ref]
  /\ getNextSibling hello_ref example_heap = Ok (Some bold_ref) example_heap
  /\ getPreviousSibling bold_ref example_heap
     = Ok (Some hello_ref) example_heap.
Proof.
  assert (Hnd : NoDup [hello_ref; bold_ref; exclamation_ref])
    by (apply (bool_decide_unpack _); by vm_compute).
  assert (Hnext : getNextSibling hello_ref example_heap
                  = Ok (Some bold_ref) example_heap)
    by (vm_compute; reflexivity).
  split; [exact Hnd|]. split; [exact Hnext|].
  apply (sibling_round_trip example_heap hello_ref bold_ref red_ref
           (mkNode (Text "Hello ") 0 6 (Some red_ref))
           (mkNode (Element bold [world_ref]) 0 0 (Some red_ref))
           (mkNode (Element red [hello_ref; bold_ref; exclamation_ref]) 0 0
              (Some doc_ref))
           [hello_ref; bold_ref; exclamation_ref]).
  - vm_compute. reflexivity.
  - reflexivity.
  - vm_compute. reflexivity.
  - reflexivity.
  - vm_compute. reflexivity.
  - reflexivity.
  - exact Hnd.
  - apply elem_of_cons. by left.
  - exact Hnext.
Defined.

Lemma isEmpty_all_blank_witness :
  isEmpty ascii_blank 10 doc_ref example_heap = Ok false example_heap
  /\ isEmpty ascii_blank 10 world_ref example_heap = Ok false example_heap.
Proof.
  split.
  - etrans; [exact (proj1 (isEmpty_all_blank ascii_blank example_heap
                             example_tree 10 example_repr
                             ltac:(vm_compute; lia)))|].
    vm_compute. reflexivity.
  - assert (Hr : repr (heap_of example_heap) (T world_ref [])) by solve_repr.
    destruct (isEmpty_all_blank ascii_blank example_heap (T world_ref []) 10
                Hr ltac:(vm_compute; lia)) as (_ & Htext & _).
    exact (Htext (mkNode (Text "World") 0 5 (Some bold_ref)) "World"
             ltac:(vm_compute; reflexivity) eq_refl).
Defined.

Lemma getCommonAncestor_symmetric_witness :
  getCommonAncestor 10 hello_ref world_ref example_heap
  = getCommonAncestor 10 world_ref hello_ref example_heap.
Proof.
  exact (getCommonAncestor_symmetric example_heap hello_ref world_ref _ _ 10
           example_chain_hello example_chain_world ltac:(simpl; lia)
           ltac:(simpl; lia)).
Defined.

Lemma visit_enter_exit_order_witness :
  exists w' made,
    visit 40 doc_ref example_visitor example_world = Ok tt w'
    /\ calls w' = calls example_world ++ made
    /\ List.filter (is_hook EnterNode) made
       = map (pair EnterNode)
           [doc_ref; red_ref; hello_ref; bold_ref; world_ref;
            exclamation_ref]
    /\ List.filter (is_hook ExitNode) made = [].
Proof.
  destruct (visit 40 doc_ref example_visitor example_world)
    as [[] w'|e w'| |] eqn:Hrun; try (vm_compute in Hrun; discriminate).
  destruct (visit_enter_exit_order example_visitor example_world w'
              example_tree 40 example_visitor_keeps_nodes example_repr
              example_weight Hrun) as (made & Hcalls & Henter & Hexit).
  exists w', made. split; [reflexivity|]. split; [exact Hcalls|].
  split; [exact Henter|exact Hexit].
Defined.

Lemma counter_visitor_counts_witness :
  exists w',
    visit 40 doc_ref createCounterVisitor
      (mkWorld example_heap (tt, mkCounts 0 0 0) [])
    = Ok tt w'
    /\ countNodes 40 doc_ref example_heap = Ok (snd (user w')) example_heap
    /\ countNodes 40 doc_ref example_heap = Ok (mkCounts 1 2 3) example_heap.
Proof.
  destruct (counter_visitor_counts
              (mkWorld example_heap (tt, mkCounts 0 0 0) []) example_tree 40
              example_repr example_weight eq_refl)
    as (w' & Hrun & Hcount & _).
  exists w'. split; [exact Hrun|]. split; [exact Hcount|].
  vm_compute. reflexivity.
Defined.

Lemma collector_visitor_findAll_witness :
  keeps_nodes (pure_predicate is_text)
  /\ exists w',
       visit 40 doc_ref (createCollectorVisitor (pure_predicate is_text))
         (mkWorld example_heap (0, []) [])
       = Ok tt w'
       /\ user w' = (0, [hello_ref; world_ref; exclamation_ref]).
Proof.
  assert (Hp : keeps_nodes (pure_predicate is_text))
    by (intros r h u; reflexivity).
  split; [exact Hp|].
  pose proof (collector_visitor_findAll (pure_predicate is_text)
                (mkWorld example_heap (0, []) []) example_tree 40 Hp
                example_repr example_weight eq_refl) as Hc.
  assert (Hf : findAll 40 (root example_tree)
                 (invoke Predicate (pure_predicate is_text))
                 (mkWorld example_heap 0 [])
               = Ok [hello_ref; world_ref; exclamation_ref]
                   (mkWorld example_heap 0
                      (map (pair Predicate) (preorder example_tree))))
    by (vm_compute; reflexivity).
  cbn [nodes user fst] in Hc. rewrite Hf in Hc.
  destruct Hc as (w' & Hrun & _ & Hu).
  exists w'. split; [exact Hrun|exact Hu].
Defined.


Lemma cloneNode_same_answers_witness :
  repr example_heap example_tree
  /\ exists h' c,
       cloneNode 40 doc_ref example_heap = Ok c h'
       /\ getAllText 40 c h' = Ok "Hello World!" h'
       /\ countNodes 40 c h' = Ok (mkCounts 1 2 3) h'
       /\ getMaxDepth 40 c h' = Ok 3 h'.
Proof.
  split; [exact example_repr|].
  destruct (cloneNode_same_answers example_heap example_tree 40 example_repr
              example_weight)
    as (h' & c & txt & cnt & d & Hrun & Ht & Ht' & Hc & Hc' & Hd & Hd').
  assert (Htxt : Ok txt example_heap = Ok "Hello World!" example_heap).
  { rewrite <- Ht. vm_compute. reflexivity. }
  assert (Hcnt : Ok cnt example_heap = Ok (mkCounts 1 2 3) example_heap).
  { rewrite <- Hc. vm_compute. reflexivity. }
  assert (Hdep : Ok d example_heap = Ok 3 example_heap).
  { rewrite <- Hd. vm_compute. reflexivity. }
  apply Ok_value in Htxt as ->. apply Ok_value in Hcnt as ->.
  apply Ok_value in Hdep as ->.
  exists h', c. split; [exact Hrun|]. split; [exact Ht'|].
  split; [exact Hc'|exact Hd'].
Defined.

Lemma createDepthMap_agrees_getDepth_witness :
  parented (heap_of example_heap) example_tree
  /\ exists m,
       createDepthMap 40 doc_ref example_heap = Ok m example_heap
       /\ forall r d, m !! r = Some d ->
            getDepth 40 r example_heap = Ok d example_heap.
Proof.
  split; [exact example_parented|].
  apply (createDepthMap_agrees_getDepth example_heap example_tree 40
           example_repr example_parented).
  - exists (mkNode (Document [red_ref]) 0 0 None).
    split; [vm_compute; reflexivity|reflexivity].
  - exact example_weight.
Defined.

Lemma getElementsWithTag_selects_witness :
  exists found elements,
    getElementsWithTag 40 doc_ref bold example_heap = Ok found example_heap
    /\ getElementNodes 40 doc_ref example_heap = Ok elements example_heap
    /\ found
       = List.filter
           (fun r => bool_decide (tag_of example_heap r = Some bold)) elements.
Proof.
  destruct (getElementsWithTag_selects example_heap example_tree bold 40
              example_repr example_weight)
    as (found & elements & Hf & He & Heq & _).
  exists found, elements. split; [exact Hf|]. split; [exact He|exact Heq].
Defined.
